(** * files2prompt: the traversal-and-emission pipeline

    A shallow embedding of [src/utils.ts], [src/printing.ts] and
    [src/walker.ts] (the modular variant with [WalkOptions]), of
    [parseSize] and of the loop of [main], and the properties the
    specification states about them.

    Conventions.
    - A JavaScript string is a Rocq [string]; one [ascii] stands for one
      UTF-16 code unit below 256.  The line terminators of that range are
      LF and CR.
    - Module-level and shared mutable objects ([globalIndex], the
      [gitignoreRules] array, [options.counter], the writer's sink, the
      diagnostic stream) are fields of one explicit [state] threaded
      through every call.
    - The file system is an in-memory tree; each file carries the answers
      the three accesses of the walker get ([openSync]/[readSync],
      [statSync], [readFileSync]), so that races between enumeration and
      access are representable. *)

From Stdlib Require Import Strings.Ascii Strings.String NArith Strings.Byte Decimal DecimalFacts DecimalNat DecimalString Sorting.Sorted.
From stdpp Require Import base list strings gmap.

(** ** Strings as the JavaScript string methods see them *)

Module Str.

Definition chr (n : nat) : ascii := ascii_of_nat n.

Definition LF : ascii := chr 10.
Definition CR : ascii := chr 13.
Definition dquote : ascii := chr 34.
Definition backtick : ascii := chr 96.

Definition single (c : ascii) : string := String c EmptyString.

Definition nl : string := single LF.

(** [s.startsWith(p)] *)
Fixpoint startsWith (p s : string) : bool :=
  match p with
  | EmptyString => true
  | String a p' =>
      match s with
      | EmptyString => false
      | String b s' => Ascii.eqb a b && startsWith p' s'
      end
  end.

(** [s.includes(p)] *)
Fixpoint includes (p s : string) : bool :=
  startsWith p s ||
  match s with
  | EmptyString => false
  | String _ s' => includes p s'
  end.

Fixpoint rev_onto (s acc : string) : string :=
  match s with
  | EmptyString => acc
  | String c s' => rev_onto s' (String c acc)
  end.

Definition rev (s : string) : string := rev_onto s EmptyString.

(** [s.endsWith(p)] *)
Definition endsWith (p s : string) : bool := startsWith (rev p) (rev s).

(** [s.split(sep)] for a one-character separator: never the empty list. *)
Fixpoint split (sep : ascii) (s : string) : list string :=
  match s with
  | EmptyString => [EmptyString]
  | String c s' =>
      if Ascii.eqb c sep then EmptyString :: split sep s'
      else match split sep s' with
           | [] => [single c]
           | l :: ls => String c l :: ls
           end
  end.

(** [ls.join(sep)] *)
Fixpoint join (sep : string) (ls : list string) : string :=
  match ls with
  | [] => EmptyString
  | [l] => l
  | l :: ls' => l +:+ sep +:+ join sep ls'
  end.

(** [' '.repeat(n)] and friends *)
Fixpoint repeat (c : ascii) (n : nat) : string :=
  match n with
  | O => EmptyString
  | S n' => String c (repeat c n')
  end.

(** [s.padStart(w, ' ')] *)
Definition padStart (w : nat) (s : string) : string :=
  repeat " "%char (w - String.length s) +:+ s.

(** [String(n)] for a non-negative integer below 1e21. *)
Definition of_nat (n : nat) : string := NilEmpty.string_of_uint (Nat.to_uint n).

Definition is_upper (c : ascii) : bool :=
  (65 <=? nat_of_ascii c)%nat && (nat_of_ascii c <=? 90)%nat.

Definition lower_char (c : ascii) : ascii :=
  if is_upper c then chr (nat_of_ascii c + 32) else c.

(** [s.toLowerCase()] on the ASCII letters. *)
Fixpoint toLowerCase (s : string) : string :=
  match s with
  | EmptyString => EmptyString
  | String c s' => String (lower_char c) (toLowerCase s')
  end.

(** White space of [String.prototype.trim] within the modelled range. *)
Definition is_space (c : ascii) : bool :=
  let n := nat_of_ascii c in
  ((9 <=? n)%nat && (n <=? 13)%nat) || (n =? 32)%nat || (n =? 160)%nat.

Fixpoint trimStart (s : string) : string :=
  match s with
  | EmptyString => EmptyString
  | String c s' => if is_space c then trimStart s' else s
  end.

(** [s.trim()] *)
Definition trim (s : string) : string := rev (trimStart (rev (trimStart s))).

Definition is_empty (s : string) : bool :=
  match s with EmptyString => true | _ => false end.

(** Membership of a character in a string, as a boolean. *)
Fixpoint mem (c : ascii) (s : string) : bool :=
  match s with
  | EmptyString => false
  | String d s' => Ascii.eqb c d || mem c s'
  end.

End Str.

(** ** [utils.ts]: the pattern matcher *)

(** The characters of the class [[.+^${}()|[\]\\]] that [fnmatch] escapes. *)
Definition escaped_class : string := ".+^${}()|[]\".

(** [pattern.replace(/[.+^${}()|[\]\\]/g, '\\$&')] *)
Fixpoint escape_specials (p : string) : string :=
  match p with
  | EmptyString => EmptyString
  | String c p' =>
      if Str.mem c escaped_class
      then String "\"%char (String c (escape_specials p'))
      else String c (escape_specials p')
  end.

(** [s.replace(/\*/g, '.*')] *)
Fixpoint replace_stars (s : string) : string :=
  match s with
  | EmptyString => EmptyString
  | String c s' =>
      if Ascii.eqb c "*"%char
      then String "."%char (String "*"%char (replace_stars s'))
      else String c (replace_stars s')
  end.

(** [s.replace(/\?/g, '.')] *)
Fixpoint replace_qmarks (s : string) : string :=
  match s with
  | EmptyString => EmptyString
  | String c s' =>
      String (if Ascii.eqb c "?"%char then "."%char else c) (replace_qmarks s')
  end.

(** The source text handed to [new RegExp]. *)
Definition regexStr (pattern : string) : string :=
  "^" +:+ replace_qmarks (replace_stars (escape_specials pattern)) +:+ "$".

(** The fragment of ECMAScript regular expressions that [regexStr] can
    produce: a start anchor, a sequence of literal characters, [.] and
    [.*], and an end anchor.  No flag is given, so [.] matches any
    character but a line terminator and the anchors match only at the two
    ends of the input. *)
Inductive atom : Type :=
  | ALit (c : ascii)
  | ADot
  | ADotStar.

(** The syntax characters of an ECMAScript pattern. *)
Definition syntax_chars : string := "^$\.*+?()[]{}|".

Fixpoint parse_body (s : string) : option (list atom) :=
  match s with
  | EmptyString => None
  | String c s' =>
      if Ascii.eqb c "\"%char then
        match s' with
        | String d s'' =>
            if Str.mem d syntax_chars
            then cons (ALit d) <$> parse_body s''
            else None
        | EmptyString => None
        end
      else if Ascii.eqb c "."%char then
        match s' with
        | String d s'' =>
            if Ascii.eqb d "*"%char
            then cons ADotStar <$> parse_body s''
            else cons ADot <$> parse_body s'
        | EmptyString => None
        end
      else if Ascii.eqb c "$"%char then
        if Str.is_empty s' then Some [] else None
      else if Str.mem c syntax_chars then None
      else cons (ALit c) <$> parse_body s'
  end.

(** [new RegExp(src)], defined on the fragment above. *)
Definition parse_regex (src : string) : option (list atom) :=
  match src with
  | String c body => if Ascii.eqb c "^"%char then parse_body body else None
  | EmptyString => None
  end.

Definition is_line_terminator (c : ascii) : bool :=
  Ascii.eqb c Str.LF || Ascii.eqb c Str.CR.

(** Does the atom sequence match exactly the whole of [s]? *)
Fixpoint match_atoms (atoms : list atom) : string -> bool :=
  match atoms with
  | [] => Str.is_empty
  | ALit c :: rest => fun s =>
      match s with
      | String d s' => Ascii.eqb c d && match_atoms rest s'
      | EmptyString => false
      end
  | ADot :: rest => fun s =>
      match s with
      | String d s' => negb (is_line_terminator d) && match_atoms rest s'
      | EmptyString => false
      end
  | ADotStar :: rest =>
      fix star (s : string) : bool :=
        match_atoms rest s ||
        match s with
        | String d s' => negb (is_line_terminator d) && star s'
        | EmptyString => false
        end
  end.

(** [regex.test(name)]; a pattern outside the fragment is reported as
    [None] (it does not arise from [regexStr], see [regexStr_in_fragment]). *)
Definition regex_test (src name : string) : option bool :=
  (fun atoms => match_atoms atoms name) <$> parse_regex src.

(** [fnmatch(name, pattern)] *)
Definition fnmatch (name pattern : string) : bool :=
  default false (regex_test (regexStr pattern) name).

(** The glob atoms a pattern denotes, read directly off the pattern. *)
Fixpoint glob_atoms (p : string) : list atom :=
  match p with
  | EmptyString => []
  | String c p' =>
      (if Ascii.eqb c "*"%char then ADotStar
       else if Ascii.eqb c "?"%char then ADot
       else ALit c) :: glob_atoms p'
  end.

(** The matcher as the specification words it: [*] stands for zero or
    more characters, [?] for exactly one, any other character for itself,
    and the whole name must be consumed. *)
Inductive glob_matches : string -> string -> Prop :=
  | glob_empty : glob_matches EmptyString EmptyString
  | glob_star_none name p :
      glob_matches name p -> glob_matches name (String "*" p)
  | glob_star_more c name p :
      glob_matches name (String "*" p) ->
      glob_matches (String c name) (String "*" p)
  | glob_qmark c name p :
      glob_matches name p -> glob_matches (String c name) (String "?" p)
  | glob_literal c name p :
      c <> "*"%char -> c <> "?"%char ->
      glob_matches name p -> glob_matches (String c name) (String c p).

(** A name free of line terminators. *)
Fixpoint single_line (s : string) : bool :=
  match s with
  | EmptyString => true
  | String c s' => negb (is_line_terminator c) && single_line s'
  end.


(** ** [utils.ts]: constants *)

(** [DEFAULT_IGNORES] *)
Definition DEFAULT_IGNORES : list string :=
  [".env"; ".env.*"; ".env*"; ".gitignore"].

(** [BINARY_EXTENSIONS], a [Set<string>]. *)
Definition BINARY_EXTENSIONS : gset string :=
  list_to_set
    [ "jpg"; "jpeg"; "png"; "gif"; "bmp"; "webp"; "ico"; "tif"; "tiff"; "psd";
      "svg"; "heic"; "heif"; "avif";
      "mp4"; "m4v"; "mov"; "avi"; "wmv"; "mkv"; "flv"; "webm"; "3gp"; "3g2";
      "mp3"; "wav"; "flac"; "aac"; "ogg"; "oga"; "m4a"; "opus"; "mid"; "midi";
      "pdf";
      "zip"; "tar"; "gz"; "bz2"; "xz"; "7z"; "rar"; "iso"; "dmg"; "tgz";
      "tbz2"; "txz";
      "ttf"; "otf"; "woff"; "woff2"; "eot";
      "exe"; "dll"; "so"; "o"; "a"; "bin"; "dat"; "class"; "jar"; "wasm";
      "sqlite"; "db"; "realm" ].

(** The own properties of the object literal [EXT_TO_LANG]. *)
Definition EXT_TO_LANG : gmap string string :=
  list_to_map
    [ ("py", "python"); ("c", "c"); ("cpp", "cpp"); ("java", "java");
      ("js", "javascript"); ("ts", "typescript"); ("html", "html");
      ("css", "css"); ("xml", "xml"); ("json", "json"); ("yaml", "yaml");
      ("yml", "yaml"); ("sh", "bash"); ("rb", "ruby"); ("md", "markdown");
      ("txt", "text"); ("csv", "csv"); ("jsonl", "jsonl"); ("pl", "perl") ].

(** ** JavaScript values met by the property read [EXT_TO_LANG[ext]]

    [EXT_TO_LANG] is created by an object literal, so its prototype is
    [Object.prototype]: a property read that finds no own property goes on
    to the prototype chain.  The values found there are functions, and for
    the accessor [__proto__] the prototype object itself. *)
Inductive jsval : Type :=
  | VUndefined
  | VString (s : string)
  | VNativeFunction (name : string)
  | VObject.

(** The properties of [Object.prototype]. *)
Definition Object_prototype (key : string) : jsval :=
  if bool_decide (key = "__proto__") then VObject
  else if bool_decide
            (key ∈ [ "constructor"; "hasOwnProperty"; "isPrototypeOf";
                     "propertyIsEnumerable"; "toLocaleString"; "toString";
                     "valueOf"; "__defineGetter__"; "__defineSetter__";
                     "__lookupGetter__"; "__lookupSetter__" ])
  then VNativeFunction
         (if bool_decide (key = "constructor") then "Object" else key)
  else VUndefined.

(** [obj[key]] for an object literal with the own properties [own]. *)
Definition get_property (own : gmap string string) (key : string) : jsval :=
  match own !! key with
  | Some v => VString v
  | None => Object_prototype key
  end.

(** [ToBoolean] *)
Definition truthy (v : jsval) : bool :=
  match v with
  | VUndefined => false
  | VString s => negb (Str.is_empty s)
  | VNativeFunction _ | VObject => true
  end.

(** [a || b] *)
Definition js_or (a b : jsval) : jsval := if truthy a then a else b.

(** [ToString], as a template literal applies it. *)
Definition js_to_string (v : jsval) : string :=
  match v with
  | VUndefined => "undefined"
  | VString s => s
  | VNativeFunction name => "function " +:+ name +:+ "() { [native code] }"
  | VObject => "[object Object]"
  end.

(** ** Node's [path] module (POSIX flavour) *)

Module Path.

(** The last non-empty segment of a path. *)
Definition basename (p : string) : string :=
  List.last (List.filter (fun seg => negb (Str.is_empty seg)) (Str.split "/" p))
            EmptyString.

(** The suffix of a segment starting at its last dot, if it has a dot. *)
Fixpoint from_last_dot (seg : string) : option string :=
  match seg with
  | EmptyString => None
  | String c rest =>
      match from_last_dot rest with
      | Some e => Some e
      | None => if Ascii.eqb c "."%char then Some seg else None
      end
  end.

(** [path.extname]: the text from the last dot of the last segment, empty
    when there is no dot, when the only dot leads the segment, or for
    [".."]. *)
Definition extname (p : string) : string :=
  let seg := basename p in
  match from_last_dot seg with
  | None => EmptyString
  | Some e =>
      if String.eqb e seg || String.eqb seg ".." then EmptyString else e
  end.

(** [path.join(dir, name)] where it adds one slash and nothing else: for
    a [dir] of segments separated by single slashes, none of them [.] or
    [..], without a trailing slash, and a [name] that a directory listing
    holds.  On any other [dir] (the working directory written as a dot,
    the root directory, a name with a trailing slash) [path.join] answers
    the normalized path, which this definition does not compute: there
    the base name and the place in the tree are those of the program's
    path, the text before the base name is not. *)
Definition join (dir name : string) : string := dir +:+ "/" +:+ name.

End Path.

(** [s.slice(1)], [s.substring(1)] *)
Definition drop_first (s : string) : string :=
  match s with
  | EmptyString => EmptyString
  | String _ s' => s'
  end.

(** ** [utils.ts]: the binary detector *)

(** The test [c < 7 || (c > 13 && c < 32) || c > 127] on one byte. *)
Definition suspicious_byte (c : N) : bool :=
  ((c <? 7) || ((13 <? c) && (c <? 32)) || (127 <? c))%N.

(** The loop of [isBinaryBuffer] from position [i] on; [susp] is the
    running value of [suspicious].  The comparison
    [suspicious / len > 0.3] is taken over the rationals, as
    [10 * suspicious > 3 * len]: for [len <= 512] the correctly rounded
    quotient lies on the same side of the double [0.3] as the exact one. *)
Fixpoint isBinaryBuffer_loop (len susp : N) (bytes : list byte) : bool :=
  match bytes with
  | [] => false
  | b :: rest =>
      let c := Byte.to_N b in
      if (c =? 0)%N then true
      else if suspicious_byte c then
        let susp' := (susp + 1)%N in
        if (3 * len <? 10 * susp')%N then true
        else isBinaryBuffer_loop len susp' rest
      else isBinaryBuffer_loop len susp rest
  end.

(** [isBinaryBuffer(buf)] *)
Definition isBinaryBuffer (buf : list byte) : bool :=
  let sample := take 512 buf in
  isBinaryBuffer_loop (N.of_nat (length sample)) 0%N sample.

(** ** The file system and the run state *)

(** What [fs.readFileSync(path, 'utf8')] answers. *)
Inductive read_result : Type :=
  | ReadOk (content : string)
  | ReadENOENT
  | ReadError.

(** A file, as the three kinds of access see it: the bytes an
    [openSync]/[readSync] pair delivers ([None] when it throws), the size
    [statSync] reports ([None] when it throws), and the answer of
    [readFileSync]. *)
Record file : Type := mkFile {
  f_bytes : option (list byte);
  f_size : option nat;
  f_read : read_result
}.

(** A directory lists its entries in enumeration order. *)
#[local] Unset Elimination Schemes.
Inductive node : Type :=
  | File (f : file)
  | Dir (entries : list (string * node)).
#[local] Set Elimination Schemes.

(** Induction on a tree, with the hypothesis for every entry of a
    directory. *)
Fixpoint node_ind' (P : node -> Prop)
    (Hfile : forall f, P (File f))
    (Hdir : forall entries, Forall (fun e => P e.2) entries -> P (Dir entries))
    (n : node) {struct n} : P n :=
  match n with
  | File f => Hfile f
  | Dir entries =>
      Hdir entries
        ((fix go (es : list (string * node)) : Forall (fun e => P e.2) es :=
            match es with
            | [] => @List.Forall_nil _ (fun e => P e.2)
            | (name, d) :: es' =>
                @List.Forall_cons _ (fun e => P e.2) (name, d) es'
                  (node_ind' P Hfile Hdir d) (go es')
            end) entries)
  end.

Definition is_dir (n : node) : bool :=
  match n with Dir _ => true | File _ => false end.

(** The effects of a run that the properties speak about, in the order
    they happen.  A read of a [.gitignore] is recorded with the rules it
    yields.  ([existsSync] and the [statSync] calls that only ask for the
    kind of a path are not recorded.) *)
Inductive event : Type :=
  | EvReaddir (dir : string)     (* fs.readdirSync(dir)                   *)
  | EvReadRules (path : string) (rules : list string)
                                 (* readGitignore: fs.readFileSync(path)  *)
  | EvSniff (path : string)      (* isBinaryFile: fs.openSync(path, 'r')  *)
  | EvStat (path : string)       (* size limit: fs.statSync(path)         *)
  | EvRead (path : string)       (* fs.readFileSync(path, 'utf8')         *)
  | EvEmit (path : string).      (* printAsJson / printPath on that file  *)

#[global] Instance event_eq_dec : EqDecision event.
Proof. solve_decision. Defined.

Record state : Type := mkState {
  globalIndex : nat;            (* printing.ts: let globalIndex          *)
  count : nat;                  (* options.counter.count                 *)
  gitignoreRules : list string; (* the array shared by every call        *)
  out : list string;            (* lines handed to the writer            *)
  err : list string;            (* lines handed to console.error         *)
  log : list event
}.

Definition set_globalIndex (g : nat) (st : state) : state :=
  mkState g (count st) (gitignoreRules st) (out st) (err st) (log st).
Definition set_count (c : nat) (st : state) : state :=
  mkState (globalIndex st) c (gitignoreRules st) (out st) (err st) (log st).
Definition push_rules (rs : list string) (st : state) : state :=
  mkState (globalIndex st) (count st) (gitignoreRules st ++ rs)
          (out st) (err st) (log st).
Definition writer (line : string) (st : state) : state :=
  mkState (globalIndex st) (count st) (gitignoreRules st)
          (out st ++ [line]) (err st) (log st).
Definition console_error (line : string) (st : state) : state :=
  mkState (globalIndex st) (count st) (gitignoreRules st)
          (out st) (err st ++ [line]) (log st).
Definition record (e : event) (st : state) : state :=
  mkState (globalIndex st) (count st) (gitignoreRules st)
          (out st) (err st) (log st ++ [e]).

(** [isBinaryFile(fullPath)]: the extension test first, the file opened
    only when it does not decide. *)
Definition isBinaryFile (fullPath : string) (f : file) (st : state)
  : bool * state :=
  let ext := Str.toLowerCase (drop_first (Path.extname fullPath)) in
  if negb (Str.is_empty ext) && bool_decide (ext ∈ BINARY_EXTENSIONS)
  then (true, st)
  else
    let st := record (EvSniff fullPath) st in
    match f_bytes f with
    | Some buf => (isBinaryBuffer (take 512 buf), st)
    | None => (false, st)
    end.

(** [shouldIgnore(fullPath, rules)]; [isDir] is what
    [existsSync]/[statSync] report about the path. *)
Definition shouldIgnore (fullPath : string) (isDir : bool)
    (rules : list string) : bool :=
  let basename := Path.basename fullPath in
  existsb (fun rule =>
             fnmatch basename rule ||
             (isDir && fnmatch (basename +:+ "/") rule))
          rules.

(** The lines [readGitignore] keeps of a [.gitignore] text. *)
Definition gitignore_lines (content : string) : list string :=
  List.filter
    (fun line => negb (Str.is_empty line) && negb (Str.startsWith "#" line))
    (List.map Str.trim (Str.split Str.LF content)).

Fixpoint lookup_entry (name : string) (entries : list (string * node))
  : option node :=
  match entries with
  | [] => None
  | (n, x) :: rest => if String.eqb n name then Some x else lookup_entry name rest
  end.

(** [readGitignore(dir)], [entries] being the content of [dir]. *)
Definition readGitignore (dir : string) (entries : list (string * node))
    (st : state) : list string * state :=
  let gitignorePath := Path.join dir ".gitignore" in
  match lookup_entry ".gitignore" entries with
  | None => ([], st)
  | Some n =>
      let rules :=
        match n with
        | File f =>
            match f_read f with
            | ReadOk content => gitignore_lines content
            | _ => []
            end
        | Dir _ => []
        end in
      (rules, record (EvReadRules gitignorePath rules) st)
  end.

(** ** [utils.ts]: line numbering *)

(** The callback of [lines.map] in [addLineNumbers]. *)
Definition number_line (padding i : nat) (line : string) : string :=
  Str.padStart padding (Str.of_nat (i + 1)) +:+ "  " +:+ line.

(** [addLineNumbers(content)] *)
Definition addLineNumbers (content : string) : string :=
  let lines := Str.split Str.LF content in
  if (length lines =? 0)%nat then EmptyString
  else
    let numLines := length lines in
    let padding := String.length (Str.of_nat numLines) in
    Str.join Str.nl (imap (number_line padding) lines).

(** [writeMultiLine(writer, content)] *)
Definition writeMultiLine (content : string) (st : state) : state :=
  fold_left (fun s line => writer line s) (Str.split Str.LF content) st.


(** ** [printing.ts] *)

(** [resetDocumentIndex()] *)
Definition resetDocumentIndex (st : state) : state := set_globalIndex 1 st.

Definition hex_digit (n : nat) : ascii :=
  if (n <? 10)%nat then Str.chr (48 + n) else Str.chr (87 + n).

(** One character inside a JSON string literal, as [JSON.stringify]
    writes it. *)
Definition json_escape_char (c : ascii) : string :=
  let n := nat_of_ascii c in
  if (n =? 34)%nat then "\" +:+ Str.single Str.dquote
  else if (n =? 92)%nat then "\\"
  else if (n =? 8)%nat then "\b"
  else if (n =? 9)%nat then "\t"
  else if (n =? 10)%nat then "\n"
  else if (n =? 12)%nat then "\f"
  else if (n =? 13)%nat then "\r"
  else if (n <? 32)%nat then
    "\u00" +:+ Str.single (hex_digit (n / 16)) +:+ Str.single (hex_digit (n mod 16))
  else Str.single c.

Fixpoint json_escape (s : string) : string :=
  match s with
  | EmptyString => EmptyString
  | String c s' => json_escape_char c +:+ json_escape s'
  end.

Definition json_quote (s : string) : string :=
  Str.single Str.dquote +:+ json_escape s +:+ Str.single Str.dquote.

(** [JSON.stringify({ index, source, content })] *)
Definition json_document (index : nat) (source content : string) : string :=
  "{" +:+ json_quote "index" +:+ ":" +:+ Str.of_nat index +:+ "," +:+
  json_quote "source" +:+ ":" +:+ json_quote source +:+ "," +:+
  json_quote "content" +:+ ":" +:+ json_quote content +:+ "}".

Definition numbered (lineNumbers : bool) (content : string) : string :=
  if lineNumbers then addLineNumbers content else content.

(** [printAsJson(writer, filePath, content, lineNumbers)] *)
Definition printAsJson (filePath content : string) (lineNumbers : bool)
    (st : state) : state :=
  let content := numbered lineNumbers content in
  let st := writer (json_document (globalIndex st) filePath content) st in
  set_globalIndex (globalIndex st + 1) st.

(** [printDefault(writer, filePath, content, lineNumbers)] *)
Definition printDefault (filePath content : string) (lineNumbers : bool)
    (st : state) : state :=
  let st := writer filePath st in
  let st := writer "---" st in
  let content := numbered lineNumbers content in
  let st := writeMultiLine content st in
  let st := writer EmptyString st in
  writer "---" st.

(** The first line [printAsXml] writes. *)
Definition xml_open_tag (index : nat) : string :=
  "<document index=" +:+ Str.single Str.dquote +:+ Str.of_nat index +:+
  Str.single Str.dquote +:+ ">".

(** [printAsXml(writer, filePath, content, lineNumbers)] *)
Definition printAsXml (filePath content : string) (lineNumbers : bool)
    (st : state) : state :=
  let st := writer (xml_open_tag (globalIndex st)) st in
  let st := writer ("<source>" +:+ filePath +:+ "</source>") st in
  let st := writer "<document_content>" st in
  let content := numbered lineNumbers content in
  let st := writeMultiLine content st in
  let st := writer "</document_content>" st in
  let st := writer "</document>" st in
  set_globalIndex (globalIndex st + 1) st.

(** The loop [while (content.includes(backticks)) backticks += '`'], on
    the length [k] of [backticks].  A run longer than the content cannot
    occur in it, so [String.length content] rounds always reach the exit
    (see [fence_length_exit]). *)
Fixpoint grow_fence (fuel : nat) (content : string) (k : nat) : nat :=
  match fuel with
  | O => k
  | S fuel' =>
      if Str.includes (Str.repeat Str.backtick k) content
      then grow_fence fuel' content (S k)
      else k
  end.

Definition fence_length (content : string) : nat :=
  grow_fence (String.length content) content 3.

(** The value of [backticks] after the loop. *)
Definition fence (content : string) : string :=
  Str.repeat Str.backtick (fence_length content).

(** [EXT_TO_LANG[ext] || ''], as the template literal prints it. *)
Definition language_tag (filePath : string) : string :=
  let ext := Str.toLowerCase (drop_first (Path.extname filePath)) in
  js_to_string (js_or (get_property EXT_TO_LANG ext) (VString EmptyString)).

(** [printAsMarkdown(writer, filePath, content, lineNumbers)] *)
Definition printAsMarkdown (filePath content : string) (lineNumbers : bool)
    (st : state) : state :=
  let st := writer filePath st in
  let lang := language_tag filePath in
  let backticks := fence content in
  let st := writer (backticks +:+ lang) st in
  let content := numbered lineNumbers content in
  let st := writeMultiLine content st in
  writer backticks st.

(** [printPath(writer, filePath, content, cxml, markdown, lineNumbers)] *)
Definition printPath (filePath content : string)
    (cxml markdown lineNumbers : bool) (st : state) : state :=
  if cxml then printAsXml filePath content lineNumbers st
  else if markdown then printAsMarkdown filePath content lineNumbers st
  else printDefault filePath content lineNumbers st.

(** ** [walker.ts] *)

(** The parameters of [walkDir]/[processPath] that stay fixed during a
    run, and [WalkOptions].  [ig], when present, is the project-root
    matcher seen through [path.relative(process.cwd(), .)]: it answers
    [ig.ignores(rel)] for the full path it is given, a path inside the
    working directory.  On a path that leads out of the working directory
    [ig.ignores] throws; the walker modelled here is the walker on the
    paths for which the matcher answers, and the runs of [main] say when
    a call is left by that exception.  [has_counter] tells whether
    [options.counter] is set. *)
Record config : Type := mkConfig {
  extensions : list string;
  includeHidden : bool;
  ignoreFilesOnly : bool;
  ignoreGitignore : bool;
  ignorePatterns : list string;
  ig : option (string -> bool);
  cxml : bool;
  markdown : bool;
  lineNumbers : bool;
  json : bool;
  quiet : bool;
  pathMapper : option (string -> string);
  maxFiles : option nat;
  maxSize : option nat;
  has_counter : bool
}.

(** [files.sort()]: insertion into a list ordered by code units. *)
Fixpoint insert_sorted {A : Type} (x : string * A) (l : list (string * A))
  : list (string * A) :=
  match l with
  | [] => [x]
  | y :: l' =>
      if String.leb x.1 y.1 then x :: l else y :: insert_sorted x l'
  end.

Definition sort_by_name {A : Type} (l : list (string * A)) : list (string * A) :=
  foldr insert_sorted [] l.

(** The non-directory entries of a listing. *)
Fixpoint file_entries (entries : list (string * node)) : list (string * file) :=
  match entries with
  | [] => []
  | (name, File f) :: rest => (name, f) :: file_entries rest
  | (_, Dir _) :: rest => file_entries rest
  end.

Section Walker.

Variable cfg : config.

(** [if (!options.quiet) console.error(msg)] *)
Definition warn (msg : string) (st : state) : state :=
  if quiet cfg then st else console_error msg st.

Definition size_warning (filePath : string) (limit : nat) : string :=
  "Warning: Skipping file " +:+ filePath +:+ " due to size > " +:+
  Str.of_nat limit +:+ " bytes".

Definition encoding_warning (filePath : string) : string :=
  "Warning: Skipping file " +:+ filePath +:+ " due to encoding error".

(** The emission of one file that was read, with the counter update. *)
Definition emit (filePath content : string) (st : state) : state :=
  let displayPath :=
    match pathMapper cfg with
    | Some mapper => mapper filePath
    | None => filePath
    end in
  let st := record (EvEmit filePath) st in
  let st :=
    if json cfg then printAsJson displayPath content (lineNumbers cfg) st
    else printPath displayPath content (cxml cfg) (markdown cfg)
                   (lineNumbers cfg) st in
  if has_counter cfg then set_count (count st + 1) st else st.

(** The [try { ... } catch (err) { ... }] block that [walkDir] runs for a
    file of the listing and [processPath] for a file given directly: skip
    a binary file, skip an oversized one with a warning, read, emit. *)
Definition process_file (filePath : string) (f : file) (st : state) : state :=
  let '(binary, st) := isBinaryFile filePath f st in
  if binary then st
  else
    let '(oversized, st) :=
      match maxSize cfg with
      | Some limit =>
          let st := record (EvStat filePath) st in
          match f_size f with
          | Some size =>
              if (limit <? size)%nat
              then (true, warn (size_warning filePath limit) st)
              else (false, st)
          | None => (false, st)
          end
      | None => (false, st)
      end in
    if oversized then st
    else
      let st := record (EvRead filePath) st in
      match f_read f with
      | ReadOk content => emit filePath content st
      | ReadENOENT => st
      | ReadError => warn (encoding_warning filePath) st
      end.

(** [options.maxFiles !== undefined && options.counter &&
     options.counter.count >= options.maxFiles], [c] being the value of
    [options.counter.count]. *)
Definition limit_reached_at (c : nat) : bool :=
  match maxFiles cfg with
  | Some limit => has_counter cfg && (limit <=? c)%nat
  | None => false
  end.

Definition limit_reached (st : state) : bool := limit_reached_at (count st).

(** The loop [for (const file of files)]; the flag tells whether it left
    through [return]. *)
Fixpoint walk_files (root : string) (files : list (string * file))
    (st : state) : state * bool :=
  match files with
  | [] => (st, false)
  | (name, f) :: rest =>
      if limit_reached st then (st, true)
      else walk_files root rest (process_file (Path.join root name) f st)
  end.

Definition combinedIgnorePatterns : list string :=
  DEFAULT_IGNORES ++ ignorePatterns cfg.

Definition hidden (name : string) : bool := Str.startsWith "." name.

(** The [.gitignore] stage of [walkDir]: the project-root matcher when
    there is one, else the fallback that first appends the directory's
    own entries to the shared array.  The result tells which full paths
    survive the stage. *)
Definition gitignore_stage (root : string) (entries : list (string * node))
    (st : state) : (string -> bool -> bool) * state :=
  match ig cfg with
  | Some ignores => (fun full _ => negb (ignores full), st)
  | None =>
      let st :=
        if ignoreGitignore cfg then st
        else let '(rules, st) := readGitignore root entries st in
             push_rules rules st in
      let rules := gitignoreRules st in
      if (0 <? length rules)%nat
      then (fun full isDir => negb (shouldIgnore full isDir rules), st)
      else (fun _ _ => true, st)
  end.

(** The pattern stage for a subdirectory [d] of the listing. *)
Definition dir_passes_patterns (d : string) : bool :=
  if (0 <? length combinedIgnorePatterns)%nat then
    if ignoreFilesOnly cfg then true
    else negb (existsb (fnmatch (Path.basename d)) combinedIgnorePatterns)
  else true.

(** The pattern stage for a file name [f] of the listing. *)
Definition file_passes_patterns (f : string) : bool :=
  if (0 <? length combinedIgnorePatterns)%nat then
    negb (existsb (fnmatch f) combinedIgnorePatterns)
  else true.

Definition passes_extensions (f : string) : bool :=
  if (0 <? length (extensions cfg))%nat
  then existsb (fun ext => Str.endsWith ext f) (extensions cfg)
  else true.

Definition passes_hidden (name : string) : bool :=
  includeHidden cfg || negb (hidden name).

(** All the filters a file name of the listing goes through. *)
Definition keep_file (root : string) (git : string -> bool -> bool)
    (name : string) : bool :=
  passes_hidden name && git (Path.join root name) false &&
  file_passes_patterns name && passes_extensions name.

(** All the filters a subdirectory of the listing goes through. *)
Definition keep_dir (root : string) (git : string -> bool -> bool)
    (name : string) : bool :=
  passes_hidden name && git (Path.join root name) true &&
  dir_passes_patterns (Path.join root name).

(** [walkDir(root, ...)], [n] being what [root] names.  The filters are
    evaluated before the two loops, as the source does with
    [Array.prototype.filter]; the second loop goes over the listing and
    skips what the filters dropped.  [processPath] and the recursion call
    [walkDir] on directories only; on a file nothing is done here (there
    [fs.readdirSync] would throw).  Enumerating a directory is taken to
    succeed. *)
Fixpoint walkDir (root : string) (n : node) (st : state) {struct n} : state :=
  match n with
  | File _ => st
  | Dir entries =>
      let st := record (EvReaddir root) st in
      let '(git, st) := gitignore_stage root entries st in
      let files :=
        sort_by_name
          (List.filter (fun e => keep_file root git e.1) (file_entries entries)) in
      let '(st, returned) := walk_files root files st in
      if returned then st
      else
        (fix walk_subdirs (es : list (string * node)) (st : state) : state :=
           match es with
           | [] => st
           | (name, d) :: es' =>
               walk_subdirs es'
                 (if is_dir d && keep_dir root git name
                  then walkDir (Path.join root name) d st
                  else st)
           end) entries st
  end.

(** The loop [for (const subdir of subdirs)] of [walkDir], over the
    listing. *)
Definition walk_subdirs (root : string) (git : string -> bool -> bool)
    (entries : list (string * node)) (st : state) : state :=
  fold_left
    (fun st e =>
       if is_dir e.2 && keep_dir root git e.1
       then walkDir (Path.join root e.1) e.2 st
       else st)
    entries st.

(** [processPath(p, ...)]; [target] is what [p] names, [None] when
    [fs.existsSync(p)] is false. *)
Definition processPath (p : string) (target : option node) (st : state)
  : state :=
  match target with
  | None => st
  | Some (File f) =>
      if match ig cfg with Some ignores => ignores p | None => false end
         || shouldIgnore p false (gitignoreRules st)
         || shouldIgnore p false combinedIgnorePatterns
      then st
      else process_file p f st
  | Some (Dir entries) => walkDir p (Dir entries) st
  end.

End Walker.

(** A state as a run starts with: nothing written, nothing counted. *)
Definition initial_state (rules : list string) : state :=
  mkState 1 0 rules [] [] [].

(** Text files for examples. *)
Definition text_file (content : string) : file :=
  mkFile (Some (String.list_byte_of_string content))
         (Some (String.length content)) (ReadOk content).

Definition plain_config : config :=
  mkConfig [] true false false [] None false false false false false None
           None None true.

(** ** Auxiliary definitions of the proofs *)

(** What the three replacements make of one pattern character. *)
Definition translate_char (c : ascii) : string :=
  if Str.mem c escaped_class then String "\"%char (Str.single c)
  else if Ascii.eqb c "*"%char then ".*"
  else if Ascii.eqb c "?"%char then "."
  else Str.single c.

Definition translated (p : string) : string :=
  replace_qmarks (replace_stars (escape_specials p)).

Definition head_is_star (s : string) : bool :=
  match s with
  | String c _ => Ascii.eqb c "*"%char
  | EmptyString => false
  end.

(** A name with a line feed in it, a legal file name on POSIX systems. *)
Definition two_line_name : string := "a" +:+ Str.nl +:+ "b".

(** A name of two lines that starts like a dotenv file. *)
Definition dotenv_two_lines : string := ".env" +:+ Str.nl +:+ "x".


(** Ten one-letter lines. *)
Definition ten_lines : string :=
  Str.join Str.nl ["a"; "b"; "c"; "d"; "e"; "f"; "g"; "h"; "i"; "j"].

Fixpoint no_upper (s : string) : bool :=
  match s with
  | EmptyString => true
  | String c s' => negb (Str.is_upper c) && no_upper s'
  end.

(** The extension [printAsMarkdown] and [isBinaryFile] look up. *)
Definition lookup_extension (filePath : string) : string :=
  Str.toLowerCase (drop_first (Path.extname filePath)).

(** The number of bytes of a sample outside the text range. *)
Definition non_text_count (sample : list byte) : nat :=
  length (List.filter (fun b => suspicious_byte (Byte.to_N b)) sample).

(** ** A run of the document emitter

    The two formats whose output carries the index, and the emission of
    a sequence of documents one after the other, as a run does. *)
Inductive indexed_format : Type := AsXml | AsJson.

Record document : Type := mkDocument {
  d_format : indexed_format;
  d_path : string;
  d_content : string;
  d_lineNumbers : bool
}.

Definition emit_document (d : document) (st : state) : state :=
  match d_format d with
  | AsXml => printAsXml (d_path d) (d_content d) (d_lineNumbers d) st
  | AsJson => printAsJson (d_path d) (d_content d) (d_lineNumbers d) st
  end.

Definition emit_documents (docs : list document) (st : state) : state :=
  fold_left (fun s d => emit_document d s) docs st.

(** The lines of a document that carries the index [index]. *)
Definition rendered (index : nat) (d : document) : list string :=
  let content := numbered (d_lineNumbers d) (d_content d) in
  match d_format d with
  | AsXml =>
      [xml_open_tag index; "<source>" +:+ d_path d +:+ "</source>";
       "<document_content>"] ++
      Str.split Str.LF content ++ ["</document_content>"; "</document>"]
  | AsJson => [json_document index (d_path d) content]
  end.

Definition sample_documents : list document :=
  [ mkDocument AsXml "a.txt" "A" false;
    mkDocument AsJson "b.txt" "B" true;
    mkDocument AsXml "c.txt" "C" false ].

(** ** Reading the log *)

(** The file an event touches: sniffed, measured, read or emitted. *)
Definition file_event_path (e : event) : option string :=
  match e with
  | EvSniff p | EvStat p | EvRead p | EvEmit p => Some p
  | EvReaddir _ | EvReadRules _ _ => None
  end.

Definition is_emit (e : event) : bool :=
  match e with EvEmit _ => true | _ => false end.

(** The number of documents a stretch of the log emits. *)
Definition emitted (evs : list event) : nat := length (List.filter is_emit evs).

(** The rules a stretch of the log appends to [gitignoreRules]. *)
Definition pushed_by (e : event) : list string :=
  match e with EvReadRules _ rules => rules | _ => [] end.

Definition pushed (evs : list event) : list string :=
  concat (List.map pushed_by evs).

(** [trace_ok P counting rules c evs]: every event of [evs] satisfies
    [P] at the value the rule array and the counter have when it
    happens, [rules] and [c] being their values before [evs]. *)
Fixpoint trace_ok (P : list string -> nat -> event -> Prop) (counting : bool)
    (rules : list string) (c : nat) (evs : list event) : Prop :=
  match evs with
  | [] => True
  | e :: rest =>
      P rules c e /\
      trace_ok P counting (rules ++ pushed_by e)
        (if counting && is_emit e then c + 1 else c) rest
  end.

(** A name a directory listing can hold: not empty, without a slash. *)
Definition valid_name (name : string) : bool :=
  negb (Str.is_empty name) && negb (Str.mem "/" name).

(** Every name listed in the tree satisfies [V]. *)
Fixpoint names_ok (V : string -> bool) (n : node) : bool :=
  match n with
  | File _ => true
  | Dir entries =>
      forallb (fun e => match e with (name, d) => V name && names_ok V d end)
              entries
  end.

(** The three static and dynamic exclusion tests on a file path. *)
Definition denied (cfg : config) (q : string) : bool :=
  shouldIgnore q false (combinedIgnorePatterns cfg).

Definition ig_ignored (cfg : config) (q : string) : bool :=
  match ig cfg with
  | Some ignores => ignores q
  | None => false
  end.

Definition rules_ignored (cfg : config) (rules : list string) (q : string)
  : bool :=
  match ig cfg with
  | Some _ => false
  | None => shouldIgnore q false rules
  end.

(** A directory that the walk may enumerate: the starting point [top], or
    a directory that neither the project-root matcher nor, unless only
    files are to be ignored, a pattern excludes. *)
Definition dir_allowed (cfg : config) (top d : string) : Prop :=
  d = top \/
  (ig_ignored cfg d = false /\
   (ignoreFilesOnly cfg = false ->
    existsb (fnmatch (Path.basename d)) (combinedIgnorePatterns cfg) = false)).

(** [extends P cfg st st']: [st'] is [st] after some more events; they
    account for what was appended to the rule array and added to the
    counter and to the document index, and each satisfies [P] when it
    happens. *)
Definition extends (P : list string -> nat -> event -> Prop) (cfg : config)
    (st st' : state) : Prop :=
  exists new,
    log st' = log st ++ new /\
    gitignoreRules st' = gitignoreRules st ++ pushed new /\
    count st' = count st + (if has_counter cfg then emitted new else 0) /\
    globalIndex st' =
      globalIndex st + (if json cfg || cxml cfg then emitted new else 0) /\
    trace_ok P (has_counter cfg) (gitignoreRules st) (count st) new.

(** [event_ok F D]: what an event must satisfy, [F] for the file it
    touches and [D] for the directory it enumerates; a rule file that is
    read is a [.gitignore]. *)
Definition event_ok (F : list string -> nat -> string -> Prop)
    (D : string -> Prop) (rules : list string) (c : nat) (e : event) : Prop :=
  match e with
  | EvReaddir d => D d
  | EvReadRules path _ => Path.basename path = ".gitignore"
  | EvSniff q | EvStat q | EvRead q | EvEmit q => F rules c q
  end.

(** The names of a target are those of a real listing. *)
Definition listing_ok (target : option node) : bool :=
  match target with
  | Some n => names_ok valid_name n
  | None => true
  end.

Definition is_file_target (target : option node) : bool :=
  match target with
  | Some (File _) => true
  | _ => false
  end.

(** A file that no rule source active for it excludes: not the pattern
    lists, not the project-root matcher, and not the rule array, which
    [walkDir] consults in fallback mode and [processPath] for a file it
    is given directly ([direct]). *)
Definition file_allowed (cfg : config) (direct : bool) (rules : list string)
    (q : string) : Prop :=
  denied cfg q = false /\
  ig_ignored cfg q = false /\
  (ig cfg = None \/ direct = true -> shouldIgnore q false rules = false).

(** What the specification means by a name matching one of a list of
    patterns or rules: the glob relation. *)
Definition glob_listed (name : string) (patterns : list string) : Prop :=
  exists pattern, pattern ∈ patterns /\ glob_matches name pattern.

(** A file that a rule source active for it excludes, matching being the
    glob relation on the base name: a pattern of the default denylist or
    a custom one; the project-root matcher; a rule of the rule array,
    which counts in fallback mode and for a file given directly
    ([direct]). *)
Definition file_excluded (cfg : config) (direct : bool) (rules : list string)
    (q : string) : Prop :=
  glob_listed (Path.basename q) (combinedIgnorePatterns cfg) \/
  ig_ignored cfg q = true \/
  ((ig cfg = None \/ direct = true) /\ glob_listed (Path.basename q) rules).

(** A directory that a rule source excludes: the project-root matcher;
    in fallback mode a rule of the rule array, which may name the
    directory with or without a closing slash; unless only files are to
    be ignored, a pattern. *)
Definition dir_excluded (cfg : config) (rules : list string) (d : string)
  : Prop :=
  ig_ignored cfg d = true \/
  (ig cfg = None /\
   (glob_listed (Path.basename d) rules \/
    glob_listed (Path.basename d +:+ "/") rules)) \/
  (ignoreFilesOnly cfg = false /\
   glob_listed (Path.basename d) (combinedIgnorePatterns cfg)).

(** The rule array as [walkDir(root, ...)] consults it for the listing
    [entries] when it is called in the state [st]: what the array holds
    then, and the rules of the directory's own [.gitignore] unless rule
    files are to be ignored. *)
Definition rules_in_force (cfg : config) (root : string)
    (entries : list (string * node)) (st : state) : list string :=
  gitignoreRules st ++
  (if ignoreGitignore cfg then [] else (readGitignore root entries st).1).

(** ** Example file systems and configurations *)

(** A directory whose rule file excludes its subdirectory [out]. *)
Definition pruned_tree (sub : list (string * node)) : node :=
  Dir [ (".gitignore", File (text_file "out/"));
        ("a.txt", File (text_file "A"));
        ("out", Dir sub) ].

(** A directory whose rule file excludes logs, with a log of two lines
    in its name. *)
Definition two_line_log : string := two_line_name +:+ ".log".

Definition two_line_log_tree : node :=
  Dir [ (".gitignore", File (text_file "*.log"));
        (two_line_log, File (text_file "noise")) ].

(** A directory with its rule file and one log. *)
Definition rules_tree : node :=
  Dir [ (".gitignore", File (text_file "*.log"));
        ("build.log", File (text_file "noise")) ].

(** Two sibling directories: [a] holds a rule file, [b] a text file. *)
Definition sibling_tree : node :=
  Dir [ ("a", Dir [ (".gitignore", File (text_file "*.txt")) ]);
        ("b", Dir [ ("note.txt", File (text_file "hello")) ]) ].

(** The same tree, [b] enumerated before [a]. *)
Definition sibling_tree_swapped : node :=
  Dir [ ("b", Dir [ ("note.txt", File (text_file "hello")) ]);
        ("a", Dir [ (".gitignore", File (text_file "*.txt")) ]) ].

(** The same tree without the rule file of [a]. *)
Definition sibling_tree_without_rules : node :=
  Dir [ ("a", Dir []);
        ("b", Dir [ ("note.txt", File (text_file "hello")) ]) ].

(** One file at the top, then two subdirectories. *)
Definition limit_tree : node :=
  Dir [ ("a.txt", File (text_file "A"));
        ("s1", Dir [ ("b.txt", File (text_file "B")) ]);
        ("s2", Dir [ ("inner", Dir [ ("c.txt", File (text_file "C")) ]) ]) ].

(** The same, with a rule file in [s1]. *)
Definition limit_rules_tree : node :=
  Dir [ ("a.txt", File (text_file "A"));
        ("s1", Dir [ (".gitignore", File (text_file "*.md"));
                     ("b.txt", File (text_file "B")) ]);
        ("s2", Dir [ ("inner", Dir [ ("c.txt", File (text_file "C")) ]) ]) ].

(** [plain_config] with [maxFiles] set. *)
Definition limit_config (limit : nat) : config :=
  mkConfig [] true false false [] None false false false false false None
           (Some limit) None true.

(** [plain_config] that ignores [.gitignore] files. *)
Definition no_gitignore_config : config :=
  mkConfig [] true false true [] None false false false false false None
           None None true.

(** The paths a log emits, in order. *)
Definition emitted_paths (evs : list event) : list string :=
  omap (fun e => match e with EvEmit p => Some p | _ => None end) evs.

(** A file that is gone by the time it is accessed. *)
Definition vanished_file : file := mkFile None None ReadENOENT.

(** A file that can be opened and measured but not read. *)
Definition unreadable_file : file :=
  mkFile (Some []) (Some 0) ReadError.

(** An event that opens the path [q] for reading. *)
Definition opens_for_reading (e : event) (q : string) : Prop :=
  e = EvSniff q \/ e = EvRead q \/ exists rules, e = EvReadRules q rules.

(** [plain_config] in xml format. *)
Definition xml_config : config :=
  mkConfig [] true false false [] None true false false false false None
           None None true.

(** [plain_config] with an extension filter. *)
Definition extension_config (exts : list string) : config :=
  mkConfig exts true false false [] None false false false false false None
           None None false.

(** Custom ignore patterns, [.gitignore] processing off. *)
Definition pattern_config (patterns : list string) : config :=
  mkConfig [] true false true patterns None false false false false false None
           None None false.

(** [plain_config] without hidden files. *)
Definition hidden_off_config : config :=
  mkConfig [] false false false [] None false false false false false None
           None None false.

(** ** Further definitions: patterns *)

(** A pattern without wildcard. *)
Definition no_wildcard (p : string) : bool :=
  negb (Str.mem "*" p) && negb (Str.mem "?" p).

(** The last character of a string is a slash. *)
Definition ends_with_slash (s : string) : bool := Str.endsWith "/" s.

(** A text with no white space at either end. *)
Definition head_not_space (s : string) : bool :=
  match s with
  | EmptyString => true
  | String c _ => negb (Str.is_space c)
  end.

Definition no_outer_space (s : string) : bool :=
  head_not_space s && head_not_space (Str.rev s).

(** [s.slice(n)] *)
Fixpoint string_drop (n : nat) (s : string) : string :=
  match n, s with
  | O, _ => s
  | S n', String _ s' => string_drop n' s'
  | S _, EmptyString => EmptyString
  end.

(** The number of occurrences of a character. *)
Fixpoint count_char (c : ascii) (s : string) : nat :=
  match s with
  | EmptyString => 0
  | String d s' => (if Ascii.eqb d c then 1 else 0) + count_char c s'
  end.

(** A byte of the text range of [isBinaryBuffer]. *)
Definition text_byte (b : byte) : bool := negb (suspicious_byte (Byte.to_N b)).

(** ** [utils.ts]: reading paths from standard input *)

(** [s.split(/\s+/)]; [in_space] tells that the character before was
    white space, so that a run of white space separates once. *)
Fixpoint split_spaces_from (in_space : bool) (s : string) : list string :=
  match s with
  | EmptyString => [EmptyString]
  | String c s' =>
      if Str.is_space c then
        if in_space then split_spaces_from true s'
        else EmptyString :: split_spaces_from true s'
      else
        match split_spaces_from false s' with
        | [] => [Str.single c]
        | l :: ls => String c l :: ls
        end
  end.

Definition split_spaces (s : string) : list string := split_spaces_from false s.

Definition NUL : ascii := Str.chr 0.

(** The callback [(p) => p.trim()] of [filter], read as a boolean. *)
Definition not_blank (p : string) : bool := negb (Str.is_empty (Str.trim p)).

(** [readPathsFromStdin(useNull)]; [isTTY] is [process.stdin.isTTY] and
    [data] what [fs.readFileSync(0, 'utf8')] returns. *)
Definition readPathsFromStdin (isTTY : bool) (data : string) (useNull : bool)
  : list string :=
  if isTTY then []
  else if useNull then List.filter not_blank (Str.split NUL data)
  else List.filter not_blank (split_spaces (Str.trim data)).

(** A text without white space. *)
Fixpoint space_free (s : string) : bool :=
  match s with
  | EmptyString => true
  | String c s' => negb (Str.is_space c) && space_free s'
  end.

(** A path name that white-space separated input can carry. *)
Definition word (s : string) : bool := negb (Str.is_empty s) && space_free s.

(** The text [find -print0] writes for a list of names. *)
Definition nul_terminated (names : list string) : string :=
  fold_right (fun n acc => n +:+ String NUL acc) EmptyString names.

(** ** Further definitions: runs of a character *)

(** The length of the run of [c] that [s] starts with. *)
Fixpoint lead (c : ascii) (s : string) : nat :=
  match s with
  | EmptyString => 0
  | String d s' => if Ascii.eqb d c then S (lead c s') else 0
  end.

(** The length of the longest run of [c] in [s]. *)
Fixpoint longest_run (c : ascii) (s : string) : nat :=
  match s with
  | EmptyString => 0
  | String _ s' => Nat.max (lead c s) (longest_run c s')
  end.

(** A text without control character (code below 32). *)
Fixpoint no_control (s : string) : bool :=
  match s with
  | EmptyString => true
  | String c s' => (32 <=? nat_of_ascii c)%nat && no_control s'
  end.

(** ** Further definitions: what a walk respects *)

(** What the hidden policy and the extension filter ask of an event of a
    walk that starts at [top]: a directory that is enumerated is [top] or
    passes the hidden policy, a file that is touched passes the policy
    and the extension filter, a rule file is a [.gitignore]. *)
Definition filters_respected (cfg : config) (top : string) (e : event) : Prop :=
  match e with
  | EvReaddir d => d = top \/ passes_hidden cfg (Path.basename d) = true
  | EvReadRules path _ => Path.basename path = ".gitignore"
  | EvSniff q | EvStat q | EvRead q | EvEmit q =>
      passes_hidden cfg (Path.basename q) = true /\
      passes_extensions cfg (Path.basename q) = true
  end.

(** A tree with hidden and visible entries of two extensions. *)
Definition mixed_tree : node :=
  Dir [ (".env.ts", File (text_file "secret"));
        ("a.ts", File (text_file "A"));
        ("b.md", File (text_file "B"));
        (".cache", Dir [ ("c.ts", File (text_file "C")) ]);
        ("lib", Dir [ ("d.ts", File (text_file "D")) ]) ].

(** No hidden entries, extension [.ts] only, rule files left alone. *)
Definition visible_ts_config : config :=
  mkConfig [".ts"] false false true [] None false false false false false None
           None None true.

(** ** Further definitions: what a run writes *)

(** The two warnings of the walker start alike. *)
Definition is_warning (line : string) : bool :=
  Str.startsWith "Warning: Skipping file " line.

Definition is_sniff (e : event) : bool :=
  match e with EvSniff _ => true | _ => false end.

(** The number of files a stretch of the log opens for the binary test. *)
Definition sniffed (evs : list event) : nat := length (List.filter is_sniff evs).

(** A line that [printAsJson] writes. *)
Definition json_line (line : string) : Prop :=
  exists index source content, line = json_document index source content.

(** [effects cfg st st']: what a stretch of a run does to the three
    channels, the log growing by [new], the writer's lines by [lines] and
    [console.error]'s by [warnings].  Nothing is taken back; a line is
    written only for an emitted document, at least one for each, and in
    json format exactly one, made by [printAsJson]; [console.error]
    gets nothing in quiet mode and warnings only otherwise, and a file
    that was opened is emitted or warned about or neither, never both. *)
Definition effects (cfg : config) (st st' : state) : Prop :=
  exists new lines warnings,
    log st' = log st ++ new /\
    out st' = out st ++ lines /\
    err st' = err st ++ warnings /\
    (quiet cfg = true -> warnings = []) /\
    Forall (fun w => is_warning w = true) warnings /\
    length warnings + emitted new <= sniffed new /\
    emitted new <= length lines /\
    (emitted new = 0 -> lines = []) /\
    (json cfg = true ->
     length lines = emitted new /\ Forall json_line lines).

(** A tree with a text file, an oversized one, an unreadable one and an
    image. *)
Definition noisy_tree : node :=
  Dir [ ("a.txt", File (text_file "A"));
        ("big.txt", File (text_file "0123456789"));
        ("odd.txt", File unreadable_file);
        ("pic.png", File (text_file "P")) ].

(** Json format, files of at most five bytes. *)
Definition json_config (quiet : bool) : config :=
  mkConfig [] true false true [] None false false false true quiet None
           None (Some 5) true.

(** ** Further definitions: the order of emission *)

(** [ascending last evs]: in [evs], the names of the files emitted since
    the last directory enumeration never go down; [last] is the name
    emitted last before [evs], if any since the last enumeration. *)
Fixpoint ascending (last : option string) (evs : list event) : bool :=
  match evs with
  | [] => true
  | EvReaddir _ :: rest => ascending None rest
  | EvEmit q :: rest =>
      match last with
      | Some l => String.leb l (Path.basename q)
      | None => true
      end && ascending (Some (Path.basename q)) rest
  | _ :: rest => ascending last rest
  end.

Definition is_readdir (e : event) : bool :=
  match e with EvReaddir _ => true | _ => false end.

(** Listings in which the names do not ascend. *)
Definition unsorted_tree : node :=
  Dir [ ("z.txt", File (text_file "Z"));
        ("sub", Dir [ ("m.txt", File (text_file "M"));
                      ("b.txt", File (text_file "B")) ]);
        ("a.txt", File (text_file "A"));
        ("B.txt", File (text_file "upper")) ].

(** ** Further definitions: configurations that differ *)

(** [cfg] with another [maxFiles]. *)
Definition set_maxFiles (m : option nat) (cfg : config) : config :=
  mkConfig (extensions cfg) (includeHidden cfg) (ignoreFilesOnly cfg)
           (ignoreGitignore cfg) (ignorePatterns cfg) (ig cfg) (cxml cfg)
           (markdown cfg) (lineNumbers cfg) (json cfg) (quiet cfg)
           (pathMapper cfg) m (maxSize cfg) (has_counter cfg).

(** [cfg] with other settings for what only a directory listing is
    filtered by: the extensions, the hidden policy, the two switches
    about ignoring, and the file limit. *)
Definition set_listing_filters (exts : list string)
    (hiddenToo filesOnly noGitignore : bool) (m : option nat) (cfg : config)
  : config :=
  mkConfig exts hiddenToo filesOnly noGitignore (ignorePatterns cfg) (ig cfg)
           (cxml cfg) (markdown cfg) (lineNumbers cfg) (json cfg) (quiet cfg)
           (pathMapper cfg) m (maxSize cfg) (has_counter cfg).

Definition is_rules_event (e : event) : bool :=
  match e with EvReadRules _ _ => true | _ => false end.

(** Extension [.ts] only, no hidden files, at most zero files. *)
Definition strict_config : config :=
  mkConfig [".ts"] false false false [] None false false false false false None
           (Some 0) None true.

(** [plain_config] with a project-root matcher that ignores nothing. *)
Definition matcher_config : config :=
  mkConfig [] true false false [] (Some (fun _ => false)) false false false
           false false None None None true.

(** ** [main.ts]: sizes on the command line *)

Definition is_digit (c : ascii) : bool :=
  (48 <=? nat_of_ascii c)%nat && (nat_of_ascii c <=? 57)%nat.

(** The longest prefix of characters that satisfy [p], and what follows. *)
Fixpoint take_while (p : ascii -> bool) (s : string) : string :=
  match s with
  | EmptyString => EmptyString
  | String c s' => if p c then String c (take_while p s') else EmptyString
  end.

Fixpoint drop_while (p : ascii -> bool) (s : string) : string :=
  match s with
  | EmptyString => EmptyString
  | String c s' => if p c then drop_while p s' else s
  end.

Fixpoint all_chars (p : ascii -> bool) (s : string) : bool :=
  match s with
  | EmptyString => true
  | String c s' => p c && all_chars p s'
  end.

(** The number a run of decimal digits stands for, [acc] being the
    number of the digits read so far. *)
Fixpoint parseInt_from (acc : N) (digits : string) : N :=
  match digits with
  | EmptyString => acc
  | String c rest =>
      parseInt_from (10 * acc + (N.of_nat (nat_of_ascii c) - 48))%N rest
  end.

(** The number [digits] stands for.  [parseInt(digits, 10)] is the
    double nearest to it, which is the number itself up to 2^53. *)
Definition parseInt (digits : string) : N := parseInt_from 0 digits.

(** The factor of a unit letter, [None] for any other character. *)
Definition unit_factor (c : ascii) : option N :=
  if Ascii.eqb c "k" || Ascii.eqb c "K" then Some 1024%N
  else if Ascii.eqb c "m" || Ascii.eqb c "M" then Some (1024 * 1024)%N
  else if Ascii.eqb c "g" || Ascii.eqb c "G" then Some (1024 * 1024 * 1024)%N
  else None.

(** The match of [/^\s*(\d+)\s*([kKmMgG]?)\s*$/] on [val]: the digits
    of the first group and the factor of the second, [None] when the
    expression does not match.  The expression is read from left to
    right: its classes exclude one another, so each part takes the
    longest run it can. *)
Definition size_match (val : string) : option (string * N) :=
  let s := drop_while Str.is_space val in
  let digits := take_while is_digit s in
  let s := drop_while Str.is_space (drop_while is_digit s) in
  if Str.is_empty digits then None
  else
    let '(factor, s) :=
      match s with
      | String c rest =>
          match unit_factor c with
          | Some f => (f, rest)
          | None => (1%N, s)
          end
      | EmptyString => (1%N, s)
      end in
    if Str.is_empty (drop_while Str.is_space s) then Some (digits, factor)
    else None.

(** The doubles [parseSize] returns, as far as the model determines
    them: [NaN]; a number given exactly; or [SizeBeyond], a double of at
    least 2^53 or [Infinity], which the model leaves open. *)
Inductive size : Type :=
  | SizeNaN
  | SizeExact (n : N)
  | SizeBeyond.

(** 2^53: every integer up to it is a double. *)
Definition max_exact : N := 9007199254740992.

(** [n * 1024], [n * 1024 * 1024], ... for the number of the digits.
    Up to 2^53 that number is the double [parseInt] returns, and the
    products of a double with powers of two are exact (they stay below
    2^84); beyond 2^53 the double is a rounding of the number, which is
    left open. *)
Definition size_of (digits : string) (factor : N) : size :=
  if (parseInt digits <=? max_exact)%N
  then SizeExact (parseInt digits * factor)
  else SizeBeyond.

(** [parseSize(val)] *)
Definition parseSize (val : string) : size :=
  match size_match val with
  | None => SizeNaN
  | Some (digits, factor) => size_of digits factor
  end.

(** What the expression of [parseSize] accepts: white space, digits,
    white space, at most one unit letter, white space. *)
Definition size_text (val digits : string) (factor : N) : Prop :=
  exists ws1 ws2 unit ws3,
    val = ws1 +:+ digits +:+ ws2 +:+ unit +:+ ws3 /\
    all_chars Str.is_space ws1 = true /\
    all_chars is_digit digits = true /\ digits <> EmptyString /\
    all_chars Str.is_space ws2 = true /\
    ((unit = EmptyString /\ factor = 1%N) \/
     (exists c, unit = Str.single c /\ unit_factor c = Some factor)) /\
    all_chars Str.is_space ws3 = true.

(** The first character of [s] satisfies [p]. *)
Definition head_sat (p : ascii -> bool) (s : string) : bool :=
  match s with
  | EmptyString => false
  | String c _ => p c
  end.


(** [name] is not below the name emitted last. *)
Definition bounded (last : option string) (name : string) : Prop :=
  match last with
  | Some l => String.leb l name = true
  | None => True
  end.


(** ** [main.ts]: the loop over the paths and what follows it *)

(** What [main] finds for one path [p]: what [p] names, [None] when
    [fs.existsSync(p)] is false; the directory [path.dirname(p)] and its
    listing, [None] when it does not exist; whether
    [path.relative(process.cwd(), p)] leads out of the working
    directory; and whether some directory that the walk of [p] goes to
    cannot be enumerated, so that [fs.readdirSync] throws. *)
Record argument : Type := mkArgument {
  a_path : string;
  a_target : option node;
  a_dirname : string;
  a_parent : option (list (string * node));
  a_outside : bool;
  a_unreadable : bool
}.

(** The state of [main]: the state the walker works on, whose [out]
    holds the lines the walker handed to the writer it was given; the
    lines that reached the output stream; the flag [JSON_FIRST]. *)
Record run : Type := mkRun {
  walker : state;
  stream : list string;
  JSON_FIRST : bool
}.

(** [walkerWriter]: in json format a comma before every line but the
    first, else the plain writer. *)
Definition walkerWriter (json : bool) (line : string) (r : bool * list string)
  : bool * list string :=
  if json then (false, (if r.1 then r.2 else r.2 ++ [","]) ++ [line])
  else (r.1, r.2 ++ [line]).

(** The lines of one [processPath] call going through [walkerWriter]. *)
Definition forward (json : bool) (lines : list string) (r : bool * list string)
  : bool * list string :=
  fold_left (fun r line => walkerWriter json line r) lines r.

Definition missing_path_error (p : string) : string :=
  "Error: Path does not exist: " +:+ p.

Definition nothing_processed : string :=
  "No files were processed. Check your paths, filters, and ignore settings.".

(** Whether an exception leaves the call [processPath(p, ...)].  No
    [try] block of [walker.ts] covers [fs.readdirSync] or the calls of
    [ig.ignores], and [ig.ignores] throws a [RangeError] on a path that
    leads out of the working directory.  For a file it is called first
    thing; for a directory it is called on the entries that the hidden
    policy leaves, the first of them if there is one.  In every other
    call the matcher answers, which is what the field [ig] of [config]
    gives. *)
Definition escapes (cfg : config) (a : argument) : bool :=
  match a_target a with
  | None => false
  | Some (File _) => bool_decide (is_Some (ig cfg)) && a_outside a
  | Some (Dir entries) =>
      a_unreadable a ||
      (bool_decide (is_Some (ig cfg)) && a_outside a &&
       existsb (fun e => passes_hidden cfg e.1) entries)
  end.

(** How the loop of [main] is left before its end: through
    [process.exit], or by an exception. *)
Inductive ending : Type :=
  | Exit (code : nat)
  | Uncaught.

(** The loop [for (let i = 0; i < allPaths.length; i++)] from index [i]
    on; the second component tells how the loop was left, if it was left
    before its end.  What a [processPath] call appended to [out] is what
    it handed to [walkerWriter].  When an exception leaves the call, the
    state returned is the one before the call: what the call did before
    it threw is left open. *)
Fixpoint main_loop (cfg : config) (i : nat) (args : list argument) (r : run)
  : run * option ending :=
  match args with
  | [] => (r, None)
  | a :: rest =>
      match a_target a with
      | None =>
          (mkRun (console_error (missing_path_error (a_path a)) (walker r))
                 (stream r) (JSON_FIRST r),
           Some (Exit 1))
      | Some _ =>
          let st := walker r in
          let st :=
            if ignoreGitignore cfg then st
            else
              match a_parent a with
              | Some entries =>
                  let '(rules, st) := readGitignore (a_dirname a) entries st in
                  push_rules rules st
              | None => st
              end in
          let lines :=
            if cxml cfg && (i =? 0)%nat then stream r ++ ["<documents>"]
            else stream r in
          if escapes cfg a then (mkRun st lines (JSON_FIRST r), Some Uncaught)
          else
            let st' := processPath cfg (a_path a) (a_target a) st in
            let '(first, lines) :=
              forward (json cfg) (drop (length (out st)) (out st'))
                      (JSON_FIRST r, lines) in
            main_loop cfg (S i) rest (mkRun st' lines first)
      end
  end.

(** How [main] ends: with a state and the code of the process, or by an
    exception, which [cli.ts] prints before it exits with code 1; what
    had been written when the exception was thrown is left open. *)
Inductive result : Type :=
  | Ended (r : run) (code : nat)
  | Thrown.

Definition exit_code (x : result) : nat :=
  match x with
  | Ended _ code => code
  | Thrown => 1
  end.

(** [main] from the opening of the json wrapper on; [cfg] holds what
    [main] passes to [processPath], the rule array starts empty and the
    document index at 1. *)
Definition main_run (cfg : config) (args : list argument) : result :=
  let lines := if json cfg then ["["] else [] in
  let '(r, how) := main_loop cfg 0 args (mkRun (initial_state []) lines true) in
  match how with
  | Some (Exit code) => Ended r code
  | Some Uncaught => Thrown
  | None =>
      let lines := if cxml cfg then stream r ++ ["</documents>"] else stream r in
      let lines := if json cfg then lines ++ ["]"] else lines in
      if (count (walker r) =? 0)%nat
      then Ended (mkRun (warn cfg nothing_processed (walker r)) lines
                        (JSON_FIRST r)) 2
      else Ended (mkRun (walker r) lines (JSON_FIRST r)) 0
  end.

(** Lines with a comma line before each, and with one between them. *)
Definition with_commas (lines : list string) : list string :=
  flat_map (fun l => [","; l]) lines.

Definition separated (lines : list string) : list string :=
  match lines with
  | [] => []
  | l :: ls => l :: with_commas ls
  end.

Definition is_nil {A : Type} (l : list A) : bool :=
  match l with [] => true | _ => false end.

Definition present (a : argument) : bool :=
  match a_target a with Some _ => true | None => false end.

(** A path that exists and whose processing no exception leaves. *)
Definition sound (cfg : config) (a : argument) : bool :=
  present a && negb (escapes cfg a).

(** An argument for a path at the top of the working directory, all of
    whose directories can be enumerated. *)
Definition top_argument (name : string) (target : option node) : argument :=
  mkArgument name target "." (Some []) false false.

(** An argument for a path that leads out of the working directory. *)
Definition outside_argument (p : string) (target : option node) : argument :=
  mkArgument p target ".." (Some []) true false.

(** [counted cfg st st']: the counter advanced by one for each document
    the log gained, when there is a counter. *)
Definition counted (cfg : config) (st st' : state) : Prop :=
  exists new,
    log st' = log st ++ new /\
    count st' = count st + (if has_counter cfg then emitted new else 0).

(** A line of the output stream in json format: a bracket or comma that
    [main] writes, the opening tag it writes when [cxml] is set too, or a
    document. *)
Definition json_stream_line (l : string) : Prop :=
  l = "[" \/ l = "," \/ l = "<documents>" \/ json_line l.

(** Two arguments, the second of which does not exist. *)
Definition broken_arguments : list argument :=
  [ top_argument "src" (Some limit_tree);
    top_argument "gone" None;
    top_argument "more" (Some limit_tree) ].

(** Json format with a counter, no limits. *)
Definition json_main_config : config :=
  mkConfig [] false false false [] None false false false true false None
           None None true.

(** The same with a project-root matcher that ignores nothing. *)
Definition json_matcher_config : config :=
  mkConfig [] false false false [] (Some (fun _ => false)) false false false
           true false None None None true.

(** Xml format with a counter. *)
Definition xml_main_config : config :=
  mkConfig [] false false false [] None true false false false false None
           None None true.

(** ** Definitions for the read failures *)

(** Two states that differ at most in the diagnostics and in the log. *)
Definition sim (a b : state) : Prop :=
  out a = out b /\ count a = count b /\ globalIndex a = globalIndex b /\
  gitignoreRules a = gitignoreRules b.

(** Two states that a walk continues from with the same documents: the
    same output, counter and document index, and the same rule array
    unless the file limit is reached, when no file is looked at any
    more. *)
Definition agree (cfg : config) (a b : state) : Prop :=
  out a = out b /\ count a = count b /\ globalIndex a = globalIndex b /\
  (gitignoreRules a = gitignoreRules b \/ limit_reached cfg a = true).

(** [drops_failed name bad n n']: the tree [n'] is the tree [n] without
    the file [bad], listed under [name] in one of its directories. *)
Inductive drops_failed (name : string) (bad : file) : node -> node -> Prop :=
  | drop_here pre post :
      drops_failed name bad
        (Dir (pre ++ (name, File bad) :: post)) (Dir (pre ++ post))
  | drop_below pre sub d d' post :
      drops_failed name bad d d' ->
      drops_failed name bad
        (Dir (pre ++ (sub, d) :: post)) (Dir (pre ++ (sub, d') :: post)).


(** A tree with an unreadable file and a vanished one below readable
    ones, and the same tree without the two. *)
Definition failing_tree : node :=
  Dir [ ("z.txt", File (text_file "Z"));
        ("m.txt", File unreadable_file);
        ("sub", Dir [ ("gone.txt", File vanished_file);
                      ("k.txt", File (text_file "K")) ]);
        ("a.txt", File (text_file "A")) ].

Definition failing_tree_less_unreadable : node :=
  Dir [ ("z.txt", File (text_file "Z"));
        ("sub", Dir [ ("gone.txt", File vanished_file);
                      ("k.txt", File (text_file "K")) ]);
        ("a.txt", File (text_file "A")) ].

Definition failing_tree_less_both : node :=
  Dir [ ("z.txt", File (text_file "Z"));
        ("sub", Dir [ ("k.txt", File (text_file "K")) ]);
        ("a.txt", File (text_file "A")) ].

(** The diagnostics that two runs add are the same. *)
Definition same_growth (a a' b b' : state) : Prop :=
  exists delta, err a' = err a ++ delta /\ err b' = err b ++ delta.





(** * Properties *)

(** ** Facts about strings *)

Module StrFacts.

Lemma app_assoc (a b c : string) : a +:+ b +:+ c = (a +:+ b) +:+ c.
Proof. induction a as [|x a IH]; [reflexivity|]. change (String x (a +:+ b +:+ c) = String x ((a +:+ b) +:+ c)). by rewrite IH. Qed.

End StrFacts.

(** ** The pattern matcher *)

Section Fnmatch.

Lemma translated_cons c p :
  translated (String c p) = translate_char c +:+ translated p.
Proof.
  unfold translated, translate_char.
  destruct c as [[] [] [] [] [] [] [] []]; reflexivity.
Qed.

Lemma translate_char_no_star c rest :
  head_is_star (translate_char c +:+ rest) = false.
Proof.
  unfold translate_char.
  destruct c as [[] [] [] [] [] [] [] []]; reflexivity.
Qed.

Lemma translated_no_star p : head_is_star (translated p +:+ "$") = false.
Proof.
  destruct p as [|c p]; [reflexivity|].
  rewrite translated_cons, <- StrFacts.app_assoc.
  apply translate_char_no_star.
Qed.

Lemma parse_body_dot d rest :
  parse_body (String "." (String d rest)) =
  if Ascii.eqb d "*"%char then cons ADotStar <$> parse_body rest
  else cons ADot <$> parse_body (String d rest).
Proof. reflexivity. Qed.

Lemma parse_translate_char c rest :
  head_is_star rest = false -> rest <> EmptyString ->
  parse_body (translate_char c +:+ rest) =
  cons (if Ascii.eqb c "*"%char then ADotStar
        else if Ascii.eqb c "?"%char then ADot
        else ALit c) <$> parse_body rest.
Proof.
  intros Hstar Hne. unfold translate_char.
  destruct rest as [|d rest]; [congruence|]. simpl in Hstar.
  destruct c as [[] [] [] [] [] [] [] []]; try reflexivity.
  change (parse_body (String "." (String d rest)) =
          cons ADot <$> parse_body (String d rest)).
  rewrite parse_body_dot, Hstar. reflexivity.
Qed.

Lemma parse_translated p :
  parse_body (translated p +:+ "$") = Some (glob_atoms p).
Proof.
  induction p as [|c p IH]; [reflexivity|].
  rewrite translated_cons, <- StrFacts.app_assoc, parse_translate_char.
  - rewrite IH. reflexivity.
  - apply translated_no_star.
  - destruct (translated p); discriminate.
Qed.

(** The pattern text [fnmatch] builds always lies in the modelled
    fragment, and denotes the atoms read off the glob. *)
Lemma regexStr_in_fragment pattern :
  parse_regex (regexStr pattern) = Some (glob_atoms pattern).
Proof. unfold regexStr. cbn. apply parse_translated. Qed.

Lemma fnmatch_atoms name pattern :
  fnmatch name pattern = match_atoms (glob_atoms pattern) name.
Proof.
  unfold fnmatch, regex_test. rewrite regexStr_in_fragment. reflexivity.
Qed.

Lemma match_star_unfold rest s :
  match_atoms (ADotStar :: rest) s =
  match_atoms rest s ||
  match s with
  | String d s' => negb (is_line_terminator d) && match_atoms (ADotStar :: rest) s'
  | EmptyString => false
  end.
Proof. destruct s; reflexivity. Qed.

Lemma match_atoms_sound pattern : forall name,
  match_atoms (glob_atoms pattern) name = true -> glob_matches name pattern.
Proof.
  induction pattern as [|c p IH]; intros name H.
  - destruct name; [constructor | discriminate].
  - cbn [glob_atoms] in H.
    destruct (Ascii.eqb_spec c "*"%char) as [->|Hstar].
    + induction name as [|d name IHname].
      * rewrite match_star_unfold, orb_false_r in H.
        apply glob_star_none, IH, H.
      * rewrite match_star_unfold in H.
        apply orb_true_iff in H as [H|H].
        -- apply glob_star_none, IH, H.
        -- apply andb_true_iff in H as [_ H].
           apply glob_star_more, IHname, H.
    + destruct (Ascii.eqb_spec c "?"%char) as [->|Hq].
      * destruct name as [|d name]; [discriminate|].
        cbn in H. apply andb_true_iff in H as [_ H].
        apply glob_qmark, IH, H.
      * destruct name as [|d name]; [discriminate|].
        cbn in H. apply andb_true_iff in H as [Hc H].
        apply Ascii.eqb_eq in Hc as <-.
        apply glob_literal; auto.
Qed.

Lemma match_atoms_complete name pattern :
  glob_matches name pattern -> single_line name = true ->
  match_atoms (glob_atoms pattern) name = true.
Proof.
  induction 1 as [|name p _ IH|c name p _ IH|c name p _ IH|c name p Hs Hq _ IH];
    intros Hline.
  - reflexivity.
  - cbn [glob_atoms]. cbn [Ascii.eqb Bool.eqb]. rewrite match_star_unfold, IH; auto.
  - cbn [single_line] in Hline. apply andb_true_iff in Hline as [Hc Hline].
    specialize (IH Hline). cbn [glob_atoms] in *. cbn [Ascii.eqb Bool.eqb] in *.
    rewrite match_star_unfold, Hc, IH. apply orb_true_r.
  - cbn [single_line] in Hline. apply andb_true_iff in Hline as [Hc Hline].
    cbn. rewrite Hc, IH; auto.
  - cbn [single_line] in Hline. apply andb_true_iff in Hline as [Hc Hline].
    cbn [glob_atoms].
    destruct (Ascii.eqb_spec c "*"%char); [contradiction|].
    destruct (Ascii.eqb_spec c "?"%char); [contradiction|].
    cbn. rewrite Ascii.eqb_refl, IH; auto.
Qed.

(** On names without a line terminator [fnmatch] decides exactly the glob
    relation of the specification. *)
Theorem fnmatch_glob_single_line name pattern :
  single_line name = true ->
  (fnmatch name pattern = true <-> glob_matches name pattern).
Proof.
  intros Hline. rewrite fnmatch_atoms. split.
  - apply match_atoms_sound.
  - intros H. apply match_atoms_complete; assumption.
Qed.

(** Whatever the name, a match reported by [fnmatch] is a glob match. *)
Lemma fnmatch_sound name pattern :
  fnmatch name pattern = true -> glob_matches name pattern.
Proof. rewrite fnmatch_atoms. apply match_atoms_sound. Qed.

(** The four matches the specification lists. *)
Example fnmatch_examples :
  fnmatch "file.txt" "*.txt" = true /\ fnmatch "file.txt" "*.md" = false /\
  fnmatch "a.js" "?.js" = true /\ fnmatch "ab.js" "?.js" = false /\
  fnmatch "README.md" "README.md" = true /\
  fnmatch "readme.md" "README.md" = false.
Proof. repeat split; reflexivity. Qed.

(** C5. The claim asks [matches(name, pattern)] to hold iff the whole name
    matches the glob, [*] standing for zero or more characters whatever
    they are.  At the name "a<LF>b" and the pattern [*] the glob relation
    holds, yet [fnmatch] answers false: the [.] of the regular expression
    it builds does not match a line terminator. *)
Theorem C5_fnmatch_misses_line_terminator :
  glob_matches two_line_name "*" /\ fnmatch two_line_name "*" = false.
Proof.
  split; [|reflexivity].
  unfold two_line_name, Str.nl, Str.single. cbn.
  do 3 apply glob_star_more. apply glob_star_none. constructor.
Qed.

End Fnmatch.

(** ** Line numbering *)

Section LineNumbers.

Lemma mem_app c a b : Str.mem c (a +:+ b) = Str.mem c a || Str.mem c b.
Proof.
  induction a as [|x a IH]; [reflexivity|].
  change (Str.mem c (String x (a +:+ b)) = Str.mem c (String x a) || Str.mem c b).
  cbn [Str.mem]. rewrite IH. apply orb_assoc.
Qed.

Lemma split_nonempty sep s : Str.split sep s <> [].
Proof.
  destruct s as [|c s]; cbn; [discriminate|].
  destruct (Ascii.eqb c sep); [discriminate|].
  destruct (Str.split sep s); discriminate.
Qed.

Lemma split_no_sep sep s : Str.mem sep s = false -> Str.split sep s = [s].
Proof.
  induction s as [|c s IH]; [reflexivity|]. cbn [Str.mem Str.split].
  rewrite Ascii.eqb_sym. intros [H1 H2]%orb_false_iff.
  rewrite H1, IH; auto.
Qed.

Lemma split_app sep a b :
  Str.split sep (a +:+ String sep b) = Str.split sep a ++ Str.split sep b.
Proof.
  induction a as [|c a IH].
  - change (Str.split sep (String sep b) = [EmptyString] ++ Str.split sep b).
    cbn [Str.split]. rewrite Ascii.eqb_refl. reflexivity.
  - change (Str.split sep (String c (a +:+ String sep b)) =
            Str.split sep (String c a) ++ Str.split sep b).
    cbn [Str.split]. rewrite IH.
    destruct (Ascii.eqb c sep); [reflexivity|].
    pose proof (split_nonempty sep a).
    destruct (Str.split sep a); [contradiction|reflexivity].
Qed.

Lemma split_lines_no_sep sep s :
  Forall (fun l => Str.mem sep l = false) (Str.split sep s).
Proof.
  induction s as [|c s IH]; cbn [Str.split].
  - repeat constructor.
  - destruct (Ascii.eqb c sep) eqn:E.
    + constructor; [reflexivity|assumption].
    + destruct (Str.split sep s) as [|l ls]; [repeat constructor; cbn; by rewrite Ascii.eqb_sym, E|].
      inversion IH; subst. constructor; [|assumption].
      cbn [Str.mem]. rewrite Ascii.eqb_sym, E. assumption.
Qed.

(** Splitting undoes joining when no line holds the separator. *)
Lemma split_join ls :
  ls <> [] -> Forall (fun l => Str.mem Str.LF l = false) ls ->
  Str.split Str.LF (Str.join Str.nl ls) = ls.
Proof.
  induction ls as [|l ls IH]; [congruence|]. intros _ Hall.
  inversion Hall as [|? ? Hl Hls]; subst.
  destruct ls as [|l2 ls].
  - cbn [Str.join]. by apply split_no_sep.
  - change (Str.join Str.nl (l :: l2 :: ls))
      with (l +:+ String Str.LF (Str.join Str.nl (l2 :: ls))).
    rewrite split_app, (split_no_sep _ l Hl), IH; [reflexivity|discriminate|assumption].
Qed.

(** Joining undoes splitting. *)
Lemma join_split s : Str.join Str.nl (Str.split Str.LF s) = s.
Proof.
  induction s as [|c s IH]; [reflexivity|]. cbn [Str.split].
  pose proof (split_nonempty Str.LF s) as Hne.
  destruct (Ascii.eqb_spec c Str.LF) as [->|Hc].
  - destruct (Str.split Str.LF s) as [|l ls] eqn:E; [contradiction|].
    change (Str.join Str.nl (EmptyString :: l :: ls))
      with (String Str.LF (Str.join Str.nl (l :: ls))).
    by rewrite IH.
  - destruct (Str.split Str.LF s) as [|l ls] eqn:E; [contradiction|].
    destruct ls as [|l2 ls]; cbn [Str.join] in *; by rewrite <- IH.
Qed.

Lemma string_of_uint_length d :
  String.length (NilEmpty.string_of_uint d) = Decimal.nb_digits d.
Proof. induction d; cbn; congruence. Qed.

Lemma string_of_uint_no_LF d : Str.mem Str.LF (NilEmpty.string_of_uint d) = false.
Proof. induction d; cbn; auto. Qed.

Lemma little_succ_digits d :
  Decimal.nb_digits d <= Decimal.nb_digits (Decimal.Little.succ d).
Proof. induction d; cbn; lia. Qed.

Lemma to_little_uint_succ n : forall acc,
  Nat.to_little_uint n (Decimal.Little.succ acc) =
  Decimal.Little.succ (Nat.to_little_uint n acc).
Proof. induction n as [|n IH]; intros acc; cbn; [reflexivity|apply IH]. Qed.

Lemma of_nat_length n :
  String.length (Str.of_nat n) =
  Decimal.nb_digits (Nat.to_little_uint n Decimal.zero).
Proof.
  unfold Str.of_nat, Nat.to_uint.
  by rewrite string_of_uint_length, DecimalFacts.nb_digits_rev.
Qed.

(** A smaller number has no more digits. *)
Lemma of_nat_length_mono m n :
  m <= n -> String.length (Str.of_nat m) <= String.length (Str.of_nat n).
Proof.
  induction 1 as [|n _ IH]; [lia|].
  etrans; [exact IH|]. rewrite !of_nat_length. cbn [Nat.to_little_uint].
  rewrite to_little_uint_succ. apply little_succ_digits.
Qed.

Lemma repeat_length c n : String.length (Str.repeat c n) = n.
Proof. induction n; cbn; congruence. Qed.

Lemma app_length a b : String.length (a +:+ b) = String.length a + String.length b.
Proof.
  induction a as [|x a IH]; [reflexivity|].
  change (S (String.length (a +:+ b)) = S (String.length a) + String.length b).
  by rewrite IH.
Qed.

Lemma padStart_length w s :
  String.length s <= w -> String.length (Str.padStart w s) = w.
Proof. intros H. unfold Str.padStart. rewrite app_length, repeat_length. lia. Qed.

Lemma repeat_space_no_LF n : Str.mem Str.LF (Str.repeat " " n) = false.
Proof. induction n; cbn; auto. Qed.

Lemma number_line_no_LF w i line :
  Str.mem Str.LF line = false -> Str.mem Str.LF (number_line w i line) = false.
Proof.
  intros H. unfold number_line, Str.padStart, Str.of_nat.
  rewrite !mem_app, repeat_space_no_LF, string_of_uint_no_LF, H. reflexivity.
Qed.

Lemma imap_no_LF w (lines : list string) :
  Forall (fun l => Str.mem Str.LF l = false) lines ->
  Forall (fun l => Str.mem Str.LF l = false) (imap (number_line w) lines).
Proof.
  intros H. apply Forall_lookup. intros i x Hi.
  rewrite list_lookup_imap in Hi.
  destruct (lines !! i) as [l|] eqn:E; [|discriminate].
  cbn in Hi. injection Hi as <-.
  apply number_line_no_LF. eapply (proj1 (Forall_lookup _ _) H); eauto.
Qed.

Lemma addLineNumbers_unfold content :
  addLineNumbers content =
  Str.join Str.nl
    (imap (number_line
             (String.length (Str.of_nat (length (Str.split Str.LF content)))))
          (Str.split Str.LF content)).
Proof.
  unfold addLineNumbers.
  pose proof (split_nonempty Str.LF content).
  destruct (Str.split Str.LF content); [contradiction|reflexivity].
Qed.

(** C6. [addLineNumbers] splits the content on newline, takes as width
    the number of decimal digits of the line count, and gives line [i+1]
    the prefix made of its number left padded with spaces to that width
    and of two spaces; the lines are joined back with newlines.  Every
    number fits the width, so every prefix has the same length.  The
    single line "hello" becomes "1  hello"; of ten lines the first reads
    " 1  a" and the tenth "10  j". *)
Theorem C6_addLineNumbers content :
  let lines := Str.split Str.LF content in
  let width := String.length (Str.of_nat (length lines)) in
  let numbered_lines :=
    imap (fun i line =>
            Str.padStart width (Str.of_nat (i + 1)) +:+ "  " +:+ line) lines in
  addLineNumbers content = Str.join Str.nl numbered_lines /\
  Str.split Str.LF (addLineNumbers content) = numbered_lines /\
  (forall i line, lines !! i = Some line ->
     String.length (Str.padStart width (Str.of_nat (i + 1))) = width) /\
  addLineNumbers "hello" = "1  hello" /\
  Str.split Str.LF (addLineNumbers ten_lines) !! 0 = Some " 1  a" /\
  Str.split Str.LF (addLineNumbers ten_lines) !! 9 = Some "10  j".
Proof.
  intros lines width numbered_lines.
  assert (Hunf : addLineNumbers content = Str.join Str.nl numbered_lines)
    by apply addLineNumbers_unfold.
  split; [exact Hunf|]. split; [|split; [|repeat split; reflexivity]].
  - rewrite Hunf. apply split_join.
    + pose proof (split_nonempty Str.LF content) as Hne.
      subst numbered_lines lines. destruct (Str.split Str.LF content); [contradiction|discriminate].
    + apply (imap_no_LF width), split_lines_no_sep.
  - intros i line Hi. apply padStart_length, of_nat_length_mono.
    apply lookup_lt_Some in Hi. lia.
Qed.

End LineNumbers.

(** ** The state under the writer *)

Ltac solve_counts :=
  unfold emitted; cbn;
  repeat match goal with
         | |- context [if ?b then _ else _] => destruct b
         end;
  cbn; lia.

Ltac simpl_state :=
  unfold writer, console_error, record, set_globalIndex, set_count,
    push_rules, resetDocumentIndex in *;
  cbn [globalIndex count gitignoreRules out err log] in *.

Section Writer.

Lemma writeMultiLine_fold (ls : list string) st :
  fold_left (fun s line => writer line s) ls st =
  mkState (globalIndex st) (count st) (gitignoreRules st) (out st ++ ls)
          (err st) (log st).
Proof.
  revert st. induction ls as [|l ls IH]; intros st; cbn [fold_left].
  - rewrite app_nil_r. by destruct st.
  - rewrite IH. cbn. by rewrite <- app_assoc.
Qed.

Lemma writeMultiLine_eq content st :
  writeMultiLine content st =
  mkState (globalIndex st) (count st) (gitignoreRules st)
          (out st ++ Str.split Str.LF content) (err st) (log st).
Proof. apply writeMultiLine_fold. Qed.

End Writer.

(** ** Markdown fences and language tags *)

Section Markdown.

Lemma startsWith_length p : forall s,
  Str.startsWith p s = true -> String.length p <= String.length s.
Proof.
  induction p as [|a p IH]; intros [|b s] H; cbn in *; try lia; try discriminate.
  apply andb_true_iff in H as [_ H]. apply IH in H. lia.
Qed.

Lemma includes_length p : forall s,
  Str.includes p s = true -> String.length p <= String.length s.
Proof.
  induction s as [|b s IH]; intros H.
  - cbn in H. rewrite orb_false_r in H. by apply startsWith_length in H.
  - cbn [Str.includes] in H. apply orb_true_iff in H as [H|H].
    + by apply startsWith_length.
    + apply IH in H. cbn. lia.
Qed.

Lemma grow_fence_exit content : forall fuel k,
  String.length content < k + fuel ->
  Str.includes (Str.repeat Str.backtick (grow_fence fuel content k)) content = false.
Proof.
  induction fuel as [|fuel IH]; intros k Hk; cbn [grow_fence].
  - destruct (Str.includes _ content) eqn:E; [|reflexivity].
    apply includes_length in E. rewrite repeat_length in E. lia.
  - destruct (Str.includes (Str.repeat Str.backtick k) content) eqn:E; [|exact E].
    apply IH. lia.
Qed.

Lemma grow_fence_below content : forall fuel k j,
  k <= j < grow_fence fuel content k ->
  Str.includes (Str.repeat Str.backtick j) content = true.
Proof.
  induction fuel as [|fuel IH]; intros k j Hj; cbn [grow_fence] in Hj; [lia|].
  destruct (Str.includes (Str.repeat Str.backtick k) content) eqn:E; [|lia].
  destruct (decide (j = k)) as [->|Hne]; [exact E|].
  apply (IH (S k)). lia.
Qed.

Lemma grow_fence_ge content : forall fuel k, k <= grow_fence fuel content k.
Proof.
  induction fuel as [|fuel IH]; intros k; cbn [grow_fence]; [lia|].
  destruct (Str.includes _ content); [|lia].
  specialize (IH (S k)). lia.
Qed.

(** The loop of [printAsMarkdown] leaves through its exit test: the
    fence returned does not occur in the content. *)
Lemma fence_length_exit content : Str.includes (fence content) content = false.
Proof. apply grow_fence_exit. lia. Qed.

(** The fence is a run of at least three backticks, and every shorter run
    of three or more occurs in the content. *)
Lemma fence_shortest content :
  3 <= fence_length content /\
  forall j, 3 <= j < fence_length content ->
    Str.includes (Str.repeat Str.backtick j) content = true.
Proof.
  split; [apply grow_fence_ge|]. intros j Hj. by eapply grow_fence_below.
Qed.

Lemma printAsMarkdown_out filePath content lineNumbers st :
  out (printAsMarkdown filePath content lineNumbers st) =
  out st ++ [filePath; fence content +:+ language_tag filePath] ++
  Str.split Str.LF (numbered lineNumbers content) ++ [fence content].
Proof.
  unfold printAsMarkdown. rewrite writeMultiLine_eq. simpl_state.
  by rewrite <- !app_assoc.
Qed.

Example fence_examples :
  fence "plain text" = "```" /\
  fence "a ``` b" = "````" /\
  fence "a ```` b ``` c" = "`````".
Proof. repeat split; reflexivity. Qed.

Lemma lower_char_not_upper c : Str.is_upper (Str.lower_char c) = false.
Proof. destruct c as [[] [] [] [] [] [] [] []]; reflexivity. Qed.

Lemma toLowerCase_no_upper s : no_upper (Str.toLowerCase s) = true.
Proof.
  induction s as [|c s IH]; [reflexivity|]. cbn [Str.toLowerCase no_upper].
  by rewrite lower_char_not_upper, IH.
Qed.

(** The properties a lower-case key can find on the prototype. *)
Lemma Object_prototype_lower key :
  no_upper key = true -> key <> "constructor" -> key <> "__proto__" ->
  Object_prototype key = VUndefined.
Proof.
  intros Hlow Hc Hp. unfold Object_prototype.
  rewrite bool_decide_eq_false_2 by assumption.
  case_bool_decide as Hin; [|reflexivity].
  exfalso. repeat (apply elem_of_cons in Hin as [->|Hin]; [first [congruence | discriminate Hlow]|]).
  by apply elem_of_nil in Hin.
Qed.

(** An extension the table does not list gets the empty tag, the two
    lower-case names of [Object.prototype] apart. *)
Lemma language_tag_unknown filePath :
  EXT_TO_LANG !! lookup_extension filePath = None ->
  lookup_extension filePath <> "constructor" ->
  lookup_extension filePath <> "__proto__" ->
  language_tag filePath = EmptyString.
Proof.
  intros Hnone Hc Hp. unfold language_tag, get_property.
  fold (lookup_extension filePath). rewrite Hnone.
  rewrite Object_prototype_lower; auto.
  apply toLowerCase_no_upper.
Qed.

(** A listed extension gets the language of the table. *)
Lemma language_tag_known filePath lang :
  EXT_TO_LANG !! lookup_extension filePath = Some lang ->
  lang <> EmptyString ->
  language_tag filePath = lang.
Proof.
  intros Hsome Hne. unfold language_tag, get_property.
  fold (lookup_extension filePath). rewrite Hsome.
  unfold js_or. cbn. destruct lang; [congruence|reflexivity].
Qed.

(** C7. The claim asks for an empty language annotation whenever the
    extension is not in the extension-to-language table.  The table has
    no entry for "constructor", yet for the file "notes.constructor"
    the opening fence is followed by the text of the function that
    [EXT_TO_LANG["constructor"]] finds on [Object.prototype]. *)
Theorem C7_language_tag_prototype_leak :
  EXT_TO_LANG !! lookup_extension "notes.constructor" = None /\
  out (printAsMarkdown "notes.constructor" "x" false (initial_state [])) =
    [ "notes.constructor";
      "```function Object() { [native code] }";
      "x";
      "```" ].
Proof. split; reflexivity. Qed.

End Markdown.

(** ** The binary detector *)

Section Binary.

Lemma isBinaryBuffer_loop_spec len : forall bytes susp,
  (10 * susp <= 3 * len)%N ->
  isBinaryBuffer_loop len susp bytes = true <->
  Byte.x00 ∈ bytes \/
  (3 * len < 10 * (susp + N.of_nat (non_text_count bytes)))%N.
Proof.
  induction bytes as [|b bytes IH]; intros susp Hsusp; cbn [isBinaryBuffer_loop].
  - unfold non_text_count. cbn. split; [discriminate|].
    intros [H|H]; [by apply elem_of_nil in H|lia].
  - unfold non_text_count in *. cbn [List.filter].
    destruct (N.eqb_spec (Byte.to_N b) 0) as [Hz|Hnz].
    + split; [intros _|reflexivity]. left.
      assert (b = Byte.x00) as ->; [|left].
      apply (f_equal Byte.of_N) in Hz. rewrite Byte.of_to_N in Hz. by injection Hz.
    + assert (Hb : b <> Byte.x00) by (intros ->; by apply Hnz).
      destruct (suspicious_byte (Byte.to_N b)); cbn [length].
      * destruct (N.ltb_spec (3 * len) (10 * (susp + 1))) as [Hlt|Hge].
        -- split; [intros _; right; lia|reflexivity].
        -- rewrite IH by lia. rewrite elem_of_cons.
           split.
           ++ intros [H|H]; [left; by right|right; lia].
           ++ intros [[H|H]|H]; [by symmetry in H|by left|right; lia].
      * rewrite IH by lia. rewrite elem_of_cons.
        split.
        ++ intros [H|H]; [left; by right|by right].
        ++ intros [[H|H]|H]; [by symmetry in H|by left|by right].
Qed.

(** [isBinaryBuffer] answers true exactly when the sample of at most 512
    bytes holds a NUL byte or more than three tenths of it lie outside
    the text range. *)
Lemma isBinaryBuffer_spec buf :
  let sample := take 512 buf in
  isBinaryBuffer buf = true <->
  Byte.x00 ∈ sample \/ 3 * length sample < 10 * non_text_count sample.
Proof.
  intros sample. unfold isBinaryBuffer. fold sample.
  rewrite isBinaryBuffer_loop_spec by lia. split; (intros [H|H]; [by left|right]); lia.
Qed.

(** The text range: the control characters 7 to 13 and the codes 32 to
    127. *)
Lemma suspicious_byte_range c :
  suspicious_byte c = false <-> (7 <= c <= 13 \/ 32 <= c <= 127)%N.
Proof.
  unfold suspicious_byte.
  destruct (N.ltb_spec c 7), (N.ltb_spec 13 c), (N.ltb_spec c 32),
    (N.ltb_spec 127 c); cbn; split; intros; try discriminate; try reflexivity; lia.
Qed.

(** C8. [isBinaryFile] answers true for a path whose extension is in the
    fixed set without opening the file.  For any other path it opens the
    file; when that fails the file is not classified as binary, otherwise
    the answer is true iff the first 512 bytes hold a NUL byte or more
    than 30% of them fall outside the text range.  Tab, newline, carriage
    return and printable ASCII are in the range; bytes from 128 on and
    the control bytes below 7 or from 14 to 31 are not. *)
Theorem C8_isBinaryFile fullPath f st :
  let known := negb (Str.is_empty (lookup_extension fullPath)) &&
               bool_decide (lookup_extension fullPath ∈ BINARY_EXTENSIONS) in
  (known = true -> isBinaryFile fullPath f st = (true, st)) /\
  (known = false -> f_bytes f = None ->
     isBinaryFile fullPath f st = (false, record (EvSniff fullPath) st)) /\
  (known = false -> forall buf, f_bytes f = Some buf ->
     let sample := take 512 buf in
     (isBinaryFile fullPath f st).2 = record (EvSniff fullPath) st /\
     ((isBinaryFile fullPath f st).1 = true <->
      Byte.x00 ∈ sample \/ 3 * length sample < 10 * non_text_count sample)) /\
  (forall c, suspicious_byte c = false <-> (7 <= c <= 13 \/ 32 <= c <= 127)%N).
Proof.
  cbv zeta. unfold isBinaryFile. fold (lookup_extension fullPath).
  split; [|split; [|split]].
  - intros Hk. rewrite Hk. reflexivity.
  - intros Hk Hb. rewrite Hk, Hb. reflexivity.
  - intros Hk buf Hb. rewrite Hk, Hb. cbn [fst snd]. split; [reflexivity|].
    pose proof (isBinaryBuffer_spec (take 512 buf)) as Hspec. cbv zeta in Hspec.
    rewrite take_take, Nat.min_id in Hspec. exact Hspec.
  - apply suspicious_byte_range.
Qed.

(** C8 at three files: [logo.png] (a binary extension, text content), a
    file without extension that cannot be opened, and one that holds a
    NUL byte. *)
Lemma C8_isBinaryFile_witness :
  isBinaryFile "logo.png" (text_file "hello") (initial_state []) =
    (true, initial_state []) /\
  isBinaryFile "notes" (mkFile None None ReadENOENT) (initial_state []) =
    (false, record (EvSniff "notes") (initial_state [])) /\
  (isBinaryFile "blob" (mkFile (Some [Byte.x61; Byte.x00]) (Some 2) (ReadOk "a"))
     (initial_state [])).1 = true.
Proof.
  split; [|split].
  - apply (C8_isBinaryFile "logo.png" (text_file "hello") (initial_state [])).
    reflexivity.
  - apply (C8_isBinaryFile "notes" (mkFile None None ReadENOENT) (initial_state []));
      reflexivity.
  - destruct (C8_isBinaryFile "blob"
                (mkFile (Some [Byte.x61; Byte.x00]) (Some 2) (ReadOk "a"))
                (initial_state [])) as (_ & _ & Hsniff & _).
    destruct (Hsniff eq_refl _ eq_refl) as [_ Hiff]. apply Hiff.
    left. cbn. apply elem_of_cons. right. apply elem_of_cons. by left.
Defined.

End Binary.

(** ** Document indices *)

Section Indices.

Lemma printAsXml_eq filePath content lineNumbers st :
  printAsXml filePath content lineNumbers st =
  mkState (globalIndex st + 1) (count st) (gitignoreRules st)
    (out st ++ rendered (globalIndex st)
                 (mkDocument AsXml filePath content lineNumbers))
    (err st) (log st).
Proof.
  unfold printAsXml. rewrite writeMultiLine_eq. unfold rendered.
  simpl_state. cbn [d_format d_path d_content d_lineNumbers].
  f_equal. rewrite <- !app_assoc. reflexivity.
Qed.

Lemma printAsJson_eq filePath content lineNumbers st :
  printAsJson filePath content lineNumbers st =
  mkState (globalIndex st + 1) (count st) (gitignoreRules st)
    (out st ++ rendered (globalIndex st)
                 (mkDocument AsJson filePath content lineNumbers))
    (err st) (log st).
Proof. reflexivity. Qed.

Lemma emit_document_eq d st :
  emit_document d st =
  mkState (globalIndex st + 1) (count st) (gitignoreRules st)
    (out st ++ rendered (globalIndex st) d) (err st) (log st).
Proof.
  destruct d as [[] p c ln]; unfold emit_document; cbn [d_format d_path d_content d_lineNumbers].
  - apply printAsXml_eq.
  - apply printAsJson_eq.
Qed.

(** From any state, the documents of a run get the consecutive indices
    that start at the current value of [globalIndex]. *)
Lemma emit_documents_from docs : forall st,
  emit_documents docs st =
  mkState (globalIndex st + length docs) (count st) (gitignoreRules st)
    (out st ++ concat (imap (fun i d => rendered (globalIndex st + i) d) docs))
    (err st) (log st).
Proof.
  unfold emit_documents.
  induction docs as [|d docs IH]; intros st; cbn [fold_left imap concat length].
  - rewrite app_nil_r, Nat.add_0_r. by destruct st.
  - rewrite IH, emit_document_eq. cbn [globalIndex count gitignoreRules out err log].
    f_equal; [lia|]. rewrite <- app_assoc, Nat.add_0_r. do 3 f_equal.
    apply imap_ext. intros i x _. unfold compose. f_equal. lia.
Qed.

Lemma string_app_inv_tail c : forall a b, a +:+ c = b +:+ c -> a = b.
Proof.
  induction a as [|x a IH]; intros [|y b] H.
  - reflexivity.
  - apply (f_equal String.length) in H. rewrite !app_length in H. cbn in H. lia.
  - apply (f_equal String.length) in H. rewrite !app_length in H. cbn in H. lia.
  - change (String x (a +:+ c) = String y (b +:+ c)) in H.
    injection H as -> H. f_equal. by apply IH.
Qed.

Lemma of_nat_inj m n : Str.of_nat m = Str.of_nat n -> m = n.
Proof.
  unfold Str.of_nat. intros H.
  apply (f_equal NilEmpty.uint_of_string) in H. rewrite !NilEmpty.usu in H.
  injection H as H. apply (f_equal Nat.of_uint) in H.
  by rewrite !DecimalNat.Unsigned.of_to in H.
Qed.

(** The index can be read back from the opening tag: two tags are equal
    only for equal indices. *)
Lemma xml_open_tag_inj i j : xml_open_tag i = xml_open_tag j -> i = j.
Proof.
  unfold xml_open_tag. intros H.
  apply (inj (String.app _)) in H. apply (inj (String.app _)) in H.
  rewrite !(StrFacts.app_assoc (Str.of_nat _)) in H.
  apply string_app_inv_tail, string_app_inv_tail in H.
  by apply of_nat_inj.
Qed.

Example document_indices_example :
  out (emit_documents sample_documents (resetDocumentIndex (initial_state []))) !! 0
    = Some (xml_open_tag 1) /\
  out (emit_documents sample_documents (resetDocumentIndex (initial_state []))) !! 6
    = Some (json_document 2 "b.txt" "1  B") /\
  out (emit_documents sample_documents (resetDocumentIndex (initial_state []))) !! 7
    = Some (xml_open_tag 3).
Proof. repeat split; reflexivity. Qed.

End Indices.

(** ** The walker: how a run extends the log *)

Section Trace.

Variable P : list string -> nat -> event -> Prop.
Variable cfg : config.

Lemma pushed_app l1 l2 : pushed (l1 ++ l2) = pushed l1 ++ pushed l2.
Proof. unfold pushed. by rewrite map_app, concat_app. Qed.

Lemma emitted_app l1 l2 : emitted (l1 ++ l2) = emitted l1 + emitted l2.
Proof. unfold emitted. by rewrite List.filter_app, length_app. Qed.

Lemma trace_ok_app k l1 : forall rules c l2,
  trace_ok P k rules c (l1 ++ l2) <->
  trace_ok P k rules c l1 /\
  trace_ok P k (rules ++ pushed l1) (c + (if k then emitted l1 else 0)) l2.
Proof.
  induction l1 as [|e l1 IH]; intros rules c l2.
  - cbn. rewrite app_nil_r.
    replace (c + (if k then 0 else 0)) with c by (destruct k; lia). tauto.
  - cbn [app trace_ok]. rewrite IH.
    change (pushed (e :: l1)) with (pushed_by e ++ pushed l1).
    rewrite (app_assoc rules).
    replace ((if k && is_emit e then c + 1 else c) + (if k then emitted l1 else 0))
      with (c + (if k then emitted (e :: l1) else 0)); [tauto|].
    unfold emitted. cbn [List.filter]. destruct k, (is_emit e); cbn; lia.
Qed.

Lemma extends_refl st : extends P cfg st st.
Proof.
  exists []. cbn. rewrite !app_nil_r.
  repeat split; solve_counts.
Qed.

Lemma extends_trans st1 st2 st3 :
  extends P cfg st1 st2 -> extends P cfg st2 st3 -> extends P cfg st1 st3.
Proof.
  intros (n1 & Hl1 & Hr1 & Hc1 & Hi1 & Ht1) (n2 & Hl2 & Hr2 & Hc2 & Hi2 & Ht2).
  exists (n1 ++ n2). rewrite Hl2, Hl1, Hr2, Hr1, Hc2, Hc1, Hi2, Hi1.
  rewrite pushed_app, emitted_app, !app_assoc.
  repeat split.
  - destruct (has_counter cfg); lia.
  - destruct (json cfg || cxml cfg); lia.
  - apply trace_ok_app. split; [exact Ht1|]. by rewrite <- Hr1, <- Hc1.
Qed.

End Trace.

Section WalkerFacts.

Variable cfg : config.

Lemma printDefault_eq filePath content lineNumbers st :
  printDefault filePath content lineNumbers st =
  mkState (globalIndex st) (count st) (gitignoreRules st)
    (out st ++ [filePath; "---"] ++
     Str.split Str.LF (numbered lineNumbers content) ++ [EmptyString; "---"])
    (err st) (log st).
Proof.
  unfold printDefault. rewrite writeMultiLine_eq. simpl_state.
  f_equal. by rewrite <- !app_assoc.
Qed.

Lemma printAsMarkdown_eq filePath content lineNumbers st :
  printAsMarkdown filePath content lineNumbers st =
  mkState (globalIndex st) (count st) (gitignoreRules st)
    (out st ++ [filePath; fence content +:+ language_tag filePath] ++
     Str.split Str.LF (numbered lineNumbers content) ++ [fence content])
    (err st) (log st).
Proof.
  unfold printAsMarkdown. rewrite writeMultiLine_eq. simpl_state.
  f_equal. by rewrite <- !app_assoc.
Qed.

(** Printing touches the writer's lines and the document index only. *)
Lemma printing_frame displayPath content st :
  let st' :=
    if json cfg then printAsJson displayPath content (lineNumbers cfg) st
    else printPath displayPath content (cxml cfg) (markdown cfg)
                   (lineNumbers cfg) st in
  log st' = log st /\ gitignoreRules st' = gitignoreRules st /\
  count st' = count st /\ err st' = err st /\
  globalIndex st' = globalIndex st + (if json cfg || cxml cfg then 1 else 0).
Proof.
  cbv zeta. unfold printPath.
  destruct (json cfg); [rewrite printAsJson_eq; by cbn|].
  destruct (cxml cfg); [rewrite printAsXml_eq; by cbn|].
  destruct (markdown cfg);
    [rewrite printAsMarkdown_eq | rewrite printDefault_eq]; cbn;
    repeat split; lia.
Qed.

Lemma emit_frame filePath content st :
  log (emit cfg filePath content st) = log st ++ [EvEmit filePath] /\
  gitignoreRules (emit cfg filePath content st) = gitignoreRules st /\
  count (emit cfg filePath content st) =
    count st + (if has_counter cfg then 1 else 0) /\
  err (emit cfg filePath content st) = err st /\
  globalIndex (emit cfg filePath content st) =
    globalIndex st + (if json cfg || cxml cfg then 1 else 0).
Proof.
  unfold emit.
  match goal with
  | |- context [if json cfg then printAsJson ?d ?c ?l ?s else _] =>
      destruct (printing_frame d c s) as (Hl & Hr & Hc & He & Hi)
  end.
  destruct (has_counter cfg); simpl_state; rewrite ?Hl, ?Hr, ?Hc, ?He, ?Hi;
    repeat split; auto; lia.
Qed.

Lemma warn_frame msg st :
  log (warn cfg msg st) = log st /\
  gitignoreRules (warn cfg msg st) = gitignoreRules st /\
  count (warn cfg msg st) = count st /\
  out (warn cfg msg st) = out st /\
  globalIndex (warn cfg msg st) = globalIndex st.
Proof. unfold warn. destruct (quiet cfg); by cbn. Qed.

Lemma log_emit filePath content st :
  log (emit cfg filePath content st) = log st ++ [EvEmit filePath].
Proof. apply emit_frame. Qed.
Lemma rules_emit filePath content st :
  gitignoreRules (emit cfg filePath content st) = gitignoreRules st.
Proof. apply emit_frame. Qed.
Lemma count_emit filePath content st :
  count (emit cfg filePath content st) =
  count st + (if has_counter cfg then 1 else 0).
Proof. apply emit_frame. Qed.
Lemma index_emit filePath content st :
  globalIndex (emit cfg filePath content st) =
  globalIndex st + (if json cfg || cxml cfg then 1 else 0).
Proof. apply emit_frame. Qed.
Lemma index_warn msg st : globalIndex (warn cfg msg st) = globalIndex st.
Proof. apply warn_frame. Qed.
Lemma log_warn msg st : log (warn cfg msg st) = log st.
Proof. apply warn_frame. Qed.
Lemma rules_warn msg st : gitignoreRules (warn cfg msg st) = gitignoreRules st.
Proof. apply warn_frame. Qed.
Lemma count_warn msg st : count (warn cfg msg st) = count st.
Proof. apply warn_frame. Qed.

Ltac frame :=
  rewrite ?log_emit, ?rules_emit, ?count_emit, ?index_emit, ?log_warn,
    ?rules_warn, ?count_warn, ?index_warn;
  simpl_state;
  rewrite ?log_emit, ?rules_emit, ?count_emit, ?index_emit, ?log_warn,
    ?rules_warn, ?count_warn, ?index_warn.

(** What [process_file] adds to the log: accesses to that one file, an
    emission last if at all. *)
Lemma process_file_log filePath f st :
  exists new,
    log (process_file cfg filePath f st) = log st ++ new /\
    gitignoreRules (process_file cfg filePath f st) = gitignoreRules st /\
    count (process_file cfg filePath f st) =
      count st + (if has_counter cfg then emitted new else 0) /\
    globalIndex (process_file cfg filePath f st) =
      globalIndex st + (if json cfg || cxml cfg then emitted new else 0) /\
    Forall (fun e => file_event_path e = Some filePath) new /\
    emitted (removelast new) = 0.
Proof.
  unfold process_file, isBinaryFile.
  destruct (negb _ && bool_decide _).
  { exists []. rewrite app_nil_r.
    repeat split; [solve_counts..|constructor]. }
  destruct (f_bytes f) as [buf|]; [destruct (isBinaryBuffer _)|];
    (destruct (maxSize cfg) as [limit|];
     [destruct (f_size f) as [size|]; [destruct (limit <? size)%nat|]|]);
    destruct (f_read f) as [content| |];
    (eexists; split; [frame; rewrite <- ?app_assoc; reflexivity|];
     frame; split; [reflexivity|split; [|split; [|split]]]).
  all: try (repeat constructor; fail).
  all: solve_counts.
Qed.


(** Unfolding [walkDir] at a directory. *)
Lemma walkDir_Dir root entries st :
  walkDir cfg root (Dir entries) st =
  let st1 := record (EvReaddir root) st in
  let '(git, st2) := gitignore_stage cfg root entries st1 in
  let files :=
    sort_by_name
      (List.filter (fun e => keep_file cfg root git e.1) (file_entries entries)) in
  let '(st3, returned) := walk_files cfg root files st2 in
  if returned then st3 else walk_subdirs cfg root git entries st3.
Proof.
  cbn [walkDir]. cbv zeta.
  destruct (gitignore_stage cfg root entries _) as [git st2].
  destruct (walk_files cfg root _ st2) as [st3 returned].
  destruct returned; [reflexivity|].
  unfold walk_subdirs. generalize st3.
  induction entries as [|[name d] es IH]; intros s; [reflexivity|].
  cbn [fold_left fst snd]. apply IH.
Qed.

Lemma insert_sorted_Forall {A} (Q : string * A -> Prop) x l :
  Q x -> Forall Q l -> Forall Q (insert_sorted x l).
Proof.
  intros Hx Hl. induction Hl as [|y l Hy Hl IH]; cbn [insert_sorted].
  - by constructor.
  - destruct (String.leb _ _); repeat constructor; auto.
Qed.

Lemma sort_by_name_Forall {A} (Q : string * A -> Prop) l :
  Forall Q l -> Forall Q (sort_by_name l).
Proof.
  unfold sort_by_name. induction 1; cbn [foldr]; [constructor|].
  by apply insert_sorted_Forall.
Qed.

Lemma file_entries_Forall (V : string -> bool) entries :
  names_ok V (Dir entries) = true ->
  Forall (fun e => V e.1 = true) (file_entries entries).
Proof.
  cbn [names_ok]. induction entries as [|[name [f|es]] rest IH];
    cbn [forallb file_entries]; intros H.
  - constructor.
  - apply andb_true_iff in H as [[Hv _]%andb_true_iff H]. constructor; auto.
  - apply andb_true_iff in H as [_ H]. auto.
Qed.

Lemma trace_ok_flat P k rules c : forall new,
  Forall (P rules c) new -> Forall (fun e => pushed_by e = []) new ->
  emitted (removelast new) = 0 -> trace_ok P k rules c new.
Proof.
  induction new as [|e rest IH]; intros HP Hpush Hemit; [exact I|].
  inversion HP as [|? ? He HP']; inversion Hpush as [|? ? Hpe Hpush']; subst.
  cbn [trace_ok]. split; [exact He|]. rewrite Hpe, app_nil_r.
  destruct rest as [|e2 rest]; [exact I|].
  change (removelast (e :: e2 :: rest)) with (e :: removelast (e2 :: rest)) in Hemit.
  unfold emitted in Hemit. cbn [List.filter] in Hemit.
  destruct (is_emit e); [discriminate|]. rewrite andb_false_r. by apply IH.
Qed.

End WalkerFacts.

(** ** Paths *)

Section Paths.

Lemma basename_join root name :
  valid_name name = true -> Path.basename (Path.join root name) = name.
Proof.
  unfold valid_name. intros [Hne Hslash]%andb_true_iff.
  apply negb_true_iff in Hslash.
  unfold Path.basename, Path.join.
  change (root +:+ "/" +:+ name) with (root +:+ String "/" name).
  rewrite split_app, (split_no_sep _ name Hslash), List.filter_app.
  cbn [List.filter]. rewrite Hne. apply List.last_last.
Qed.

Lemma names_ok_any n : names_ok (fun _ => true) n = true.
Proof.
  induction n as [f|entries IH] using node_ind'; [reflexivity|].
  cbn [names_ok]. induction IH as [|[name d] es Hd _ IHes]; [reflexivity|].
  cbn [forallb]. cbn [snd] in Hd. by rewrite Hd, IHes.
Qed.

End Paths.

(** The invariant of a walk, for any requirement [F] on the files it
    touches and [D] on the directories it enumerates that follow from the
    filters of [walkDir]. *)
Section WalkInvariant.

Variable cfg : config.
Variable V : string -> bool.
Variable F : list string -> nat -> string -> Prop.
Variable D : string -> Prop.

Hypothesis F_from_filters : forall root name rules c,
  V name = true ->
  passes_hidden cfg name = true ->
  passes_extensions cfg name = true ->
  limit_reached_at cfg c = false ->
  file_passes_patterns cfg name = true ->
  ig_ignored cfg (Path.join root name) = false ->
  rules_ignored cfg rules (Path.join root name) = false ->
  F rules c (Path.join root name).

Hypothesis D_from_filters : forall root name,
  V name = true ->
  passes_hidden cfg name = true ->
  ig_ignored cfg (Path.join root name) = false ->
  dir_passes_patterns cfg (Path.join root name) = true ->
  D (Path.join root name).

Let P := event_ok F D.

Lemma process_file_extends filePath f st :
  F (gitignoreRules st) (count st) filePath ->
  extends P cfg st (process_file cfg filePath f st).
Proof.
  intros HF.
  destruct (process_file_log cfg filePath f st)
    as (new & Hl & Hr & Hc & Hi & Hall & Hlast).
  exists new. repeat split; auto.
  - rewrite Hr. replace (pushed new) with (@nil string); [by rewrite app_nil_r|].
    clear -Hall. induction Hall as [|e l He _ IH]; [reflexivity|].
    change (pushed (e :: l)) with (pushed_by e ++ pushed l). rewrite <- IH.
    by destruct e.
  - apply trace_ok_flat; auto.
    + eapply Forall_impl; [exact Hall|]. intros e He.
      destruct e; cbn in He; try discriminate; injection He as ->; exact HF.
    + eapply Forall_impl; [exact Hall|]. intros e He. by destruct e.
Qed.

Lemma process_file_rules filePath f st :
  gitignoreRules (process_file cfg filePath f st) = gitignoreRules st.
Proof. by destruct (process_file_log cfg filePath f st) as (? & _ & ? & _). Qed.

Lemma walk_files_extends root rules files : forall st,
  gitignoreRules st = rules ->
  Forall (fun e => forall c, limit_reached_at cfg c = false ->
                             F rules c (Path.join root e.1)) files ->
  extends P cfg st (walk_files cfg root files st).1 /\
  gitignoreRules (walk_files cfg root files st).1 = rules.
Proof.
  induction files as [|[name f] files IH]; intros st Hrules Hall; cbn [walk_files].
  - split; [apply extends_refl|exact Hrules].
  - inversion Hall as [|? ? Hf Hall']; subst.
    destruct (limit_reached cfg st) eqn:Hlim; [split; [apply extends_refl|reflexivity]|].
    destruct (IH (process_file cfg (Path.join root name) f st)) as [Hext Hr]; auto.
    { apply process_file_rules. }
    split; [|exact Hr].
    eapply extends_trans; [|exact Hext].
    apply process_file_extends. by apply Hf.
Qed.

Lemma gitignore_stage_spec root entries st :
  extends P cfg st (gitignore_stage cfg root entries st).2 /\
  forall q isDir,
    (gitignore_stage cfg root entries st).1 q isDir = true ->
    ig_ignored cfg q = false /\
    (isDir = false ->
     rules_ignored cfg (gitignoreRules (gitignore_stage cfg root entries st).2) q = false).
Proof.
  unfold gitignore_stage, ig_ignored, rules_ignored.
  destruct (ig cfg) as [ignores|]; cbn [fst snd].
  { split; [apply extends_refl|]. intros q isDir H. by apply negb_true_iff in H. }
  set (st1 := if ignoreGitignore cfg then st
              else let '(rules, st0) := readGitignore root entries st in
                   push_rules rules st0).
  assert (Hext : extends P cfg st st1).
  { subst st1. destruct (ignoreGitignore cfg); [apply extends_refl|].
    unfold readGitignore. destruct (lookup_entry _ entries) as [n|].
    - eexists [_]. simpl_state. cbn. rewrite !app_nil_r.
      repeat split; try solve_counts.
      by apply basename_join.
    - exists []. simpl_state. cbn. rewrite !app_nil_r.
      repeat split; solve_counts. }
  destruct (0 <? length (gitignoreRules st1))%nat eqn:Hlen; cbn [fst snd].
  - split; [exact Hext|]. intros q isDir H. split; [reflexivity|].
    intros ->. by apply negb_true_iff in H.
  - split; [exact Hext|]. intros q isDir _. split; [reflexivity|]. intros _.
    apply Nat.ltb_ge in Hlen. destruct (gitignoreRules st1); [reflexivity|cbn in Hlen; lia].
Qed.

(** Every walk extends the log by events that satisfy [F] and [D]. *)
Lemma walkDir_extends : forall n root st,
  names_ok V n = true -> D root ->
  extends P cfg st (walkDir cfg root n st).
Proof.
  induction n as [f|entries IH] using node_ind'; intros root st Hwf Hroot.
  { apply extends_refl. }
  rewrite walkDir_Dir. cbv zeta.
  pose proof (gitignore_stage_spec root entries (record (EvReaddir root) st))
    as [Hstage Hgit].
  destruct (gitignore_stage cfg root entries _) as [git st2]. cbn [fst snd] in *.
  assert (H1 : extends P cfg st st2).
  { eapply extends_trans; [|exact Hstage].
    exists [EvReaddir root]. simpl_state. cbn. rewrite !app_nil_r.
    repeat split; auto; solve_counts. }
  set (files := sort_by_name _).
  destruct (walk_files_extends root (gitignoreRules st2) files st2 eq_refl)
    as [Hfiles Hrules].
  { subst files. apply sort_by_name_Forall.
    pose proof (file_entries_Forall V entries Hwf) as Hnames.
    induction Hnames as [|[name f] l Hv _ IHl]; cbn [List.filter]; [constructor|].
    destruct (keep_file cfg root git name) eqn:Hkeep; cbn [fst]; rewrite ?Hkeep; [|exact IHl].
    constructor; [|exact IHl]. intros c Hc. cbn [fst].
    unfold keep_file in Hkeep.
    apply andb_true_iff in Hkeep as [[[Hh Hg]%andb_true_iff Hp]%andb_true_iff He].
    destruct (Hgit _ _ Hg) as [Hig Hr]. apply F_from_filters; auto. }
  destruct (walk_files cfg root files st2) as [st3 returned]. cbn [fst] in *.
  assert (H3 : extends P cfg st st3) by (eapply extends_trans; eauto).
  destruct returned; [exact H3|].
  eapply extends_trans; [exact H3|]. clear H1 H3 Hfiles Hstage Hrules.
  unfold walk_subdirs. generalize st3. cbn [names_ok] in Hwf.
  induction IH as [|[name d] es IHd _ IHes]; intros s; cbn [fold_left]; [apply extends_refl|].
  cbn [forallb] in Hwf. apply andb_true_iff in Hwf as [[Hv Hd]%andb_true_iff Hes].
  eapply extends_trans; [|apply IHes; exact Hes]. cbn [fst snd] in *.
  destruct (is_dir d && keep_dir cfg root git name) eqn:Hkeep; [|apply extends_refl].
  apply IHd; [exact Hd|].
  apply andb_true_iff in Hkeep as [_ Hkeep]. unfold keep_dir in Hkeep.
  apply andb_true_iff in Hkeep as [[Hh Hg]%andb_true_iff Hp].
  destruct (Hgit _ _ Hg) as [Hig _]. by apply D_from_filters.
Qed.

End WalkInvariant.

(** ** What a run never touches *)

Section Exclusion.

Variable cfg : config.

Lemma trace_ok_at P k rules c pre e post :
  trace_ok P k rules c (pre ++ e :: post) ->
  P (rules ++ pushed pre) (c + (if k then emitted pre else 0)) e.
Proof. intros H. apply trace_ok_app in H as [_ H]. apply H. Qed.

Lemma trace_ok_impl (P Q : list string -> nat -> event -> Prop) k :
  (forall rules c e, P rules c e -> Q rules c e) ->
  forall evs rules c, trace_ok P k rules c evs -> trace_ok Q k rules c evs.
Proof.
  intros HPQ. induction evs as [|e evs IH]; intros rules c; [auto|].
  cbn [trace_ok]. intros [He Hrest]. auto.
Qed.

Lemma denied_patterns q :
  denied cfg q = existsb (fnmatch (Path.basename q)) (combinedIgnorePatterns cfg).
Proof.
  unfold denied, shouldIgnore.
  induction (combinedIgnorePatterns cfg) as [|rule rules IH]; [reflexivity|].
  cbn [existsb]. by rewrite IH, andb_false_l, orb_false_r.
Qed.

(** The filters of [walkDir] imply [file_allowed] and [dir_allowed]. *)
Lemma file_allowed_from_filters root name rules c :
  valid_name name = true ->
  limit_reached_at cfg c = false ->
  file_passes_patterns cfg name = true ->
  ig_ignored cfg (Path.join root name) = false ->
  rules_ignored cfg rules (Path.join root name) = false ->
  file_allowed cfg false rules (Path.join root name).
Proof.
  intros Hv _ Hp Hig Hr. unfold file_allowed. split; [|split; [exact Hig|]].
  - rewrite denied_patterns, basename_join by exact Hv.
    unfold file_passes_patterns in Hp.
    destruct (0 <? length (combinedIgnorePatterns cfg))%nat eqn:Hlen.
    + by apply negb_true_iff in Hp.
    + apply Nat.ltb_ge in Hlen.
      destruct (combinedIgnorePatterns cfg); [reflexivity|cbn in Hlen; lia].
  - intros [Hnone|?]; [|discriminate]. unfold rules_ignored in Hr.
    by rewrite Hnone in Hr.
Qed.

Lemma dir_allowed_from_filters top root name :
  valid_name name = true ->
  ig_ignored cfg (Path.join root name) = false ->
  dir_passes_patterns cfg (Path.join root name) = true ->
  dir_allowed cfg top (Path.join root name).
Proof.
  intros Hv Hig Hp. right. split; [exact Hig|]. intros Hfo.
  unfold dir_passes_patterns in Hp. rewrite Hfo in Hp.
  destruct (0 <? length (combinedIgnorePatterns cfg))%nat eqn:Hlen.
  - by apply negb_true_iff in Hp.
  - apply Nat.ltb_ge in Hlen.
    destruct (combinedIgnorePatterns cfg); [reflexivity|cbn in Hlen; lia].
Qed.

(** The events of a whole [processPath] call. *)
Lemma processPath_extends p target st :
  listing_ok target = true ->
  extends (event_ok (fun rules _ => file_allowed cfg (is_file_target target) rules)
                    (dir_allowed cfg p))
          cfg st (processPath cfg p target st).
Proof.
  intros Hok. destruct target as [[f|entries]|]; cbn [processPath is_file_target].
  - fold (ig_ignored cfg p). fold (denied cfg p).
    destruct (ig_ignored cfg p) eqn:Hig; [apply extends_refl|].
    destruct (shouldIgnore p false (gitignoreRules st)) eqn:Hr; [apply extends_refl|].
    destruct (denied cfg p) eqn:Hd; [apply extends_refl|]. cbn [orb].
    destruct (process_file_log cfg p f st)
      as (new & Hl & Hrules & Hc & Hi & Hall & Hlast).
    exists new. repeat split; auto.
    + rewrite Hrules. replace (pushed new) with (@nil string); [by rewrite app_nil_r|].
      clear -Hall. induction Hall as [|e l He _ IH]; [reflexivity|].
      change (pushed (e :: l)) with (pushed_by e ++ pushed l). rewrite <- IH.
      by destruct e.
    + apply trace_ok_flat; auto.
      * eapply Forall_impl; [exact Hall|]. intros e He.
        destruct e; cbn in He; try discriminate; injection He as ->;
          repeat split; auto.
      * eapply Forall_impl; [exact Hall|]. intros e He. by destruct e.
  - apply (walkDir_extends cfg valid_name).
    + intros root name rules c Hv _ _. by apply file_allowed_from_filters.
    + intros root name Hv _. by apply dir_allowed_from_filters.
    + exact Hok.
    + by left.
  - apply extends_refl.
Qed.

End Exclusion.

(** ** The claims about the walk *)

Section WalkClaims.

Lemma shouldIgnore_file q rules :
  shouldIgnore q false rules = existsb (fnmatch (Path.basename q)) rules.
Proof.
  unfold shouldIgnore. induction rules as [|r rules IH]; [reflexivity|].
  cbn [existsb]. by rewrite IH, orb_false_r.
Qed.

(** On a name without line terminator, what [fnmatch] lets pass matches
    no pattern of the list, and what matches one does not pass. *)
Lemma not_listed_from_fnmatch name patterns :
  single_line name = true ->
  existsb (fnmatch name) patterns = false -> ~ glob_listed name patterns.
Proof.
  intros Hline Hex (pattern & Hin & Hglob).
  apply (fnmatch_glob_single_line _ _ Hline) in Hglob.
  assert (H : existsb (fnmatch name) patterns = true); [|congruence].
  apply existsb_exists. exists pattern. split; [|exact Hglob].
  by apply list_elem_of_In.
Qed.

Lemma listed_to_fnmatch name patterns :
  single_line name = true ->
  glob_listed name patterns -> existsb (fnmatch name) patterns = true.
Proof.
  intros Hline H. destruct (existsb (fnmatch name) patterns) eqn:E; [reflexivity|].
  by destruct (not_listed_from_fnmatch name patterns Hline E).
Qed.

Lemma file_allowed_spec cfg direct rules q :
  file_allowed cfg direct rules q ->
  single_line (Path.basename q) = true -> ~ file_excluded cfg direct rules q.
Proof.
  intros (Hd & Hig & Hr) Hline [H|[H|[Hmode H]]].
  - unfold denied in Hd. rewrite shouldIgnore_file in Hd.
    by apply (not_listed_from_fnmatch _ _ Hline Hd).
  - congruence.
  - specialize (Hr Hmode). rewrite shouldIgnore_file in Hr.
    by apply (not_listed_from_fnmatch _ _ Hline Hr).
Qed.

Lemma dir_allowed_spec cfg top d :
  dir_allowed cfg top d ->
  d = top \/
  (single_line (Path.basename d) = true -> ~ dir_excluded cfg [] d).
Proof.
  intros [->|[Hig Hp]]; [by left|]. right.
  intros Hline [H|[[_ [H|H]]|[Hfo H]]].
  - congruence.
  - destruct H as (pattern & Hin & _). by apply elem_of_nil in Hin.
  - destruct H as (pattern & Hin & _). by apply elem_of_nil in Hin.
  - by apply (not_listed_from_fnmatch _ _ Hline (Hp Hfo)).
Qed.

Lemma single_line_app a b :
  single_line (a +:+ b) = single_line a && single_line b.
Proof.
  induction a as [|c a IH]; [reflexivity|].
  change (single_line (String c (a +:+ b)) = single_line (String c a) && single_line b).
  cbn [single_line]. by rewrite IH, andb_assoc.
Qed.

(** The listing of a directory with the content of one subdirectory
    replaced: what [walkDir] looks at before it descends is the same. *)
Lemma lookup_entry_subdir key pre name sub sub' post :
  match lookup_entry key (pre ++ (name, Dir sub) :: post),
        lookup_entry key (pre ++ (name, Dir sub') :: post) with
  | Some (File f), Some (File f') => f = f'
  | Some (Dir _), Some (Dir _) => True
  | None, None => True
  | _, _ => False
  end.
Proof.
  induction pre as [|[n x] pre IH]; cbn [app lookup_entry].
  - destruct (String.eqb name key); [exact I|].
    destruct (lookup_entry key post) as [[f|es]|]; auto.
  - destruct (String.eqb n key); [by destruct x|exact IH].
Qed.

Lemma readGitignore_subdir root pre name sub sub' post st :
  readGitignore root (pre ++ (name, Dir sub) :: post) st =
  readGitignore root (pre ++ (name, Dir sub') :: post) st.
Proof.
  unfold readGitignore.
  pose proof (lookup_entry_subdir ".gitignore" pre name sub sub' post) as H.
  destruct (lookup_entry _ (pre ++ (name, Dir sub) :: post)) as [[f|es]|],
    (lookup_entry _ (pre ++ (name, Dir sub') :: post)) as [[f'|es']|];
    try contradiction; by subst.
Qed.

Lemma file_entries_app a b :
  file_entries (a ++ b) = file_entries a ++ file_entries b.
Proof.
  induction a as [|[n [f|es]] a IH]; cbn [app file_entries]; [reflexivity| |exact IH].
  by rewrite IH.
Qed.

(** What [gitignore_stage] answers about a directory in fallback mode. *)
Lemma gitignore_stage_rules cfg root entries st :
  ig cfg = None ->
  gitignoreRules (gitignore_stage cfg root entries st).2 =
    rules_in_force cfg root entries st /\
  forall d,
    shouldIgnore d true (rules_in_force cfg root entries st) = true ->
    (gitignore_stage cfg root entries st).1 d true = false.
Proof.
  intros Hig. unfold gitignore_stage, rules_in_force. rewrite Hig.
  set (st1 := if ignoreGitignore cfg then st else _).
  assert (Hr : gitignoreRules st1 =
               gitignoreRules st ++
               (if ignoreGitignore cfg then []
                else (readGitignore root entries st).1)).
  { subst st1. destruct (ignoreGitignore cfg); [by rewrite app_nil_r|].
    unfold readGitignore. by destruct (lookup_entry _ entries). }
  destruct (0 <? length (gitignoreRules st1))%nat eqn:Hlen; cbn [fst snd].
  - split; [exact Hr|]. intros d Hd. by rewrite Hr, Hd.
  - split; [exact Hr|]. intros d Hd. rewrite <- Hr in Hd.
    apply Nat.ltb_ge in Hlen.
    destruct (gitignoreRules st1); [discriminate|cbn in Hlen; lia].
Qed.

Lemma rules_in_force_record cfg root entries e st :
  rules_in_force cfg root entries (record e st) =
  rules_in_force cfg root entries st.
Proof.
  unfold rules_in_force, readGitignore.
  by destruct (lookup_entry _ entries).
Qed.

(** A subdirectory that a rule source excludes is not kept. *)
Lemma excluded_dir_dropped cfg root entries name st :
  valid_name name = true -> single_line name = true ->
  dir_excluded cfg (rules_in_force cfg root entries st) (Path.join root name) ->
  keep_dir cfg root
    (gitignore_stage cfg root entries (record (EvReaddir root) st)).1 name
  = false.
Proof.
  intros Hv Hline Hex. unfold keep_dir. unfold dir_excluded in Hex.
  rewrite basename_join in Hex by exact Hv.
  destruct Hex as [H|[[Hig H]|[Hfo H]]].
  - unfold gitignore_stage. unfold ig_ignored in H.
    destruct (ig cfg) as [ignores|]; [|discriminate]. cbn [fst].
    by rewrite H, andb_false_r.
  - destruct (gitignore_stage_rules cfg root entries
                (record (EvReaddir root) st) Hig) as [_ Hgit].
    rewrite Hgit; [by rewrite andb_false_r|].
    rewrite (rules_in_force_record cfg root entries (EvReaddir root) st).
    unfold shouldIgnore. rewrite basename_join by exact Hv.
    apply existsb_exists.
    destruct H as [(rule & Hin & Hglob)|(rule & Hin & Hglob)];
      exists rule; (split; [by apply list_elem_of_In|]).
    + apply (fnmatch_glob_single_line _ _ Hline) in Hglob. by rewrite Hglob.
    + apply fnmatch_glob_single_line in Hglob;
        [by rewrite Hglob, orb_true_r|].
      by rewrite single_line_app, Hline.
  - unfold dir_passes_patterns. rewrite basename_join by exact Hv.
    rewrite Hfo, (listed_to_fnmatch _ _ Hline H).
    destruct (0 <? length (combinedIgnorePatterns cfg))%nat eqn:Hlen;
      [by rewrite andb_false_r|].
    by unfold combinedIgnorePatterns, DEFAULT_IGNORES in Hlen.
Qed.

(** A subdirectory that is not kept is not entered: the walk is the same
    whatever it holds. *)
Lemma walkDir_pruned cfg root pre name sub sub' post st :
  keep_dir cfg root
    (gitignore_stage cfg root (pre ++ (name, Dir sub) :: post)
       (record (EvReaddir root) st)).1 name = false ->
  walkDir cfg root (Dir (pre ++ (name, Dir sub) :: post)) st =
  walkDir cfg root (Dir (pre ++ (name, Dir sub') :: post)) st.
Proof.
  intros Hkeep. rewrite !walkDir_Dir. cbv zeta.
  assert (Hstage : gitignore_stage cfg root (pre ++ (name, Dir sub') :: post)
                     (record (EvReaddir root) st) =
                   gitignore_stage cfg root (pre ++ (name, Dir sub) :: post)
                     (record (EvReaddir root) st)).
  { unfold gitignore_stage.
    by rewrite (readGitignore_subdir root pre name sub sub' post). }
  rewrite Hstage.
  destruct (gitignore_stage cfg root (pre ++ (name, Dir sub) :: post) _)
    as [git st2]. cbn [fst] in Hkeep.
  rewrite !file_entries_app. cbn [file_entries].
  destruct (walk_files cfg root _ st2) as [st3 returned].
  destruct returned; [reflexivity|].
  unfold walk_subdirs. rewrite !fold_left_app. cbn [fold_left fst snd is_dir].
  by rewrite Hkeep, andb_false_r.
Qed.

(** C1, as stated, fails, and in two ways.  In fallback mode the walk
    reads the rule file of the directory it visits, a path the default
    denylist excludes.  And a file whose name holds a line feed escapes
    a rule that matches it: [fnmatch] answers false on it, the defect
    of C5, so that the file is read and emitted. *)
Lemma C1_rule_file_is_read :
  (denied plain_config "/r/.gitignore" = true /\
   exists e,
     e ∈ log (processPath plain_config "/r" (Some rules_tree) (initial_state [])) /\
     opens_for_reading e "/r/.gitignore") /\
  (glob_listed two_line_log ["*.log"] /\
   gitignoreRules
     (processPath plain_config "/r" (Some two_line_log_tree) (initial_state []))
     = ["*.log"] /\
   emitted_paths
     (log (processPath plain_config "/r" (Some two_line_log_tree)
             (initial_state []))) = ["/r/" +:+ two_line_log]).
Proof.
  split.
  - split; [reflexivity|]. exists (EvReadRules "/r/.gitignore" ["*.log"]).
    split; [|right; right; by eexists].
    vm_compute. apply elem_of_cons. right. apply elem_of_cons. by left.
  - split; [|split; vm_compute; reflexivity].
    exists "*.log". split; [set_solver|].
    unfold two_line_log, two_line_name, Str.nl, Str.single. cbn.
    do 3 apply glob_star_more. apply glob_star_none.
    do 4 (apply glob_literal; [discriminate..|]). constructor.
Qed.

(** C1, amended.  Whatever the configuration, every file that a call of
    [processPath] sniffs, measures, reads as content or emits is excluded
    by no rule source active for it at that moment: not by the default
    denylist or a custom pattern, not by the project-root matcher, and
    not by the rules accumulated so far, which count in fallback mode and
    for a file given directly.  That holds of exclusion as [fnmatch]
    computes it, and for a base name without line terminator of
    exclusion by the glob relation; the same holds of every directory
    enumerated below the starting point, for the project-root matcher
    and, unless only files are to be ignored, the patterns.  The only
    other read is that of a [.gitignore] as a rule source.  And in every
    call of [walkDir], a subdirectory of the listing that a rule source
    excludes, the rule array with the directory's own rules included, is
    not entered: the walk is the same whatever that subdirectory
    holds. *)
Theorem C1_excluded_never_touched cfg :
  (forall p target st,
     listing_ok target = true ->
     exists new,
       log (processPath cfg p target st) = log st ++ new /\
       forall pre e post, new = pre ++ e :: post ->
         match e with
         | EvSniff q | EvStat q | EvRead q | EvEmit q =>
             file_allowed cfg (is_file_target target)
                          (gitignoreRules st ++ pushed pre) q /\
             (single_line (Path.basename q) = true ->
              ~ file_excluded cfg (is_file_target target)
                  (gitignoreRules st ++ pushed pre) q)
         | EvReaddir d =>
             dir_allowed cfg p d /\
             (d = p \/
              (single_line (Path.basename d) = true -> ~ dir_excluded cfg [] d))
         | EvReadRules path _ => Path.basename path = ".gitignore"
         end) /\
  (forall root pre name sub sub' post st,
     valid_name name = true -> single_line name = true ->
     dir_excluded cfg
       (rules_in_force cfg root (pre ++ (name, Dir sub) :: post) st)
       (Path.join root name) ->
     walkDir cfg root (Dir (pre ++ (name, Dir sub) :: post)) st =
     walkDir cfg root (Dir (pre ++ (name, Dir sub') :: post)) st).
Proof.
  split.
  - intros p target st Hok.
    destruct (processPath_extends cfg p target st Hok)
      as (new & Hl & _ & _ & _ & Ht).
    exists new. split; [exact Hl|]. intros pre e post ->.
    apply trace_ok_at in Ht.
    destruct e; cbn [event_ok] in Ht; try exact Ht;
      try (split; [exact Ht|by apply file_allowed_spec]).
    split; [exact Ht|by apply dir_allowed_spec].
  - intros root pre name sub sub' post st Hv Hline Hex.
    apply walkDir_pruned. by apply excluded_dir_dropped.
Qed.

Lemma C1_excluded_never_touched_witness :
  (exists new,
     log (processPath plain_config "/r" (Some rules_tree) (initial_state [])) =
       log (initial_state []) ++ new /\
     forall pre e post, new = pre ++ e :: post ->
       match e with
       | EvSniff q | EvStat q | EvRead q | EvEmit q =>
           file_allowed plain_config false
                        (gitignoreRules (initial_state []) ++ pushed pre) q /\
           (single_line (Path.basename q) = true ->
            ~ file_excluded plain_config false
                (gitignoreRules (initial_state []) ++ pushed pre) q)
       | EvReaddir d =>
           dir_allowed plain_config "/r" d /\
           (d = "/r" \/
            (single_line (Path.basename d) = true ->
             ~ dir_excluded plain_config [] d))
       | EvReadRules path _ => Path.basename path = ".gitignore"
       end) /\
  walkDir plain_config "/r"
    (pruned_tree [("secret.txt", File (text_file "S"))]) (initial_state []) =
  walkDir plain_config "/r" (pruned_tree []) (initial_state []).
Proof.
  destruct (C1_excluded_never_touched plain_config) as [Htrace Hprune].
  split.
  - apply (Htrace "/r" (Some rules_tree) (initial_state [])). reflexivity.
  - apply (Hprune "/r"
             [ (".gitignore", File (text_file "out/"));
               ("a.txt", File (text_file "A")) ]
             "out" [("secret.txt", File (text_file "S"))] [] []
             (initial_state [])); [reflexivity..|].
    right. left. split; [reflexivity|]. right.
    exists "out/". split; [vm_compute; set_solver|].
    apply fnmatch_sound. reflexivity.
Defined.

Example pruned_walk :
  emitted_paths
    (log (walkDir plain_config "/r"
            (pruned_tree [("secret.txt", File (text_file "S"))])
            (initial_state []))) = ["/r/a.txt"].
Proof. vm_compute. reflexivity. Qed.

(** What the default denylist does keep out.  Whatever the
    configuration, no call of [processPath] emits a file whose base name
    [fnmatch] matches with a pattern of the default denylist, be the file
    met in a directory walk or given directly; for a base name without
    line terminator that is the glob relation itself. *)
Lemma denylist_on_single_line_names cfg p target st :
  listing_ok target = true ->
  exists new,
    log (processPath cfg p target st) = log st ++ new /\
    forall q, EvEmit q ∈ new ->
      existsb (fnmatch (Path.basename q)) DEFAULT_IGNORES = false /\
      (single_line (Path.basename q) = true ->
       forall pattern, pattern ∈ DEFAULT_IGNORES ->
         ~ glob_matches (Path.basename q) pattern).
Proof.
  intros Hok.
  destruct (processPath_extends cfg p target st Hok)
    as (new & Hl & _ & _ & _ & Ht).
  exists new. split; [exact Hl|]. intros q Hq.
  apply list_elem_of_split in Hq as (pre & post & ->).
  apply trace_ok_at in Ht. destruct Ht as (Hd & _).
  rewrite denied_patterns in Hd. unfold combinedIgnorePatterns in Hd.
  rewrite existsb_app in Hd. apply orb_false_iff in Hd as [Hd _].
  split; [exact Hd|]. intros Hline pattern Hin Hglob.
  apply fnmatch_glob_single_line in Hglob; [|exact Hline].
  assert (Hex : existsb (fnmatch (Path.basename q)) DEFAULT_IGNORES = true).
  { apply existsb_exists. exists pattern. split; [|exact Hglob].
    by apply list_elem_of_In. }
  congruence.
Qed.

(** C10.  The claim asks that a file whose base name matches a pattern
    of the default denylist is never emitted.  The name [.env<LF>x]
    matches the pattern [.env*], yet [fnmatch] answers false on it (the
    defect of C5), and the file is emitted, given directly with
    [.gitignore] processing switched off as well as met in a walk. *)
Theorem C10_denylist_bypass :
  ".env*" ∈ DEFAULT_IGNORES /\
  glob_matches dotenv_two_lines ".env*" /\
  fnmatch dotenv_two_lines ".env*" = false /\
  Path.basename ("/r/" +:+ dotenv_two_lines) = dotenv_two_lines /\
  emitted_paths
    (log (processPath no_gitignore_config ("/r/" +:+ dotenv_two_lines)
            (Some (File (text_file "KEY=1"))) (initial_state []))) =
    ["/r/" +:+ dotenv_two_lines] /\
  listing_ok (Some (Dir [(dotenv_two_lines, File (text_file "KEY=1"))])) = true /\
  emitted_paths
    (log (processPath plain_config "/r"
            (Some (Dir [(dotenv_two_lines, File (text_file "KEY=1"))]))
            (initial_state []))) =
    ["/r/" +:+ dotenv_two_lines].
Proof.
  split; [set_solver|]. split.
  { unfold dotenv_two_lines, Str.nl, Str.single. cbn.
    do 4 (apply glob_literal; [discriminate..|]).
    do 2 apply glob_star_more. apply glob_star_none. constructor. }
  repeat split; vm_compute; reflexivity.
Qed.

(** A dotenv file is not emitted, given directly or met in a walk, with
    [.gitignore] processing switched off. *)
Example dotenv_not_emitted :
  out (processPath no_gitignore_config "/r/.env" (Some (File (text_file "KEY=1")))
         (initial_state [])) = [] /\
  emitted_paths
    (log (processPath no_gitignore_config "/r"
            (Some (Dir [ (".env.local", File (text_file "KEY=1"));
                         ("main.ts", File (text_file "x")) ]))
            (initial_state []))) = ["/r/main.ts"].
Proof. split; vm_compute; reflexivity. Qed.

End WalkClaims.

(** ** The file limit *)

Section Limit.

(** C3.  The claim asks that the whole walk stops once the counter has
    reached [maxFiles], recursion respecting the limit before it
    descends.  With [maxFiles = 1] the counter reaches the limit at the
    first file of [/r]; the [return] of the file loop leaves one call
    only, and the loop over the subdirectories has no test: the walk
    still enumerates [s1], reads its rule file and appends its rule to
    the shared array, and enumerates [s2] and [s2/inner]. *)
Theorem C3_descends_after_limit :
  exists pre,
    log (walkDir (limit_config 1) "/r" limit_rules_tree (initial_state [])) =
      pre ++ [ EvReaddir "/r/s1"; EvReadRules "/r/s1/.gitignore" ["*.md"];
               EvReaddir "/r/s2"; EvReaddir "/r/s2/inner" ] /\
    limit_reached_at (limit_config 1)
      (count (initial_state []) + emitted pre) = true /\
    gitignoreRules
      (walkDir (limit_config 1) "/r" limit_rules_tree (initial_state [])) =
      ["*.md"].
Proof.
  exists [EvReaddir "/r"; EvSniff "/r/a.txt"; EvRead "/r/a.txt"; EvEmit "/r/a.txt"].
  repeat split; vm_compute; reflexivity.
Qed.

Lemma trace_ok_count_bound cfg D limit : forall evs rules c,
  maxFiles cfg = Some limit -> has_counter cfg = true ->
  trace_ok (event_ok (fun _ c _ => limit_reached_at cfg c = false) D)
           true rules c evs ->
  c <= limit -> c + emitted evs <= limit.
Proof.
  intros evs rules c Hmax Hcnt. revert rules c.
  induction evs as [|e evs IH]; intros rules c Ht Hc; [cbn; lia|].
  destruct Ht as [He Ht]. unfold emitted in *. cbn [List.filter andb] in *.
  destruct e; cbn [is_emit] in *; try (eapply IH; eauto; fail).
  cbn [event_ok] in He. unfold limit_reached_at in He. rewrite Hmax, Hcnt in He.
  cbn [andb] in He. apply Nat.leb_gt in He.
  cbn [length]. specialize (IH _ _ Ht). lia.
Qed.

(** What the limit does stop.  With [maxFiles] set and a counter given,
    whenever a walk sniffs, measures, reads as content or emits a file
    the counter is still below [maxFiles], and a walk that starts at or
    below the limit never counts beyond it. *)
Lemma documents_stop_at_limit cfg root n st limit :
  maxFiles cfg = Some limit -> has_counter cfg = true ->
  exists new,
    log (walkDir cfg root n st) = log st ++ new /\
    count (walkDir cfg root n st) = count st + emitted new /\
    (forall pre e post q,
       new = pre ++ e :: post -> file_event_path e = Some q ->
       count st + emitted pre < limit) /\
    (count st <= limit -> count (walkDir cfg root n st) <= limit).
Proof.
  intros Hmax Hcnt.
  destruct (walkDir_extends cfg (fun _ => true)
              (fun _ c _ => limit_reached_at cfg c = false) (fun _ => True))
    with (n := n) (root := root) (st := st) as (new & Hl & _ & Hc & _ & Ht);
    auto using names_ok_any.
  rewrite Hcnt in Hc, Ht.
  exists new. split; [exact Hl|]. split; [exact Hc|]. split.
  - intros pre e post q -> Hq. apply trace_ok_at in Ht.
    assert (Hlim : limit_reached_at cfg (count st + emitted pre) = false)
      by (destruct e; cbn in Hq; try discriminate; exact Ht).
    unfold limit_reached_at in Hlim. rewrite Hmax, Hcnt in Hlim.
    by apply Nat.leb_gt in Hlim.
  - intros Hle. rewrite Hc. eapply trace_ok_count_bound; eauto.
Qed.

End Limit.

(** ** Rule accumulation *)

Section Accumulation.

(** The rule array only grows during a walk. *)
Lemma walkDir_rules_grow cfg root n st :
  exists added,
    gitignoreRules (walkDir cfg root n st) = gitignoreRules st ++ added.
Proof.
  destruct (walkDir_extends cfg (fun _ => true) (fun _ _ _ => True) (fun _ => True))
    with (n := n) (root := root) (st := st) as (new & _ & Hr & _);
    auto using names_ok_any.
  by exists (pushed new).
Qed.

(** C4.  The claim asks that the rules read in a sibling subtree are
    never applied to a directory.  In fallback mode, with the rule file
    of [a] holding [*.txt], the walk visits [b] with that rule in the
    shared array and drops [b/note.txt], which neither the inherited
    rules nor a rule file of [b] or of its ancestors exclude; without the
    rule file of [a] the same file is emitted, and so it is when the
    listing gives [b] before [a]. *)
Theorem C4_sibling_rules_leak :
  let run := walkDir plain_config "/r" sibling_tree (initial_state []) in
  let run_without :=
    walkDir plain_config "/r" sibling_tree_without_rules (initial_state []) in
  let run_swapped :=
    walkDir plain_config "/r" sibling_tree_swapped (initial_state []) in
  log run = [ EvReaddir "/r"; EvReaddir "/r/a";
              EvReadRules "/r/a/.gitignore" ["*.txt"]; EvReaddir "/r/b" ] /\
  emitted_paths (log run) = [] /\
  (readGitignore "/r" [] (initial_state [])).1 ++
  (readGitignore "/r/b" [("note.txt", File (text_file "hello"))]
     (initial_state [])).1 = [] /\
  emitted_paths (log run_without) = ["/r/b/note.txt"] /\
  emitted_paths (log run_swapped) = ["/r/b/note.txt"].
Proof. cbv zeta. repeat split; vm_compute; reflexivity. Qed.

End Accumulation.

(** ** Read failures *)

Section ReadFailures.

Variable cfg : config.

Lemma vanished_file_skipped filePath st :
  let st' := process_file cfg filePath vanished_file st in
  out st' = out st /\ err st' = err st /\ count st' = count st /\
  globalIndex st' = globalIndex st /\
  gitignoreRules st' = gitignoreRules st.
Proof.
  cbv zeta. unfold process_file, isBinaryFile, vanished_file. cbn [f_bytes f_size f_read].
  destruct (negb _ && bool_decide _); [by auto|].
  destruct (maxSize cfg); by cbn.
Qed.

Lemma failed_read_skipped filePath f st :
  (isBinaryFile filePath f st).1 = false ->
  (forall limit size,
     maxSize cfg = Some limit -> f_size f = Some size -> size <= limit) ->
  (forall content, f_read f <> ReadOk content) ->
  let st' := process_file cfg filePath f st in
  out st' = out st /\ count st' = count st /\
  globalIndex st' = globalIndex st /\
  gitignoreRules st' = gitignoreRules st /\
  err st' =
    match f_read f with
    | ReadError =>
        if quiet cfg then err st else err st ++ [encoding_warning filePath]
    | _ => err st
    end.
Proof.
  intros Hbin Hsize Hread. cbv zeta. unfold process_file.
  destruct (isBinaryFile filePath f st) as [b st0] eqn:Hb. cbn [fst] in Hbin. subst b.
  assert (Hst0 : st0 = st \/ st0 = record (EvSniff filePath) st).
  { unfold isBinaryFile in Hb. destruct (negb _ && bool_decide _); [discriminate|].
    destruct (f_bytes f); injection Hb; intros; subst; by right. }
  assert (Hframe : out st0 = out st /\ count st0 = count st /\
                   globalIndex st0 = globalIndex st /\
                   gitignoreRules st0 = gitignoreRules st /\ err st0 = err st)
    by (destruct Hst0 as [-> | ->]; by cbn).
  destruct Hframe as (Ho & Hc & Hg & Hr & He).
  assert (Hnot : forall limit size, maxSize cfg = Some limit ->
                   f_size f = Some size -> (limit <? size)%nat = false)
    by (intros; apply Nat.ltb_ge; eauto).
  destruct (maxSize cfg) as [limit|];
    [destruct (f_size f) as [size|]; [rewrite (Hnot limit size eq_refl eq_refl)|]|];
    (destruct (f_read f) as [content| |]; [by destruct (Hread content)| |]);
    unfold warn; try destruct (quiet cfg); simpl_state; rewrite ?He; auto.
Qed.

(** One step of the file loop of a walk that has not reached its limit:
    a file that is gone when it is accessed leaves the output, the
    diagnostic stream, the counter and the index as they were, a file
    whose read fails otherwise adds one warning unless the run is quiet,
    and the loop goes on with the remaining files. *)
Lemma file_loop_after_failure root name f rest st :
  limit_reached cfg st = false ->
  (exists st1,
     walk_files cfg root ((name, vanished_file) :: rest) st =
       walk_files cfg root rest st1 /\
     out st1 = out st /\ err st1 = err st /\ count st1 = count st /\
     globalIndex st1 = globalIndex st) /\
  ((isBinaryFile (Path.join root name) f st).1 = false ->
   (forall limit size,
      maxSize cfg = Some limit -> f_size f = Some size -> size <= limit) ->
   (forall content, f_read f <> ReadOk content) ->
   exists st1,
     walk_files cfg root ((name, f) :: rest) st = walk_files cfg root rest st1 /\
     out st1 = out st /\ count st1 = count st /\
     globalIndex st1 = globalIndex st /\
     err st1 =
       match f_read f with
       | ReadError =>
           if quiet cfg then err st
           else err st ++ [encoding_warning (Path.join root name)]
       | _ => err st
       end).
Proof.
  intros Hlim. split.
  - exists (process_file cfg (Path.join root name) vanished_file st).
    cbn [walk_files]. rewrite Hlim. split; [reflexivity|].
    destruct (vanished_file_skipped (Path.join root name) st) as (? & ? & ? & ? & ?).
    auto.
  - intros Hbin Hsize Hread.
    exists (process_file cfg (Path.join root name) f st).
    cbn [walk_files]. rewrite Hlim. split; [reflexivity|].
    destruct (failed_read_skipped (Path.join root name) f st Hbin Hsize Hread)
      as (? & ? & ? & ? & ?).
    auto.
Qed.

End ReadFailures.

(** A vanished file between two readable ones: no warning, and both
    neighbours are emitted. *)
Example vanished_between :
  let st' :=
    walkDir plain_config "/r"
      (Dir [ ("a.txt", File (text_file "A")); ("b.txt", File vanished_file);
             ("c.txt", File (text_file "C")) ]) (initial_state []) in
  err st' = [] /\ emitted_paths (log st') = ["/r/a.txt"; "/r/c.txt"].
Proof. cbv zeta. split; vm_compute; reflexivity. Qed.

(** ** Document indices in a run *)

Section RunIndices.

(** A call of [processPath] advances the document index by one for each
    document it emits when the format is xml or json, and not at all
    otherwise. *)
Lemma processPath_index cfg p target st :
  exists new,
    log (processPath cfg p target st) = log st ++ new /\
    globalIndex (processPath cfg p target st) =
      globalIndex st + (if json cfg || cxml cfg then emitted new else 0).
Proof.
  destruct target as [[f|entries]|]; cbn [processPath].
  - destruct (_ || _ || _).
    + exists []. rewrite app_nil_r. split; [reflexivity|solve_counts].
    + destruct (process_file_log cfg p f st) as (new & Hl & _ & _ & Hi & _).
      by exists new.
  - destruct (walkDir_extends cfg (fun _ => true) (fun _ _ _ => True)
                (fun _ => True))
      with (n := Dir entries) (root := p) (st := st)
      as (new & Hl & _ & _ & Hi & _); auto using names_ok_any.
    by exists new.
  - exists []. rewrite app_nil_r. split; [reflexivity|solve_counts].
Qed.

(** C2. After [resetDocumentIndex], the documents emitted in xml or json
    format carry the indices 1, 2, 3, ... in emission order, and the
    counter has advanced by exactly one per document; a second run that
    does not reset goes on from where the first one stopped.  In a walk,
    too, the index advances by exactly one per emitted document. *)
Theorem C2_document_indices docs docs2 st :
  let run1 := emit_documents docs (resetDocumentIndex st) in
  let run2 := emit_documents docs2 run1 in
  out run1 = out st ++ concat (imap (fun i d => rendered (1 + i) d) docs) /\
  globalIndex run1 = 1 + length docs /\
  out run2 =
    out run1 ++
    concat (imap (fun i d => rendered (1 + length docs + i) d) docs2) /\
  globalIndex run2 = 1 + length docs + length docs2 /\
  (forall i j, xml_open_tag i = xml_open_tag j -> i = j) /\
  (forall cfg p target, exists new,
     log (processPath cfg p target st) = log st ++ new /\
     globalIndex (processPath cfg p target st) =
       globalIndex st + (if json cfg || cxml cfg then emitted new else 0)).
Proof.
  cbv zeta. rewrite !emit_documents_from. simpl_state.
  repeat split; auto using xml_open_tag_inj.
  intros cfg p target. apply processPath_index.
Qed.

(** Two files in a directory, emitted as xml after a reset: indices 1
    and 2, in sorted order. *)
Example xml_walk_indices :
  out (processPath xml_config "/r"
         (Some (Dir [ ("b.txt", File (text_file "B"));
                      ("a.txt", File (text_file "A")) ]))
         (resetDocumentIndex (initial_state []))) =
  [ xml_open_tag 1; "<source>/r/a.txt</source>"; "<document_content>"; "A";
    "</document_content>"; "</document>";
    xml_open_tag 2; "<source>/r/b.txt</source>"; "<document_content>"; "B";
    "</document_content>"; "</document>" ].
Proof. vm_compute. reflexivity. Qed.

End RunIndices.

(** ** The scenarios of the test suite *)

Section Scenarios.

(** With the extension filter [.ts], of [a.ts] and [b.md] only the first
    is emitted. *)
Example extension_filter_scenario :
  emitted_paths
    (log (processPath (extension_config [".ts"]) "/tmp/x"
            (Some (Dir [ ("a.ts", File (text_file ("export {}" +:+ Str.nl)));
                         ("b.md", File (text_file ("# md" +:+ Str.nl))) ]))
            (initial_state []))) = ["/tmp/x/a.ts"].
Proof. vm_compute. reflexivity. Qed.

(** With the custom pattern [*.log] and [.gitignore] processing off, of
    [keep.txt] and [skip.log] only the first is emitted. *)
Example ignore_pattern_scenario :
  emitted_paths
    (log (processPath (pattern_config ["*.log"]) "/tmp/x"
            (Some (Dir [ ("keep.txt", File (text_file "k"));
                         ("skip.log", File (text_file "s")) ]))
            (initial_state []))) = ["/tmp/x/keep.txt"].
Proof. vm_compute. reflexivity. Qed.

(** Hidden files are left out unless asked for. *)
Example hidden_scenario :
  emitted_paths
    (log (processPath hidden_off_config "/tmp/x"
            (Some (Dir [ (".hidden.txt", File (text_file "h"));
                         ("visible.txt", File (text_file "v")) ]))
            (initial_state []))) = ["/tmp/x/visible.txt"].
Proof. vm_compute. reflexivity. Qed.

(** A file with the extension [png] is skipped without being opened; a
    text file next to it is emitted. *)
Example binary_scenario :
  log (processPath no_gitignore_config "/tmp/x"
         (Some (Dir [ ("image.png", File (text_file "not really an image"));
                      ("note.txt", File (text_file "hello world")) ]))
         (initial_state [])) =
  [ EvReaddir "/tmp/x"; EvSniff "/tmp/x/note.txt"; EvRead "/tmp/x/note.txt";
    EvEmit "/tmp/x/note.txt" ].
Proof. vm_compute. reflexivity. Qed.

(** The output of [printAsMarkdown] for a TypeScript file. *)
Example markdown_scenario :
  out (printAsMarkdown "/tmp/example.ts" ("const x = 1;" +:+ Str.nl) false
         (initial_state [])) =
  [ "/tmp/example.ts"; "```typescript"; "const x = 1;"; EmptyString; "```" ].
Proof. vm_compute. reflexivity. Qed.

End Scenarios.

(** * Further properties of the code *)

(** ** Reversal, prefixes and suffixes *)

Section Affixes.

Lemma rev_onto_app s : forall acc, Str.rev_onto s acc = Str.rev s +:+ acc.
Proof.
  unfold Str.rev. induction s as [|c s IH]; intros acc; [reflexivity|].
  cbn [Str.rev_onto]. rewrite IH, (IH (String c EmptyString)).
  by rewrite <- StrFacts.app_assoc.
Qed.

Lemma rev_cons c s : Str.rev (String c s) = Str.rev s +:+ Str.single c.
Proof. unfold Str.rev at 1. cbn [Str.rev_onto]. apply rev_onto_app. Qed.

Lemma app_empty_r s : s +:+ EmptyString = s.
Proof.
  induction s as [|c s IH]; [reflexivity|].
  change (String c (s +:+ EmptyString) = String c s). by rewrite IH.
Qed.

Lemma rev_app a b : Str.rev (a +:+ b) = Str.rev b +:+ Str.rev a.
Proof.
  induction a as [|c a IH].
  - change (Str.rev b = Str.rev b +:+ EmptyString). by rewrite app_empty_r.
  - change (Str.rev (String c (a +:+ b)) = Str.rev b +:+ Str.rev (String c a)).
    by rewrite !rev_cons, IH, StrFacts.app_assoc.
Qed.

Lemma rev_involutive s : Str.rev (Str.rev s) = s.
Proof.
  induction s as [|c s IH]; [reflexivity|].
  by rewrite rev_cons, rev_app, IH.
Qed.

Lemma startsWith_app p t : Str.startsWith p (p +:+ t) = true.
Proof.
  induction p as [|c p IH]; [reflexivity|].
  change (Str.startsWith (String c p) (String c (p +:+ t)) = true).
  cbn [Str.startsWith]. by rewrite Ascii.eqb_refl, IH.
Qed.

Lemma startsWith_inv p : forall s,
  Str.startsWith p s = true -> exists t, s = p +:+ t.
Proof.
  induction p as [|c p IH]; intros s H; [by exists s|].
  destruct s as [|d s]; [discriminate|]. cbn [Str.startsWith] in H.
  apply andb_true_iff in H as [Hc H]. apply Ascii.eqb_eq in Hc as <-.
  destruct (IH s H) as [t ->]. by exists t.
Qed.

(** [s.endsWith(p)] holds exactly when [s] is some text followed by [p]. *)
Lemma endsWith_iff p s :
  Str.endsWith p s = true <-> exists t, s = t +:+ p.
Proof.
  unfold Str.endsWith. split.
  - intros H. apply startsWith_inv in H as [t Ht].
    exists (Str.rev t). apply (f_equal Str.rev) in Ht.
    by rewrite rev_app, !rev_involutive in Ht.
  - intros [t ->]. rewrite rev_app. apply startsWith_app.
Qed.

End Affixes.

(** ** More on the pattern matcher *)

Section FnmatchMore.

Lemma no_wildcard_cons c p :
  no_wildcard (String c p) = true ->
  c <> "*"%char /\ c <> "?"%char /\ no_wildcard p = true.
Proof.
  unfold no_wildcard. cbn [Str.mem]. intros [H1 H2]%andb_true_iff.
  apply negb_true_iff, orb_false_iff in H1 as [H1 H1'].
  apply negb_true_iff, orb_false_iff in H2 as [H2 H2'].
  rewrite H1', H2'. repeat split; auto.
  - intros ->. discriminate H1.
  - intros ->. discriminate H2.
Qed.

Lemma match_literal p : forall name,
  no_wildcard p = true ->
  match_atoms (glob_atoms p) name = String.eqb name p.
Proof.
  induction p as [|c p IH]; intros name Hp.
  - by destruct name.
  - apply no_wildcard_cons in Hp as (Hs & Hq & Hp). cbn [glob_atoms].
    destruct (Ascii.eqb_spec c "*"%char); [contradiction|].
    destruct (Ascii.eqb_spec c "?"%char); [contradiction|].
    destruct name as [|d name]; [reflexivity|]. cbn [match_atoms String.eqb].
    rewrite IH by exact Hp. rewrite (Ascii.eqb_sym c d).
    by destruct (Ascii.eqb d c).
Qed.

Lemma match_star_suffix s : forall name,
  no_wildcard s = true -> single_line name = true ->
  match_atoms (ADotStar :: glob_atoms s) name = Str.endsWith s name.
Proof.
  intros name Hs. induction name as [|d name IH]; intros Hline.
  - rewrite match_star_unfold, orb_false_r, match_literal by exact Hs.
    destruct (String.eqb_spec EmptyString s) as [<-|Hne]; [reflexivity|].
    symmetry. apply not_true_is_false. intros [t Ht]%endsWith_iff.
    destruct t; [by apply Hne|discriminate].
  - cbn [single_line] in Hline. apply andb_true_iff in Hline as [Hd Hline].
    rewrite match_star_unfold, Hd, IH, match_literal by assumption. cbn [andb].
    destruct (String.eqb_spec (String d name) s) as [<-|Hne].
    + symmetry. apply endsWith_iff. by exists EmptyString.
    + cbn [orb]. destruct (Str.endsWith s name) eqn:E.
      * symmetry. apply endsWith_iff. apply endsWith_iff in E as [t ->].
        by exists (String d t).
      * symmetry. apply not_true_is_false. intros [t Ht]%endsWith_iff.
        destruct t as [|e t]; [by apply Hne|].
        change (String d name = String e (t +:+ s)) in Ht. injection Ht as _ ->.
        assert (Str.endsWith s (t +:+ s) = true) by (apply endsWith_iff; by exists t).
        congruence.
Qed.

(** X1. On every name, a match that [fnmatch] reports is a match of the
    glob ([*] any run of characters, [?] any one character, anything else
    itself, the whole name consumed); on a name without line terminator
    the converse holds too, so that there [fnmatch] decides the glob. *)
Theorem X1_fnmatch_decides_glob name pattern :
  (fnmatch name pattern = true -> glob_matches name pattern) /\
  (single_line name = true -> glob_matches name pattern ->
   fnmatch name pattern = true).
Proof.
  split.
  - apply fnmatch_sound.
  - intros Hline Hglob. by apply fnmatch_glob_single_line.
Qed.

Lemma X1_fnmatch_decides_glob_witness :
  fnmatch "notes.txt" "*.txt" = true.
Proof.
  apply (X1_fnmatch_decides_glob "notes.txt" "*.txt"); [reflexivity|].
  do 5 apply glob_star_more. apply glob_star_none.
  repeat (apply glob_literal; [discriminate|discriminate|]). constructor.
Defined.

(** X2. A pattern without [*] and [?] matches its own text and nothing
    else, whatever regular-expression characters it holds: the escaping
    makes every one of them literal, and the match is case-sensitive and
    anchored. *)
Theorem X2_fnmatch_literal name pattern :
  no_wildcard pattern = true ->
  (fnmatch name pattern = true <-> name = pattern).
Proof.
  intros Hp. rewrite fnmatch_atoms, match_literal by exact Hp.
  apply String.eqb_eq.
Qed.

Lemma X2_fnmatch_literal_witness :
  fnmatch "a.b(1)+[x]" "a.b(1)+[x]" = true /\
  fnmatch "aXb(1)+[x]" "a.b(1)+[x]" <> true.
Proof.
  split.
  - by apply (X2_fnmatch_literal "a.b(1)+[x]" "a.b(1)+[x]").
  - intros H. by apply (X2_fnmatch_literal "aXb(1)+[x]" "a.b(1)+[x]") in H.
Defined.

(** X3. A pattern made of [*] and a text without wildcard matches a name
    without line terminator exactly when the name ends with that text:
    [*.log] is the suffix test [name.endsWith(".log")]. *)
Theorem X3_fnmatch_star_suffix name suffix :
  no_wildcard suffix = true -> single_line name = true ->
  fnmatch name (String "*" suffix) = Str.endsWith suffix name.
Proof.
  intros Hs Hline. rewrite fnmatch_atoms. cbn [glob_atoms].
  cbn [Ascii.eqb Bool.eqb]. by apply match_star_suffix.
Qed.

Lemma X3_fnmatch_star_suffix_witness :
  fnmatch "build.log" "*.log" = Str.endsWith ".log" "build.log".
Proof. by apply (X3_fnmatch_star_suffix "build.log" ".log"). Defined.

End FnmatchMore.

(** ** The ignore rules *)

Section IgnoreRules.

Lemma shouldIgnore_app fullPath isDir r1 r2 :
  shouldIgnore fullPath isDir (r1 ++ r2) =
  shouldIgnore fullPath isDir r1 || shouldIgnore fullPath isDir r2.
Proof. unfold shouldIgnore. apply existsb_app. Qed.

(** X4. Rules only ever exclude: a path that some rules exclude stays
    excluded whatever rules are put before or after them (no rule, a
    line starting with [!] included, takes an exclusion back), and no
    rules exclude nothing. *)
Theorem X4_shouldIgnore_monotone fullPath isDir rules before after :
  shouldIgnore fullPath isDir [] = false /\
  (shouldIgnore fullPath isDir rules = true ->
   shouldIgnore fullPath isDir (before ++ rules ++ after) = true).
Proof.
  split; [reflexivity|]. intros H.
  rewrite !shouldIgnore_app, H. by rewrite orb_true_r.
Qed.

Lemma X4_shouldIgnore_monotone_witness :
  shouldIgnore "/r/build.log" false (["!build.log"] ++ ["*.log"] ++ ["!*.log"])
  = true.
Proof.
  by apply (X4_shouldIgnore_monotone "/r/build.log" false ["*.log"]
              ["!build.log"] ["!*.log"]).
Defined.

Lemma basename_no_slash p : Str.mem "/" (Path.basename p) = false.
Proof.
  unfold Path.basename.
  pose proof (split_lines_no_sep "/" p) as Hall.
  assert (Hf : Forall (fun l => Str.mem "/" l = false)
                 (List.filter (fun seg => negb (Str.is_empty seg)) (Str.split "/" p))).
  { induction Hall as [|x l Hx _ IH]; cbn [List.filter]; [constructor|].
    destruct (negb (Str.is_empty x)); [by constructor|assumption]. }
  induction Hf as [|x l Hx Hl IH]; [reflexivity|].
  destruct l as [|y l]; [exact Hx|exact IH].
Qed.

Lemma glob_slash_pattern name pat :
  glob_matches name pat ->
  forall p, pat = p +:+ "/" -> Str.mem "/" name = true.
Proof.
  induction 1 as [|name p0 _ IH|c name p0 _ IH|c name p0 _ IH|c name p0 Hs Hq _ IH];
    intros p Hp.
  - destruct p; discriminate.
  - destruct p as [|x p]; [discriminate|].
    change (String "*" p0 = String x (p +:+ "/")) in Hp. injection Hp as _ ->.
    by eapply IH.
  - cbn [Str.mem]. rewrite (IH p Hp). apply orb_true_r.
  - destruct p as [|x p]; [discriminate|].
    change (String "?" p0 = String x (p +:+ "/")) in Hp. injection Hp as _ ->.
    cbn [Str.mem]. rewrite (IH p eq_refl). apply orb_true_r.
  - destruct p as [|x p].
    + injection Hp as -> _. reflexivity.
    + change (String c p0 = String x (p +:+ "/")) in Hp. injection Hp as _ ->.
      cbn [Str.mem]. rewrite (IH p eq_refl). apply orb_true_r.
Qed.

Lemma fnmatch_literal_self p : no_wildcard p = true -> fnmatch p p = true.
Proof.
  intros Hp. rewrite fnmatch_atoms, match_literal by exact Hp.
  apply String.eqb_refl.
Qed.

Lemma no_wildcard_app a b :
  no_wildcard (a +:+ b) = no_wildcard a && no_wildcard b.
Proof.
  unfold no_wildcard. rewrite !mem_app.
  destruct (Str.mem "*" a), (Str.mem "*" b), (Str.mem "?" a), (Str.mem "?" b);
    reflexivity.
Qed.

(** X5. A rule that ends with a slash is a directory rule: it never
    excludes a path that is not a directory, and the rule made of a
    directory's own base name and a slash excludes that directory. *)
Theorem X5_directory_rules fullPath rule :
  (ends_with_slash rule = true -> shouldIgnore fullPath false [rule] = false) /\
  (no_wildcard (Path.basename fullPath) = true ->
   shouldIgnore fullPath true [Path.basename fullPath +:+ "/"] = true).
Proof.
  split.
  - intros [p ->]%endsWith_iff. unfold shouldIgnore. cbn [existsb andb].
    rewrite !orb_false_r. apply not_true_is_false. intros H.
    apply fnmatch_sound in H.
    apply glob_slash_pattern with (p := p) in H; [|reflexivity].
    by rewrite basename_no_slash in H.
  - intros Hb. unfold shouldIgnore. cbn [existsb andb]. rewrite orb_false_r.
    apply orb_true_iff. right.
    apply fnmatch_literal_self. by rewrite no_wildcard_app, Hb.
Qed.

Lemma X5_directory_rules_witness :
  shouldIgnore "/r/build" false ["build/"] = false /\
  shouldIgnore "/r/build" true ["build/"] = true.
Proof.
  split.
  - by apply (X5_directory_rules "/r/build" "build/").
  - by apply (X5_directory_rules "/r/build" "build/").
Defined.

End IgnoreRules.

(** ** Rule files *)

Section RuleFiles.

Lemma trimStart_head s : head_not_space (Str.trimStart s) = true.
Proof.
  induction s as [|c s IH]; [reflexivity|]. cbn [Str.trimStart].
  destruct (Str.is_space c) eqn:E; [exact IH|]. cbn. by rewrite E.
Qed.

Lemma trimStart_suffix s : exists w, s = w +:+ Str.trimStart s.
Proof.
  induction s as [|c s [w IH]]; [by exists EmptyString|]. cbn [Str.trimStart].
  destruct (Str.is_space c).
  - exists (String c w). change (String c s = String c (w +:+ Str.trimStart s)).
    by rewrite <- IH.
  - by exists EmptyString.
Qed.

Lemma head_not_space_prefix x y :
  head_not_space (x +:+ y) = true -> head_not_space x = true.
Proof. by destruct x. Qed.

Lemma trim_no_outer_space s : no_outer_space (Str.trim s) = true.
Proof.
  unfold no_outer_space, Str.trim. rewrite rev_involutive, trimStart_head, andb_true_r.
  destruct (trimStart_suffix (Str.rev (Str.trimStart s))) as [w Hw].
  apply (f_equal Str.rev) in Hw. rewrite rev_involutive, rev_app in Hw.
  apply (head_not_space_prefix _ (Str.rev w)). rewrite <- Hw. apply trimStart_head.
Qed.

(** X6. The rules [readGitignore] returns are never empty, never start
    with [#] and carry no white space at either end; a directory without
    a [.gitignore] gives no rule and is not read, and a [.gitignore] that
    cannot be read (a directory of that name, a failing read) gives no
    rule either. *)
Theorem X6_readGitignore dir entries st :
  Forall (fun rule => rule <> EmptyString /\
                      Str.startsWith "#" rule = false /\
                      no_outer_space rule = true)
         (readGitignore dir entries st).1 /\
  (lookup_entry ".gitignore" entries = None ->
   readGitignore dir entries st = ([], st)) /\
  (forall n, lookup_entry ".gitignore" entries = Some n ->
     (forall f content, n = File f -> f_read f <> ReadOk content) ->
     (readGitignore dir entries st).1 = []).
Proof.
  split; [|split].
  - unfold readGitignore.
    destruct (lookup_entry ".gitignore" entries) as [[f|es]|]; cbn [fst];
      try constructor.
    destruct (f_read f) as [content| |]; try constructor.
    unfold gitignore_lines. apply Forall_forall. intros rule Hin.
    apply list_elem_of_In, filter_In in Hin as [Hin Hkeep].
    apply andb_true_iff in Hkeep as [Hne Hc].
    apply in_map_iff in Hin as (line & <- & _).
    repeat split.
    + intros E. by rewrite E in Hne.
    + by apply negb_true_iff in Hc.
    + apply trim_no_outer_space.
  - intros H. unfold readGitignore. by rewrite H.
  - intros n Hn Hbad. unfold readGitignore. rewrite Hn. cbn [fst].
    destruct n as [f|es]; [|reflexivity].
    destruct (f_read f) as [content| |] eqn:E; try reflexivity.
    by destruct (Hbad f content eq_refl).
Qed.

Lemma X6_readGitignore_witness :
  readGitignore "/r" [("a.txt", File (text_file "A"))] (initial_state []) =
    ([], initial_state []) /\
  (readGitignore "/r" [(".gitignore", Dir [])] (initial_state [])).1 = [].
Proof.
  split.
  - by apply (X6_readGitignore "/r" [("a.txt", File (text_file "A"))]
                (initial_state [])).
  - destruct (X6_readGitignore "/r" [(".gitignore", Dir [])] (initial_state []))
      as (_ & _ & H).
    apply (H (Dir [])); [reflexivity|]. intros f content Hf. discriminate Hf.
Defined.

Example gitignore_lines_example :
  gitignore_lines
    ("# build output" +:+ Str.nl +:+ "  dist/  " +:+ Str.nl +:+ Str.nl +:+
     "*.log" +:+ Str.single Str.CR +:+ Str.nl +:+ "   #x" +:+ Str.nl)
  = ["dist/"; "*.log"].
Proof. reflexivity. Qed.

End RuleFiles.

(** ** More on the binary detector *)

Section BinaryMore.

Lemma non_text_count_text sample :
  Forall (fun b => text_byte b = true) sample -> non_text_count sample = 0.
Proof.
  unfold non_text_count, text_byte.
  induction 1 as [|b l Hb _ IH]; [reflexivity|]. cbn [List.filter].
  apply negb_true_iff in Hb. by rewrite Hb.
Qed.

Lemma non_text_count_high sample :
  Forall (fun b => (128 <= Byte.to_N b)%N) sample ->
  non_text_count sample = length sample.
Proof.
  unfold non_text_count.
  induction 1 as [|b l Hb _ IH]; [reflexivity|]. cbn [List.filter].
  assert (suspicious_byte (Byte.to_N b) = true) as ->.
  { unfold suspicious_byte. apply orb_true_iff. right. apply N.ltb_lt. lia. }
  cbn [length]. by rewrite IH.
Qed.

(** X7. [isBinaryBuffer] looks at the first 512 bytes only; a sample
    whose bytes all lie in the text range (7 to 13, 32 to 127) is never
    binary, the empty buffer included, and a non-empty sample made of
    bytes from 128 on always is. *)
Theorem X7_isBinaryBuffer buf buf' :
  (take 512 buf = take 512 buf' -> isBinaryBuffer buf = isBinaryBuffer buf') /\
  (Forall (fun b => text_byte b = true) (take 512 buf) ->
   isBinaryBuffer buf = false) /\
  (buf <> [] -> Forall (fun b => (128 <= Byte.to_N b)%N) (take 512 buf) ->
   isBinaryBuffer buf = true) /\
  isBinaryBuffer [] = false.
Proof.
  split; [|split; [|split]].
  - unfold isBinaryBuffer. by intros ->.
  - intros Htext. apply not_true_is_false. intros H.
    apply isBinaryBuffer_spec in H. cbv zeta in H.
    rewrite non_text_count_text in H by exact Htext.
    destruct H as [H|H]; [|lia].
    apply (proj1 (Forall_forall _ _) Htext) in H. discriminate H.
  - intros Hne Hhigh. apply isBinaryBuffer_spec. cbv zeta. right.
    rewrite non_text_count_high by exact Hhigh.
    destruct buf; [congruence|]. cbn. lia.
  - reflexivity.
Qed.

Lemma X7_isBinaryBuffer_witness :
  isBinaryBuffer (String.list_byte_of_string "plain text") = false /\
  isBinaryBuffer [Byte.xe4; Byte.xbd; Byte.xa0] = true.
Proof.
  split.
  - destruct (X7_isBinaryBuffer (String.list_byte_of_string "plain text") [])
      as (_ & Htext & _).
    apply Htext. cbn. repeat constructor.
  - destruct (X7_isBinaryBuffer [Byte.xe4; Byte.xbd; Byte.xa0] [])
      as (_ & _ & Hhigh & _).
    apply Hhigh; [discriminate|]. cbn. repeat constructor; cbn; lia.
Defined.

End BinaryMore.

(** ** More on lines *)

Section LinesMore.

Lemma string_drop_app a b : string_drop (String.length a) (a +:+ b) = b.
Proof. induction a as [|c a IH]; [by destruct b|exact IH]. Qed.

Lemma number_line_drop w i line :
  String.length (Str.padStart w (Str.of_nat (i + 1))) = w ->
  string_drop (w + 2) (number_line w i line) = line.
Proof.
  intros Hw. unfold number_line.
  replace (w + 2) with (String.length (Str.padStart w (Str.of_nat (i + 1)) +:+ "  "))
    by (rewrite app_length, Hw; reflexivity).
  rewrite StrFacts.app_assoc. apply string_drop_app.
Qed.

(** X8. Line numbering can be undone: the numbered text has as many
    lines as the content, and cutting the first [width + 2] characters
    off each of them gives the lines of the content back, [width] being
    the number of digits of the line count. *)
Theorem X8_addLineNumbers_round_trip content :
  let lines := Str.split Str.LF content in
  let width := String.length (Str.of_nat (length lines)) in
  length (Str.split Str.LF (addLineNumbers content)) = length lines /\
  List.map (string_drop (width + 2)) (Str.split Str.LF (addLineNumbers content))
    = lines /\
  Str.join Str.nl
    (List.map (string_drop (width + 2))
       (Str.split Str.LF (addLineNumbers content))) = content.
Proof.
  intros lines width.
  assert (Hsplit : Str.split Str.LF (addLineNumbers content) =
                   imap (number_line width) lines).
  { rewrite addLineNumbers_unfold. apply split_join.
    - pose proof (split_nonempty Str.LF content) as Hne. subst lines.
      destruct (Str.split Str.LF content); [contradiction|discriminate].
    - apply (imap_no_LF width), split_lines_no_sep. }
  assert (Hmap : List.map (string_drop (width + 2)) (imap (number_line width) lines)
                 = lines).
  { apply list_eq. intros i. rewrite list_lookup_fmap, list_lookup_imap.
    destruct (lines !! i) as [line|] eqn:E; [|reflexivity]. cbn. f_equal.
    apply number_line_drop, padStart_length, of_nat_length_mono.
    apply lookup_lt_Some in E. subst width. lia. }
  rewrite Hsplit, Hmap. split; [by rewrite length_imap|]. split; [reflexivity|].
  apply join_split.
Qed.

Lemma split_length sep s :
  length (Str.split sep s) = 1 + count_char sep s.
Proof.
  induction s as [|c s IH]; [reflexivity|]. cbn [Str.split count_char].
  destruct (Ascii.eqb c sep); cbn [length]; [by rewrite IH|].
  pose proof (split_nonempty sep s).
  destruct (Str.split sep s); [contradiction|]. exact IH.
Qed.

(** X9. [writeMultiLine] hands the writer one line more than the content
    has newlines, none of which holds a newline, and joined by newlines
    they are the content; nothing else of the state changes. *)
Theorem X9_writeMultiLine content st :
  exists lines,
    out (writeMultiLine content st) = out st ++ lines /\
    Str.join Str.nl lines = content /\
    length lines = 1 + count_char Str.LF content /\
    Forall (fun l => Str.mem Str.LF l = false) lines /\
    globalIndex (writeMultiLine content st) = globalIndex st /\
    count (writeMultiLine content st) = count st /\
    err (writeMultiLine content st) = err st /\
    log (writeMultiLine content st) = log st.
Proof.
  exists (Str.split Str.LF content). rewrite writeMultiLine_eq. cbn.
  repeat split; auto using join_split, split_length, split_lines_no_sep.
Qed.

End LinesMore.

(** ** Paths from standard input *)

Section Stdin.

Lemma split_spaces_from_nonempty b s : split_spaces_from b s <> [].
Proof.
  revert b. induction s as [|c s IH]; intros b; cbn; [discriminate|].
  destruct (Str.is_space c).
  - destruct b; [apply IH|discriminate].
  - destruct (split_spaces_from false s); discriminate.
Qed.

Lemma split_spaces_from_space_free s : forall b,
  Forall (fun t => space_free t = true) (split_spaces_from b s).
Proof.
  induction s as [|c s IH]; intros b; cbn [split_spaces_from].
  - repeat constructor.
  - destruct (Str.is_space c) eqn:E.
    + destruct b; [apply IH|constructor; [reflexivity|apply IH]].
    + specialize (IH false).
      destruct (split_spaces_from false s) as [|l ls];
        [repeat constructor; cbn; by rewrite E|].
      inversion IH; subst. constructor; [|assumption]. cbn. by rewrite E.
Qed.

Lemma not_blank_nonempty p : not_blank p = true -> p <> EmptyString.
Proof. by intros H ->. Qed.

Lemma space_free_head s : space_free s = true -> head_not_space s = true.
Proof. destruct s; [reflexivity|]. cbn. by intros [? _]%andb_true_iff. Qed.

Lemma space_free_app a b : space_free (a +:+ b) = space_free a && space_free b.
Proof.
  induction a as [|c a IH]; [reflexivity|].
  change (space_free (String c (a +:+ b)) = space_free (String c a) && space_free b).
  cbn [space_free]. rewrite IH. apply andb_assoc.
Qed.

Lemma space_free_rev s : space_free (Str.rev s) = space_free s.
Proof.
  induction s as [|c s IH]; [reflexivity|].
  rewrite rev_cons, space_free_app, IH. cbn. rewrite andb_true_r. apply andb_comm.
Qed.

Lemma trimStart_id s : head_not_space s = true -> Str.trimStart s = s.
Proof. destruct s as [|c s]; [reflexivity|]. cbn. by intros ->%negb_true_iff. Qed.

(** Trimming leaves alone what has no white space at either end. *)
Lemma trim_id s : no_outer_space s = true -> Str.trim s = s.
Proof.
  unfold no_outer_space, Str.trim. intros [H1 H2]%andb_true_iff.
  rewrite (trimStart_id s H1), (trimStart_id _ H2). apply rev_involutive.
Qed.

Lemma word_not_blank n : word n = true -> not_blank n = true.
Proof.
  unfold word, not_blank. intros [Hne Hfree]%andb_true_iff.
  rewrite trim_id; [exact Hne|].
  unfold no_outer_space. rewrite !space_free_head; auto.
  by rewrite space_free_rev.
Qed.

Lemma split_spaces_word n s :
  space_free n = true ->
  split_spaces_from false (n +:+ s) =
  match split_spaces_from false s with
  | [] => [n]
  | l :: ls => (n +:+ l) :: ls
  end.
Proof.
  induction n as [|c n IH]; intros Hfree.
  - change (EmptyString +:+ s) with s.
    pose proof (split_spaces_from_nonempty false s).
    by destruct (split_spaces_from false s).
  - cbn [space_free] in Hfree. apply andb_true_iff in Hfree as [Hc Hfree].
    apply negb_true_iff in Hc.
    change (String c n +:+ s) with (String c (n +:+ s)).
    cbn [split_spaces_from]. rewrite Hc, IH by exact Hfree.
    pose proof (split_spaces_from_nonempty false s).
    by destruct (split_spaces_from false s).
Qed.

Lemma split_spaces_after_space s :
  head_not_space s = true ->
  split_spaces_from true s = split_spaces_from false s.
Proof.
  destruct s as [|c s]; [reflexivity|]. cbn. by intros ->%negb_true_iff.
Qed.

Lemma join_words_head names :
  names <> [] -> Forall (fun n => word n = true) names ->
  head_not_space (Str.join " " names) = true.
Proof.
  intros Hne Hall. destruct Hall as [|n l Hn Hl]; [congruence|].
  apply andb_true_iff in Hn as [Hn Hfree].
  destruct n as [|c n]; [discriminate|].
  cbn in Hfree. apply andb_true_iff in Hfree as [Hc _].
  destruct l; cbn; exact Hc.
Qed.

Lemma join_words_last names :
  names <> [] -> Forall (fun n => word n = true) names ->
  head_not_space (Str.rev (Str.join " " names)) = true.
Proof.
  intros Hne Hall. induction Hall as [|n l Hn Hl IH]; [congruence|].
  apply andb_true_iff in Hn as [Hn Hfree].
  destruct l as [|n2 l].
  - cbn [Str.join]. apply space_free_head. by rewrite space_free_rev.
  - change (Str.join " " (n :: n2 :: l))
      with (n +:+ " " +:+ Str.join " " (n2 :: l)).
    rewrite !rev_app.
    specialize (IH ltac:(discriminate)).
    destruct (Str.rev (Str.join " " (n2 :: l))) as [|c r] eqn:E; [|exact IH].
    apply (f_equal Str.rev) in E. rewrite rev_involutive in E.
    inversion Hl as [|? ? Hn2 _]; subst.
    apply andb_true_iff in Hn2 as [Hn2 _].
    destruct n2; [discriminate|]. destruct l; discriminate E.
Qed.

Lemma split_spaces_join names :
  names <> [] -> Forall (fun n => word n = true) names ->
  split_spaces (Str.join " " names) = names.
Proof.
  unfold split_spaces. intros Hne Hall.
  induction Hall as [|n l Hn Hl IH]; [congruence|].
  apply andb_true_iff in Hn as [Hn Hfree].
  destruct l as [|n2 l].
  - cbn [Str.join]. rewrite <- (app_empty_r n) at 1.
    rewrite split_spaces_word by exact Hfree. cbn. by rewrite app_empty_r.
  - change (Str.join " " (n :: n2 :: l))
      with (n +:+ String " " (Str.join " " (n2 :: l))).
    rewrite split_spaces_word by exact Hfree.
    cbn [split_spaces_from]. change (Str.is_space " ") with true. cbn [andb].
    rewrite split_spaces_after_space
      by (apply join_words_head; [discriminate|assumption]).
    rewrite IH by discriminate. by rewrite app_empty_r.
Qed.

Lemma filter_all {A} (f : A -> bool) l :
  Forall (fun x => f x = true) l -> List.filter f l = l.
Proof. induction 1 as [|x l Hx _ IH]; cbn; [reflexivity|]. by rewrite Hx, IH. Qed.

Lemma split_nul_terminated names :
  Forall (fun n => Str.mem NUL n = false) names ->
  Str.split NUL (nul_terminated names) = names ++ [EmptyString].
Proof.
  induction 1 as [|n l Hn _ IH]; [reflexivity|]. cbn [nul_terminated fold_right].
  fold (nul_terminated l). rewrite split_app, IH, (split_no_sep _ n Hn).
  reflexivity.
Qed.

(** X10. [readPathsFromStdin] returns nothing on a terminal.  Otherwise
    every path it returns is non-blank; read by white space the paths
    hold no white space, read by NUL they hold no NUL.  Names without
    white space joined by single blanks are read back as given, and so
    are the names of a NUL-terminated list, non-blank and NUL-free,
    whatever white space they hold. *)
Theorem X10_readPathsFromStdin data useNull names :
  readPathsFromStdin true data useNull = [] /\
  Forall (fun p => p <> EmptyString /\ not_blank p = true /\
                   (if useNull then Str.mem NUL p = false
                    else space_free p = true))
         (readPathsFromStdin false data useNull) /\
  (Forall (fun n => word n = true) names ->
   readPathsFromStdin false (Str.join " " names) false = names) /\
  (Forall (fun n => not_blank n = true /\ Str.mem NUL n = false) names ->
   readPathsFromStdin false (nul_terminated names) true = names).
Proof.
  split; [reflexivity|]. split; [|split].
  - unfold readPathsFromStdin. apply Forall_forall. intros p Hin.
    destruct useNull; apply list_elem_of_In, filter_In in Hin as [Hin Hnb];
      (split; [by apply not_blank_nonempty|split; [exact Hnb|]]).
    + pose proof (split_lines_no_sep NUL data) as Hall.
      apply (proj1 (Forall_forall _ _) Hall). by apply list_elem_of_In.
    + pose proof (split_spaces_from_space_free (Str.trim data) false) as Hall.
      apply (proj1 (Forall_forall _ _) Hall). by apply list_elem_of_In.
  - intros Hall. unfold readPathsFromStdin.
    destruct names as [|n l]; [reflexivity|].
    rewrite trim_id.
    + rewrite split_spaces_join by (discriminate || assumption).
      apply filter_all. eapply Forall_impl; [exact Hall|].
      intros x. apply word_not_blank.
    + unfold no_outer_space.
      rewrite join_words_head, join_words_last by (discriminate || assumption).
      reflexivity.
  - intros Hall. unfold readPathsFromStdin.
    rewrite split_nul_terminated
      by (eapply Forall_impl; [exact Hall|]; by intros x [_ ?]).
    rewrite List.filter_app. cbn. rewrite app_nil_r.
    apply filter_all. eapply Forall_impl; [exact Hall|]. by intros x [? _].
Qed.

Lemma X10_readPathsFromStdin_witness :
  readPathsFromStdin false (Str.join " " ["src"; "README.md"]) false =
    ["src"; "README.md"] /\
  readPathsFromStdin false (nul_terminated ["my notes.txt"; "a b"]) true =
    ["my notes.txt"; "a b"].
Proof.
  split.
  - apply (X10_readPathsFromStdin EmptyString false ["src"; "README.md"]).
    repeat constructor.
  - apply (X10_readPathsFromStdin EmptyString false ["my notes.txt"; "a b"]).
    repeat constructor.
Defined.

Example readPathsFromStdin_examples :
  readPathsFromStdin false ("  a.txt" +:+ Str.nl +:+ "b.txt  c d" +:+ Str.nl) false
    = ["a.txt"; "b.txt"; "c"; "d"] /\
  readPathsFromStdin false "   " false = [].
Proof. split; reflexivity. Qed.

End Stdin.

(** ** More on Markdown fences *)

Section FenceMore.

Lemma startsWith_repeat c k : forall s,
  Str.startsWith (Str.repeat c k) s = (k <=? lead c s)%nat.
Proof.
  induction k as [|k IH]; intros s; [reflexivity|].
  destruct s as [|d s]; [reflexivity|]. cbn [Str.repeat Str.startsWith lead].
  rewrite (Ascii.eqb_sym c d). destruct (Ascii.eqb d c); [apply IH|reflexivity].
Qed.

(** A run of [k] characters [c] occurs in [s] exactly when the longest
    run of [c] in [s] has at least that length. *)
Lemma includes_repeat c k : forall s,
  Str.includes (Str.repeat c k) s = (k <=? longest_run c s)%nat.
Proof.
  induction s as [|d s IH].
  - cbn [Str.includes longest_run]. rewrite startsWith_repeat, orb_false_r.
    reflexivity.
  - cbn [Str.includes longest_run]. rewrite startsWith_repeat, IH.
    destruct (Nat.leb_spec k (lead c (String d s))),
      (Nat.leb_spec k (longest_run c s)),
      (Nat.leb_spec k (Nat.max (lead c (String d s)) (longest_run c s)));
      try reflexivity; lia.
Qed.

Lemma lead_app_other c d a b :
  d <> c -> lead c (a +:+ String d b) = lead c a.
Proof.
  intros Hd. induction a as [|x a IH].
  - change (lead c (String d b) = 0). cbn.
    by destruct (Ascii.eqb_spec d c).
  - change (lead c (String x (a +:+ String d b)) = lead c (String x a)).
    cbn [lead]. by rewrite IH.
Qed.

(** A character other than [c] cuts the runs of [c]. *)
Lemma longest_run_app_other c d a b :
  d <> c ->
  longest_run c (a +:+ String d b) = Nat.max (longest_run c a) (longest_run c b).
Proof.
  intros Hd. induction a as [|x a IH].
  - change (longest_run c (String d b) = Nat.max 0 (longest_run c b)).
    cbn [longest_run lead]. by destruct (Ascii.eqb_spec d c).
  - change (longest_run c (String x (a +:+ String d b)) =
            Nat.max (longest_run c (String x a)) (longest_run c b)).
    cbn [longest_run]. rewrite IH.
    change (String x (a +:+ String d b)) with (String x a +:+ String d b).
    rewrite lead_app_other by exact Hd. lia.
Qed.

Lemma longest_run_absent c s : Str.mem c s = false -> longest_run c s = 0.
Proof.
  induction s as [|d s IH]; [reflexivity|]. cbn [Str.mem longest_run lead].
  intros [Hd Hs]%orb_false_iff. rewrite Ascii.eqb_sym in Hd. rewrite Hd, IH; auto.
Qed.

Lemma longest_run_join c ls :
  c <> Str.LF ->
  longest_run c (Str.join Str.nl ls) =
  foldr Nat.max 0 (List.map (longest_run c) ls).
Proof.
  intros Hc. induction ls as [|l ls IH]; [reflexivity|].
  destruct ls as [|l2 ls].
  - cbn. lia.
  - change (Str.join Str.nl (l :: l2 :: ls))
      with (l +:+ String Str.LF (Str.join Str.nl (l2 :: ls))).
    rewrite longest_run_app_other by congruence. rewrite IH. reflexivity.
Qed.

Lemma backtick_not_in_number n : Str.mem Str.backtick (Str.of_nat n) = false.
Proof. unfold Str.of_nat. induction (Nat.to_uint n); cbn; auto. Qed.

Lemma backtick_not_in_spaces n : Str.mem Str.backtick (Str.repeat " " n) = false.
Proof. induction n; cbn; auto. Qed.

Lemma longest_run_number_line w i line :
  longest_run Str.backtick (number_line w i line) = longest_run Str.backtick line.
Proof.
  unfold number_line.
  change ("  " +:+ line) with (String " " (String " " line)).
  rewrite longest_run_app_other by discriminate.
  rewrite longest_run_absent.
  - change (String " " line) with (EmptyString +:+ String " " line).
    rewrite longest_run_app_other by discriminate. reflexivity.
  - unfold Str.padStart.
    by rewrite mem_app, backtick_not_in_spaces, backtick_not_in_number.
Qed.

(** Line numbering neither makes nor breaks a run of backticks. *)
Lemma longest_run_addLineNumbers content :
  longest_run Str.backtick (addLineNumbers content) =
  longest_run Str.backtick content.
Proof.
  rewrite addLineNumbers_unfold.
  rewrite <- (join_split content) at 3.
  rewrite !longest_run_join by discriminate. f_equal.
  apply list_eq. intros i. rewrite !list_lookup_fmap, list_lookup_imap.
  destruct (Str.split Str.LF content !! i); [|reflexivity]. cbn.
  by rewrite longest_run_number_line.
Qed.

(** X11. The fence of [printAsMarkdown] is a run of at least three
    backticks that does not occur in the content, and the shortest such
    run: every run of three or more backticks that is shorter occurs in
    the content.  Its length is one more than the longest run of
    backticks of the content, or three. *)
Theorem X11_fence_shortest content :
  3 <= fence_length content /\
  Str.includes (fence content) content = false /\
  (forall j, 3 <= j < fence_length content ->
     Str.includes (Str.repeat Str.backtick j) content = true) /\
  fence_length content = Nat.max 3 (S (longest_run Str.backtick content)).
Proof.
  destruct (fence_shortest content) as [Hmin Hshort].
  pose proof (fence_length_exit content) as Hexit.
  repeat split; auto.
  unfold fence in Hexit. rewrite includes_repeat in Hexit.
  apply Nat.leb_gt in Hexit.
  destruct (decide (fence_length content = 3)) as [E|E]; [lia|].
  specialize (Hshort (fence_length content - 1) ltac:(lia)).
  rewrite includes_repeat in Hshort. apply Nat.leb_le in Hshort. lia.
Qed.

Lemma X11_fence_shortest_witness :
  Str.includes (Str.repeat Str.backtick 3) "a ``` b" = true.
Proof.
  destruct (X11_fence_shortest "a ``` b") as (_ & _ & H & _).
  apply H. vm_compute. split; lia.
Defined.

(** X12. The fence is computed before the lines are numbered, and still
    it does not occur in what is written between the two fences: with or
    without line numbers, no content line of [printAsMarkdown] holds the
    fence. *)
Theorem X12_fence_not_in_written_lines filePath content lineNumbers st :
  Str.includes (fence content) (numbered lineNumbers content) = false /\
  exists lines,
    out (printAsMarkdown filePath content lineNumbers st) =
      out st ++ [filePath; fence content +:+ language_tag filePath] ++
      lines ++ [fence content] /\
    Forall (fun l => Str.includes (fence content) l = false) lines.
Proof.
  assert (Hnum : Str.includes (fence content) (numbered lineNumbers content) = false).
  { pose proof (fence_length_exit content) as Hexit. unfold fence in *.
    rewrite includes_repeat in *. unfold numbered.
    destruct lineNumbers; [|exact Hexit].
    by rewrite longest_run_addLineNumbers. }
  split; [exact Hnum|].
  exists (Str.split Str.LF (numbered lineNumbers content)).
  split; [apply printAsMarkdown_out|].
  unfold fence in *. rewrite includes_repeat in Hnum. apply Nat.leb_gt in Hnum.
  rewrite <- (join_split (numbered lineNumbers content)) in Hnum.
  rewrite longest_run_join in Hnum by discriminate.
  induction (Str.split Str.LF (numbered lineNumbers content)) as [|l ls IH];
    [constructor|].
  cbn [List.map foldr] in Hnum. constructor.
  - rewrite includes_repeat. apply Nat.leb_gt. lia.
  - apply IH. lia.
Qed.

End FenceMore.

(** ** More on language tags and JSON lines *)

Section TagsAndJson.

Lemma EXT_TO_LANG_values ext lang :
  EXT_TO_LANG !! ext = Some lang -> lang <> EmptyString.
Proof.
  unfold EXT_TO_LANG. intros H.
  apply elem_of_list_to_map_2 in H.
  repeat (apply elem_of_cons in H as [H|H]; [by simplify_eq|]).
  by apply elem_of_nil in H.
Qed.

(** X13. The language annotation of [printAsMarkdown] is the entry of
    the table for the lower-cased extension of the path; without an
    entry it is empty, except for the extensions [constructor] and
    [__proto__]. *)
Theorem X13_language_tag filePath :
  (forall lang, EXT_TO_LANG !! lookup_extension filePath = Some lang ->
     language_tag filePath = lang) /\
  (EXT_TO_LANG !! lookup_extension filePath = None ->
   lookup_extension filePath <> "constructor" ->
   lookup_extension filePath <> "__proto__" ->
   language_tag filePath = EmptyString).
Proof.
  split.
  - intros lang H. apply language_tag_known; [exact H|].
    by eapply EXT_TO_LANG_values.
  - apply language_tag_unknown.
Qed.

Lemma X13_language_tag_witness :
  language_tag "src/Main.TS" = "typescript" /\
  language_tag "Makefile" = EmptyString.
Proof.
  split.
  - by apply (X13_language_tag "src/Main.TS").
  - by apply (X13_language_tag "Makefile").
Defined.

Lemma no_control_app a b : no_control (a +:+ b) = no_control a && no_control b.
Proof.
  induction a as [|c a IH]; [reflexivity|].
  change (no_control (String c (a +:+ b)) = no_control (String c a) && no_control b).
  cbn [no_control]. rewrite IH. apply andb_assoc.
Qed.

Lemma json_escape_char_no_control c : no_control (json_escape_char c) = true.
Proof. destruct c as [[] [] [] [] [] [] [] []]; reflexivity. Qed.

Lemma json_escape_no_control s : no_control (json_escape s) = true.
Proof.
  induction s as [|c s IH]; [reflexivity|]. cbn [json_escape].
  by rewrite no_control_app, json_escape_char_no_control, IH.
Qed.

Lemma of_nat_no_control n : no_control (Str.of_nat n) = true.
Proof. unfold Str.of_nat. induction (Nat.to_uint n); cbn; auto. Qed.

Lemma json_quote_no_control s : no_control (json_quote s) = true.
Proof.
  unfold json_quote. by rewrite !no_control_app, json_escape_no_control.
Qed.

Lemma json_document_no_control index source content :
  no_control (json_document index source content) = true.
Proof.
  unfold json_document.
  by rewrite !no_control_app, !json_quote_no_control, of_nat_no_control.
Qed.

(** X14. [printAsJson] writes exactly one line per document, and that
    line holds no control character, so no line break, however many
    lines the path or the content have; it advances the index by one. *)
Theorem X14_printAsJson_one_line filePath content lineNumbers st :
  exists line,
    out (printAsJson filePath content lineNumbers st) = out st ++ [line] /\
    no_control line = true /\
    Str.mem Str.LF line = false /\
    globalIndex (printAsJson filePath content lineNumbers st) = globalIndex st + 1.
Proof.
  exists (json_document (globalIndex st) filePath (numbered lineNumbers content)).
  pose proof (json_document_no_control (globalIndex st) filePath
                (numbered lineNumbers content)) as Hnc.
  repeat split; auto.
  clear -Hnc. induction (json_document _ _ _) as [|c s IH]; [reflexivity|].
  cbn [no_control Str.mem] in *. apply andb_true_iff in Hnc as [Hc Hs].
  rewrite (IH Hs), orb_false_r.
  destruct (Ascii.eqb_spec Str.LF c) as [<-|]; [discriminate Hc|reflexivity].
Qed.

Example json_line_example :
  json_document 1 "a.txt" ("x" +:+ Str.nl +:+ "y") =
  "{" +:+ json_quote "index" +:+ ":1," +:+ json_quote "source" +:+ ":" +:+
  json_quote "a.txt" +:+ "," +:+ json_quote "content" +:+ ":" +:+
  Str.single Str.dquote +:+ "x\ny" +:+ Str.single Str.dquote +:+ "}".
Proof. reflexivity. Qed.

End TagsAndJson.

(** ** The hidden policy and the extension filter over a walk *)

Section WalkFilters.

Lemma trace_ok_Forall (Q : event -> Prop) k : forall evs rules c,
  trace_ok (fun _ _ => Q) k rules c evs -> Forall Q evs.
Proof.
  induction evs as [|e evs IH]; intros rules c; [constructor|].
  cbn [trace_ok]. intros [He Hrest]. constructor; [exact He|by eapply IH].
Qed.

(** X15. Whatever the tree, [walkDir] enumerates below its starting
    point only directories that pass the hidden policy, and opens,
    measures, reads or emits only files that pass the hidden policy and
    the extension filter; the one exception is the rule file
    [.gitignore], which is read although its name is hidden. *)
Theorem X15_walk_respects_filters cfg top n st :
  names_ok valid_name n = true ->
  exists new,
    log (walkDir cfg top n st) = log st ++ new /\
    Forall (filters_respected cfg top) new.
Proof.
  intros Hok.
  destruct (walkDir_extends cfg valid_name
              (fun _ _ q => passes_hidden cfg (Path.basename q) = true /\
                            passes_extensions cfg (Path.basename q) = true)
              (fun d => d = top \/ passes_hidden cfg (Path.basename d) = true))
    with (n := n) (root := top) (st := st)
    as (new & Hlog & _ & _ & _ & Htrace).
  - intros root name rules c Hv Hh He _ _ _ _. by rewrite basename_join.
  - intros root name Hv Hh _ _. right. by rewrite basename_join.
  - exact Hok.
  - by left.
  - exists new. split; [exact Hlog|].
    apply (trace_ok_Forall _ (has_counter cfg) new (gitignoreRules st) (count st)).
    revert Htrace. apply trace_ok_impl. intros rules c e He. by destruct e.
Qed.

Lemma X15_walk_respects_filters_witness :
  exists new,
    log (walkDir visible_ts_config "src" mixed_tree (initial_state [])) = new /\
    Forall (filters_respected visible_ts_config "src") new.
Proof.
  destruct (X15_walk_respects_filters visible_ts_config "src" mixed_tree
              (initial_state [])) as (new & Hlog & Hall).
  - vm_compute. reflexivity.
  - exists new. split; [exact Hlog|exact Hall].
Defined.

Example walk_filters_example :
  emitted_paths (log (walkDir visible_ts_config "src" mixed_tree (initial_state [])))
  = ["src/a.ts"; "src/lib/d.ts"].
Proof. vm_compute. reflexivity. Qed.

End WalkFilters.

(** ** A relation that every step of a walk keeps *)

Section WalkFrame.

Variable cfg : config.
Variable R : state -> state -> Prop.

Hypothesis R_refl : forall st, R st st.
Hypothesis R_trans : forall a b c, R a b -> R b c -> R a c.
Hypothesis R_readdir : forall d st, R st (record (EvReaddir d) st).
Hypothesis R_rules : ig cfg = None -> ignoreGitignore cfg = false ->
  forall path rules st, R st (record (EvReadRules path rules) st).
Hypothesis R_push : ig cfg = None -> ignoreGitignore cfg = false ->
  forall rules st, R st (push_rules rules st).
Hypothesis R_file : forall filePath f st, R st (process_file cfg filePath f st).

Lemma walk_files_frame root files : forall st,
  R st (walk_files cfg root files st).1.
Proof.
  induction files as [|[name f] files IH]; intros st; cbn [walk_files].
  - apply R_refl.
  - destruct (limit_reached cfg st); [apply R_refl|].
    eapply R_trans; [apply R_file|apply IH].
Qed.

Lemma gitignore_stage_frame root entries st :
  R st (gitignore_stage cfg root entries st).2.
Proof.
  unfold gitignore_stage. destruct (ig cfg) eqn:Hig; [apply R_refl|].
  set (st1 := if ignoreGitignore cfg then st else _).
  assert (H : R st st1).
  { subst st1. destruct (ignoreGitignore cfg) eqn:Hno; [apply R_refl|].
    unfold readGitignore. destruct (lookup_entry _ entries).
    - eapply R_trans; [by apply R_rules|by apply R_push].
    - by apply R_push. }
  by destruct (0 <? length (gitignoreRules st1))%nat.
Qed.

Lemma walkDir_frame : forall n root st, R st (walkDir cfg root n st).
Proof.
  induction n as [f|entries IH] using node_ind'; intros root st.
  { apply R_refl. }
  rewrite walkDir_Dir. cbv zeta.
  pose proof (gitignore_stage_frame root entries (record (EvReaddir root) st))
    as Hstage.
  destruct (gitignore_stage cfg root entries _) as [git st2]. cbn [snd] in Hstage.
  set (files := sort_by_name _).
  pose proof (walk_files_frame root files st2) as Hfiles.
  destruct (walk_files cfg root files st2) as [st3 returned]. cbn [fst] in Hfiles.
  assert (H3 : R st st3).
  { eapply R_trans; [apply R_readdir|]. eapply R_trans; eauto. }
  destruct returned; [exact H3|].
  eapply R_trans; [exact H3|]. clear Hstage Hfiles H3.
  unfold walk_subdirs. generalize st3.
  induction IH as [|[name d] es IHd _ IHes]; intros s; cbn [fold_left];
    [apply R_refl|].
  eapply R_trans; [|apply IHes]. cbn [fst snd].
  destruct (is_dir d && keep_dir cfg root git name); [apply IHd|apply R_refl].
Qed.

Lemma processPath_frame p target st : R st (processPath cfg p target st).
Proof.
  destruct target as [[f|entries]|]; cbn [processPath].
  - destruct (_ || _); [apply R_refl|apply R_file].
  - apply walkDir_frame.
  - apply R_refl.
Qed.

End WalkFrame.

(** ** What a run writes *)

Section Channels.

Variable cfg : config.

Lemma sniffed_app l1 l2 : sniffed (l1 ++ l2) = sniffed l1 + sniffed l2.
Proof. unfold sniffed. by rewrite List.filter_app, length_app. Qed.

Lemma effects_refl st : effects cfg st st.
Proof.
  exists [], [], []. rewrite !app_nil_r. cbn.
  repeat split; auto.
Qed.

Lemma effects_trans a b c :
  effects cfg a b -> effects cfg b c -> effects cfg a c.
Proof.
  intros (n1 & l1 & w1 & Hl1 & Ho1 & He1 & Hq1 & Hw1 & Hs1 & Hm1 & Hz1 & Hj1)
         (n2 & l2 & w2 & Hl2 & Ho2 & He2 & Hq2 & Hw2 & Hs2 & Hm2 & Hz2 & Hj2).
  exists (n1 ++ n2), (l1 ++ l2), (w1 ++ w2).
  rewrite Hl2, Hl1, Ho2, Ho1, He2, He1, !app_assoc.
  rewrite emitted_app, sniffed_app, !length_app.
  repeat split; auto.
  - intros Hq. by rewrite Hq1, Hq2.
  - by apply Forall_app.
  - lia.
  - lia.
  - intros Hz. rewrite Hz1, Hz2 by lia. reflexivity.
  - destruct (Hj1 H), (Hj2 H). lia.
  - destruct (Hj1 H), (Hj2 H). by apply Forall_app.
Qed.

Lemma effects_silent st st' :
  out st' = out st -> err st' = err st ->
  (exists new, log st' = log st ++ new /\ emitted new = 0) ->
  effects cfg st st'.
Proof.
  intros Ho He (new & Hl & Hn). exists new, [], [].
  rewrite !app_nil_r, Hn. cbn. repeat split; auto; lia.
Qed.

(** The lines one document takes. *)
Lemma printing_out displayPath content st :
  let st' :=
    if json cfg then printAsJson displayPath content (lineNumbers cfg) st
    else printPath displayPath content (cxml cfg) (markdown cfg)
                   (lineNumbers cfg) st in
  exists lines,
    out st' = out st ++ lines /\ 1 <= length lines /\
    (json cfg = true -> length lines = 1 /\ Forall json_line lines).
Proof.
  cbv zeta. unfold printPath. destruct (json cfg).
  { rewrite printAsJson_eq. eexists. cbn [out]. split; [reflexivity|].
    cbn. split; [lia|]. intros _. split; [reflexivity|].
    constructor; [|constructor]. unfold json_line. eauto. }
  destruct (cxml cfg); [|destruct (markdown cfg)].
  - rewrite printAsXml_eq. eexists. cbn [out]. split; [reflexivity|].
    unfold rendered. cbn. split; [lia|discriminate].
  - rewrite printAsMarkdown_eq. eexists. cbn [out]. split; [reflexivity|].
    cbn. split; [lia|discriminate].
  - rewrite printDefault_eq. eexists. cbn [out]. split; [reflexivity|].
    cbn. split; [lia|discriminate].
Qed.

Lemma emit_effects filePath content st :
  exists lines,
    out (emit cfg filePath content st) = out st ++ lines /\
    1 <= length lines /\
    (json cfg = true -> length lines = 1 /\ Forall json_line lines).
Proof.
  unfold emit.
  match goal with
  | |- context [if json cfg then printAsJson ?d ?c ?l ?s else _] =>
      destruct (printing_out d c s) as (lines & Ho & Hlen & Hj)
  end.
  exists lines. destruct (has_counter cfg); simpl_state; rewrite Ho; auto.
Qed.

Lemma err_emit filePath content st :
  err (emit cfg filePath content st) = err st.
Proof. apply emit_frame. Qed.

Lemma out_warn msg st : out (warn cfg msg st) = out st.
Proof. apply warn_frame. Qed.

Lemma err_warn msg st :
  err (warn cfg msg st) = err st ++ (if quiet cfg then [] else [msg]).
Proof. unfold warn. destruct (quiet cfg); [by rewrite app_nil_r|reflexivity]. Qed.

Lemma warning_messages filePath limit :
  is_warning (size_warning filePath limit) = true /\
  is_warning (encoding_warning filePath) = true.
Proof.
  unfold is_warning, size_warning, encoding_warning.
  split; apply startsWith_app.
Qed.

(** One file: opened at most once, then emitted, or warned about, or
    passed over in silence. *)
Lemma process_file_effects filePath f st :
  effects cfg st (process_file cfg filePath f st).
Proof.
  destruct (warning_messages filePath) with (limit := 0) as [_ Henc].
  assert (Hsize : forall limit, is_warning (size_warning filePath limit) = true)
    by (intros limit; apply warning_messages).
  unfold process_file, isBinaryFile.
  destruct (negb _ && bool_decide _); [apply effects_refl|].
  assert (Hwarn : forall pre msg s,
            log s = log st ++ EvSniff filePath :: pre -> emitted pre = 0 ->
            sniffed pre = 0 ->
            out s = out st -> err s = err st -> is_warning msg = true ->
            effects cfg st (warn cfg msg s)).
  { intros pre msg s Hl Hp Hs Ho He Hw.
    exists (EvSniff filePath :: pre), [], (if quiet cfg then [] else [msg]).
    rewrite log_warn, out_warn, err_warn, Hl, Ho, He, app_nil_r.
    change (emitted (EvSniff filePath :: pre)) with (emitted pre).
    change (sniffed (EvSniff filePath :: pre)) with (S (sniffed pre)).
    rewrite Hp, Hs. repeat split; auto.
    - by intros ->.
    - destruct (quiet cfg); repeat constructor. exact Hw.
    - destruct (quiet cfg); cbn; lia. }
  assert (Hskip : forall pre s,
            log s = log st ++ EvSniff filePath :: pre -> emitted pre = 0 ->
            out s = out st -> err s = err st -> effects cfg st s).
  { intros pre s Hl Hp Ho He. apply effects_silent; auto.
    exists (EvSniff filePath :: pre). split; [exact Hl|exact Hp]. }
  assert (Hemit : forall pre content s,
            log s = log st ++ EvSniff filePath :: pre -> emitted pre = 0 ->
            sniffed pre = 0 ->
            out s = out st -> err s = err st ->
            effects cfg st (emit cfg filePath content s)).
  { intros pre content s Hl Hp Hs Ho He.
    destruct (emit_effects filePath content s) as (lines & Hout & Hlen & Hj).
    exists (EvSniff filePath :: pre ++ [EvEmit filePath]), lines, [].
    rewrite log_emit, err_emit, Hout, Hl, Ho, He, app_nil_r, <- app_assoc.
    change (emitted (EvSniff filePath :: pre ++ [EvEmit filePath]))
      with (emitted (pre ++ [EvEmit filePath])).
    change (sniffed (EvSniff filePath :: pre ++ [EvEmit filePath]))
      with (S (sniffed (pre ++ [EvEmit filePath]))).
    rewrite emitted_app, sniffed_app, Hp, Hs. cbn.
    repeat split; auto; try lia.
    - destruct (Hj H); lia.
    - by destruct (Hj H). }
  destruct (f_bytes f) as [buf|]; [destruct (isBinaryBuffer _)|].
  { apply (Hskip []); reflexivity. }
  all: destruct (maxSize cfg) as [limit|];
    [destruct (f_size f) as [size|]; [destruct (limit <? size)%nat|]|].
  all: try (apply (Hwarn [EvStat filePath]); simpl_state;
            rewrite <- ?app_assoc; auto; fail).
  all: destruct (f_read f) as [content| |].
  all: first
    [ apply (Hemit [EvStat filePath; EvRead filePath]); simpl_state;
      rewrite <- ?app_assoc; reflexivity
    | apply (Hemit [EvRead filePath]); simpl_state;
      rewrite <- ?app_assoc; reflexivity
    | apply (Hskip [EvStat filePath; EvRead filePath]); simpl_state;
      rewrite <- ?app_assoc; reflexivity
    | apply (Hskip [EvRead filePath]); simpl_state;
      rewrite <- ?app_assoc; reflexivity
    | apply (Hwarn [EvStat filePath; EvRead filePath]); simpl_state;
      rewrite <- ?app_assoc; auto; fail
    | apply (Hwarn [EvRead filePath]); simpl_state;
      rewrite <- ?app_assoc; auto; fail ].
Qed.

Lemma processPath_effects p target st :
  effects cfg st (processPath cfg p target st).
Proof.
  apply processPath_frame.
  - apply effects_refl.
  - apply effects_trans.
  - intros d s. apply effects_silent; [reflexivity..|]. by exists [EvReaddir d].
  - intros _ _ path rules s. apply effects_silent; [reflexivity..|].
    by exists [EvReadRules path rules].
  - intros _ _ rules s. apply effects_silent; [reflexivity..|].
    exists []. by rewrite app_nil_r.
  - apply process_file_effects.
Qed.

End Channels.

Section ChannelClaims.

(** X16. Over a whole [processPath] call, whatever the target, nothing
    written is taken back; [console.error] gets nothing at all in quiet
    mode and otherwise only lines that start with
    [Warning: Skipping file]; a file that was opened is emitted or warned
    about, never both; and the writer gets lines only if a document was
    emitted, at least one per document. *)
Theorem X16_output_channels cfg p target st :
  exists new lines warnings,
    log (processPath cfg p target st) = log st ++ new /\
    out (processPath cfg p target st) = out st ++ lines /\
    err (processPath cfg p target st) = err st ++ warnings /\
    (quiet cfg = true -> warnings = []) /\
    Forall (fun w => Str.startsWith "Warning: Skipping file " w = true) warnings /\
    length warnings + emitted new <= sniffed new /\
    emitted new <= length lines /\
    (emitted new = 0 -> lines = []).
Proof.
  destruct (processPath_effects cfg p target st)
    as (new & lines & warnings & Hl & Ho & He & Hq & Hw & Hs & Hm & Hz & _).
  exists new, lines, warnings. repeat split; auto.
Qed.

Lemma X16_output_channels_witness :
  err (processPath (json_config true) "src" (Some noisy_tree) (initial_state []))
  = [] /\
  length (err (processPath (json_config false) "src" (Some noisy_tree)
                 (initial_state []))) = 2.
Proof.
  split.
  - destruct (X16_output_channels (json_config true) "src" (Some noisy_tree)
                (initial_state []))
      as (new & lines & warnings & _ & _ & He & Hq & _).
    rewrite He, Hq; reflexivity.
  - vm_compute. reflexivity.
Defined.

(** X17. In json format a whole [processPath] call hands the writer
    exactly one line per emitted document, and no line holds a control
    character: the comma that the caller puts before every line but the
    first separates documents. *)
Theorem X17_json_one_line_per_document cfg p target st :
  json cfg = true ->
  exists new lines,
    log (processPath cfg p target st) = log st ++ new /\
    out (processPath cfg p target st) = out st ++ lines /\
    length lines = emitted new /\
    Forall (fun l => no_control l = true) lines.
Proof.
  intros Hjson.
  destruct (processPath_effects cfg p target st)
    as (new & lines & warnings & Hl & Ho & _ & _ & _ & _ & _ & _ & Hj).
  destruct (Hj Hjson) as [Hlen Hnc].
  exists new, lines. repeat split; auto.
  eapply Forall_impl; [exact Hnc|]. intros l (i & s & c & ->).
  apply json_document_no_control.
Qed.

Lemma X17_json_one_line_per_document_witness :
  exists new lines,
    log (processPath (json_config false) "src" (Some noisy_tree) (initial_state []))
      = new /\
    out (processPath (json_config false) "src" (Some noisy_tree) (initial_state []))
      = lines /\
    length lines = emitted new /\
    Forall (fun l => no_control l = true) lines.
Proof.
  destruct (X17_json_one_line_per_document (json_config false) "src"
              (Some noisy_tree) (initial_state []) eq_refl)
    as (new & lines & Hl & Ho & Hlen & Hnc).
  exists new, lines. repeat split; auto.
Defined.

Example noisy_run :
  let st := processPath (json_config false) "src" (Some noisy_tree)
              (initial_state []) in
  out st = [json_document 1 "src/a.txt" "A"] /\
  err st = [size_warning "src/big.txt" 5; encoding_warning "src/odd.txt"] /\
  log st = [EvReaddir "src"; EvSniff "src/a.txt"; EvStat "src/a.txt";
            EvRead "src/a.txt"; EvEmit "src/a.txt";
            EvSniff "src/big.txt"; EvStat "src/big.txt";
            EvSniff "src/odd.txt"; EvStat "src/odd.txt"; EvRead "src/odd.txt"].
Proof. vm_compute. repeat split. Qed.

End ChannelClaims.

(** ** The order of emission *)

Section Order.

Lemma ascii_compare_refl a : Ascii.compare a a = Eq.
Proof. apply N.compare_refl. Qed.

Lemma ascii_compare_lt_trans a b c :
  Ascii.compare a b = Lt -> Ascii.compare b c = Lt -> Ascii.compare a c = Lt.
Proof.
  unfold Ascii.compare. rewrite !N.compare_lt_iff. apply N.lt_trans.
Qed.

Lemma leb_trans : forall a b c,
  String.leb a b = true -> String.leb b c = true -> String.leb a c = true.
Proof.
  unfold String.leb.
  induction a as [|x a IH]; intros [|y b] [|z c]; cbn; try done.
  destruct (Ascii.compare x y) eqn:Hxy; try done;
    destruct (Ascii.compare y z) eqn:Hyz; try done.
  - apply Ascii.compare_eq_iff in Hxy as ->.
    apply Ascii.compare_eq_iff in Hyz as ->.
    rewrite ascii_compare_refl. apply IH.
  - apply Ascii.compare_eq_iff in Hxy as ->. by rewrite Hyz.
  - apply Ascii.compare_eq_iff in Hyz as <-. by rewrite Hxy.
  - by rewrite (ascii_compare_lt_trans _ _ _ Hxy Hyz).
Qed.

Lemma leb_refl a : String.leb a a = true.
Proof. by destruct (String.leb_total a a). Qed.

Lemma insert_sorted_sorted {A} (x : string * A) l :
  StronglySorted (fun a b => String.leb a.1 b.1 = true) l ->
  StronglySorted (fun a b => String.leb a.1 b.1 = true) (insert_sorted x l).
Proof.
  induction 1 as [|y l Hl IH Hy]; cbn [insert_sorted].
  - repeat constructor.
  - destruct (String.leb x.1 y.1) eqn:Hxy.
    + constructor; [by constructor|]. constructor; [exact Hxy|].
      eapply Forall_impl; [exact Hy|]. intros z Hz. cbn beta in *.
      by eapply leb_trans.
    + constructor; [exact IH|]. apply insert_sorted_Forall; [|exact Hy].
      destruct (String.leb_total x.1 y.1) as [H|H]; [congruence|exact H].
Qed.

Lemma sort_by_name_sorted {A} (l : list (string * A)) :
  StronglySorted (fun a b => String.leb a.1 b.1 = true) (sort_by_name l).
Proof.
  unfold sort_by_name. induction l as [|x l IH]; cbn [foldr]; [constructor|].
  by apply insert_sorted_sorted.
Qed.

Lemma ascending_file_events q : forall evs last rest,
  Forall (fun e => file_event_path e = Some q) evs ->
  bounded last (Path.basename q) ->
  ascending last rest = true ->
  ascending (Some (Path.basename q)) rest = true ->
  ascending last (evs ++ rest) = true.
Proof.
  induction evs as [|e evs IH]; intros last rest Hall Hb H1 H2; [exact H1|].
  inversion Hall as [|? ? He Hall']; subst.
  destruct e; cbn in He; try discriminate; injection He as ->;
    cbn [app ascending]; try by apply IH.
  apply andb_true_iff. split.
  - destruct last; [exact Hb|reflexivity].
  - apply IH; auto. cbn. apply leb_refl.
Qed.

Lemma ascending_skip evs : forall last rest,
  Forall (fun e => is_emit e = false /\ is_readdir e = false) evs ->
  ascending last (evs ++ rest) = ascending last rest.
Proof.
  induction evs as [|e evs IH]; intros last rest Hall; [reflexivity|].
  inversion Hall as [|? ? [He Hd] Hall']; subst.
  destruct e; try discriminate; cbn [app ascending]; by apply IH.
Qed.

Lemma ascending_app_readdir d : forall a last rest,
  ascending last (a ++ EvReaddir d :: rest) =
  ascending last a && ascending None rest.
Proof.
  induction a as [|e a IH]; intros last rest; [reflexivity|].
  destruct e; cbn [app ascending]; rewrite ?IH; try reflexivity.
  by rewrite andb_assoc.
Qed.

(** The file loop emits in ascending order of name. *)
Lemma walk_files_ascending cfg root : forall files st,
  StronglySorted (fun a b => String.leb a.1 b.1 = true) files ->
  Forall (fun e => valid_name e.1 = true) files ->
  exists new,
    log (walk_files cfg root files st).1 = log st ++ new /\
    forall last,
      Forall (fun e => bounded last e.1) files -> ascending last new = true.
Proof.
  induction files as [|[name f] files IH]; intros st Hs Hv; cbn [walk_files].
  { exists []. by rewrite app_nil_r. }
  destruct (limit_reached cfg st); [exists []; by rewrite app_nil_r|].
  inversion Hs as [|? ? Hs' Hlow]; inversion Hv as [|? ? Hname Hv']; subst.
  destruct (process_file_log cfg (Path.join root name) f st)
    as (new1 & Hl1 & _ & _ & _ & Hall & _).
  destruct (IH (process_file cfg (Path.join root name) f st) Hs' Hv')
    as (new2 & Hl2 & Hasc).
  exists (new1 ++ new2). split; [by rewrite Hl2, Hl1, app_assoc|].
  intros last Hb. inversion Hb as [|? ? Hb1 Hb2]; subst.
  apply (ascending_file_events (Path.join root name)); auto.
  - by rewrite basename_join.
  - rewrite basename_join by exact Hname. apply Hasc. exact Hlow.
Qed.

Lemma gitignore_stage_log cfg root entries st :
  exists new,
    log (gitignore_stage cfg root entries st).2 = log st ++ new /\
    Forall (fun e => is_emit e = false /\ is_readdir e = false) new.
Proof.
  apply (gitignore_stage_frame cfg
           (fun s s' => exists new, log s' = log s ++ new /\
              Forall (fun e => is_emit e = false /\ is_readdir e = false) new)).
  - intros s. exists []. by rewrite app_nil_r.
  - intros a b c (n1 & H1 & F1) (n2 & H2 & F2). exists (n1 ++ n2).
    split; [by rewrite H2, H1, app_assoc|by apply Forall_app].
  - intros _ _ path rules s. exists [EvReadRules path rules].
    split; [reflexivity|by repeat constructor].
  - intros _ _ rules s. exists []. by rewrite app_nil_r.
Qed.

(** What a walk appends can follow any ascending stretch. *)
Lemma walkDir_ascending cfg : forall n root st,
  names_ok valid_name n = true ->
  exists new,
    log (walkDir cfg root n st) = log st ++ new /\
    forall last a, ascending last a = true -> ascending last (a ++ new) = true.
Proof.
  induction n as [f|entries IH] using node_ind'; intros root st Hok.
  { exists []. split; [by rewrite app_nil_r|]. intros last a. by rewrite app_nil_r. }
  rewrite walkDir_Dir. cbv zeta.
  destruct (gitignore_stage_log cfg root entries (record (EvReaddir root) st))
    as (news & Hls & Hstage).
  destruct (gitignore_stage cfg root entries _) as [git st2]. cbn [snd] in Hls.
  set (files := sort_by_name _).
  destruct (walk_files_ascending cfg root files st2) as (newf & Hlf & Hasc).
  { apply sort_by_name_sorted. }
  { subst files. apply sort_by_name_Forall.
    pose proof (file_entries_Forall valid_name entries Hok) as Hnames.
    induction Hnames as [|[name f] l Hv _ IHl]; cbn [List.filter]; [constructor|].
    destruct (keep_file cfg root git name) eqn:Hkeep; cbn [fst];
      rewrite ?Hkeep; [|exact IHl].
    by constructor. }
  destruct (walk_files cfg root files st2) as [st3 returned]. cbn [fst] in Hlf.
  assert (Hfiles : ascending None newf = true).
  { apply Hasc. clear. induction files; by constructor. }
  assert (Hsub : exists subs,
            log (walk_subdirs cfg root git entries st3) = log st3 ++ subs /\
            forall last a, ascending last a = true ->
                           ascending last (a ++ subs) = true).
  { clear Hls Hlf Hasc Hfiles. unfold walk_subdirs. generalize st3.
    cbn [names_ok] in Hok.
    induction IH as [|[name d] es IHd _ IHes]; intros s; cbn [fold_left].
    { exists []. split; [by rewrite app_nil_r|]. intros last a. by rewrite app_nil_r. }
    cbn [forallb] in Hok. apply andb_true_iff in Hok as [[Hv Hd]%andb_true_iff Hes].
    cbn [fst snd] in *.
    set (s1 := if is_dir d && keep_dir cfg root git name then _ else s).
    assert (H1 : exists new, log s1 = log s ++ new /\
              forall last a, ascending last a = true ->
                             ascending last (a ++ new) = true).
    { subst s1. destruct (is_dir d && keep_dir cfg root git name).
      - by apply IHd.
      - exists []. split; [by rewrite app_nil_r|]. intros last a.
        by rewrite app_nil_r. }
    destruct H1 as (n1 & Hl1 & Ha1).
    destruct (IHes Hes s1) as (n2 & Hl2 & Ha2).
    exists (n1 ++ n2). split; [by rewrite Hl2, Hl1, app_assoc|].
    intros last a Ha. rewrite app_assoc. by apply Ha2, Ha1. }
  destruct Hsub as (subs & Hlsub & Hsubs).
  destruct returned.
  - exists (EvReaddir root :: news ++ newf).
    split.
    { rewrite Hlf, Hls. simpl_state. by rewrite <- !app_assoc. }
    intros last a Ha. rewrite ascending_app_readdir, Ha, ascending_skip by exact Hstage.
    exact Hfiles.
  - exists (EvReaddir root :: news ++ newf ++ subs).
    split.
    { rewrite Hlsub, Hlf, Hls. simpl_state. by rewrite <- !app_assoc. }
    intros last a Ha. rewrite ascending_app_readdir, Ha, ascending_skip by exact Hstage.
    by apply Hsubs.
Qed.

Lemma ascending_suffix : forall a last rest,
  ascending last (a ++ rest) = true -> exists last', ascending last' rest = true.
Proof.
  induction a as [|e a IH]; intros last rest H; [by exists last|].
  destruct e; cbn [app ascending] in H; try (by eapply IH).
  apply andb_true_iff in H as [_ H]. by eapply IH.
Qed.

Lemma ascending_between q : forall b l c,
  Forall (fun e => is_readdir e = false) b ->
  ascending (Some l) (b ++ EvEmit q :: c) = true ->
  String.leb l (Path.basename q) = true.
Proof.
  induction b as [|e b IH]; intros l c Hb H.
  - cbn in H. by apply andb_true_iff in H as [H _].
  - inversion Hb as [|? ? He Hb']; subst.
    destruct e; try discriminate; cbn [app ascending] in H; try (by eapply IH).
    apply andb_true_iff in H as [H1 H2].
    eapply leb_trans; [exact H1|]. by eapply IH.
Qed.

(** X18. Within one directory [walkDir] emits the files in ascending
    order of name, by code units, whatever the order of the listing, and
    it does not come back to a directory's files after a subdirectory:
    of two documents emitted without a directory enumeration in between,
    the earlier has the smaller or the same name. *)
Theorem X18_emission_order cfg root n st new a p b q c :
  names_ok valid_name n = true ->
  log (walkDir cfg root n st) = log st ++ new ->
  new = a ++ EvEmit p :: b ++ EvEmit q :: c ->
  Forall (fun e => is_readdir e = false) b ->
  String.leb (Path.basename p) (Path.basename q) = true.
Proof.
  intros Hok Hlog Hnew Hb.
  destruct (walkDir_ascending cfg n root st Hok) as (new' & Hlog' & Hasc).
  rewrite Hlog in Hlog'. apply app_inv_head in Hlog'. subst new'.
  specialize (Hasc None [] eq_refl). cbn [app] in Hasc. rewrite Hnew in Hasc.
  apply ascending_suffix in Hasc as [last Hasc].
  cbn [ascending] in Hasc. apply andb_true_iff in Hasc as [_ Hasc].
  by eapply ascending_between.
Qed.

Lemma X18_emission_order_witness :
  String.leb "B.txt" "a.txt" = true /\ String.leb "a.txt" "z.txt" = true.
Proof.
  split.
  - apply (X18_emission_order plain_config "src" unsorted_tree (initial_state [])
             (log (walkDir plain_config "src" unsorted_tree (initial_state [])))
             [EvReaddir "src"; EvSniff "src/B.txt"; EvRead "src/B.txt"]
             "src/B.txt" [EvSniff "src/a.txt"; EvRead "src/a.txt"] "src/a.txt"
             [EvSniff "src/z.txt"; EvRead "src/z.txt"; EvEmit "src/z.txt";
              EvReaddir "src/sub"; EvSniff "src/sub/b.txt"; EvRead "src/sub/b.txt";
              EvEmit "src/sub/b.txt"; EvSniff "src/sub/m.txt"; EvRead "src/sub/m.txt";
              EvEmit "src/sub/m.txt"]).
    + vm_compute. reflexivity.
    + vm_compute. reflexivity.
    + vm_compute. reflexivity.
    + repeat constructor.
  - apply (X18_emission_order plain_config "src" unsorted_tree (initial_state [])
             (log (walkDir plain_config "src" unsorted_tree (initial_state [])))
             [EvReaddir "src"; EvSniff "src/B.txt"; EvRead "src/B.txt";
              EvEmit "src/B.txt"; EvSniff "src/a.txt"; EvRead "src/a.txt"]
             "src/a.txt" [EvSniff "src/z.txt"; EvRead "src/z.txt"] "src/z.txt"
             [EvReaddir "src/sub"; EvSniff "src/sub/b.txt"; EvRead "src/sub/b.txt";
              EvEmit "src/sub/b.txt"; EvSniff "src/sub/m.txt"; EvRead "src/sub/m.txt";
              EvEmit "src/sub/m.txt"]).
    + vm_compute. reflexivity.
    + vm_compute. reflexivity.
    + vm_compute. reflexivity.
    + repeat constructor.
Defined.

Example unsorted_walk :
  emitted_paths (log (walkDir plain_config "src" unsorted_tree (initial_state [])))
  = ["src/B.txt"; "src/a.txt"; "src/z.txt"; "src/sub/b.txt"; "src/sub/m.txt"].
Proof. vm_compute. reflexivity. Qed.

End Order.

(** ** What a setting does not reach *)

Section Settings.

Lemma walk_files_no_counter cfg m root : forall files st,
  has_counter cfg = false ->
  walk_files (set_maxFiles m cfg) root files st = walk_files cfg root files st.
Proof.
  intros files st Hc. revert st.
  assert (Hlim : forall c s, has_counter c = false -> limit_reached c s = false).
  { intros c s H. unfold limit_reached, limit_reached_at. rewrite H.
    by destruct (maxFiles c). }
  induction files as [|[name f] files IH]; intros st; [reflexivity|].
  cbn [walk_files]. rewrite !Hlim by (exact Hc).
  change (process_file (set_maxFiles m cfg)) with (process_file cfg). apply IH.
Qed.

Lemma walkDir_no_counter cfg m :
  has_counter cfg = false ->
  forall n root st,
    walkDir (set_maxFiles m cfg) root n st = walkDir cfg root n st.
Proof.
  intros Hc. induction n as [f|entries IH] using node_ind'; intros root st.
  { reflexivity. }
  rewrite !walkDir_Dir. cbv zeta.
  change (gitignore_stage (set_maxFiles m cfg)) with (gitignore_stage cfg).
  destruct (gitignore_stage cfg root entries _) as [git st2].
  change (keep_file (set_maxFiles m cfg)) with (keep_file cfg).
  rewrite walk_files_no_counter by exact Hc.
  destruct (walk_files cfg root _ st2) as [st3 returned].
  destruct returned; [reflexivity|].
  unfold walk_subdirs. generalize st3.
  induction IH as [|[name d] es IHd _ IHes]; intros s; [reflexivity|].
  cbn [fold_left fst snd].
  change (keep_dir (set_maxFiles m cfg)) with (keep_dir cfg).
  rewrite IHes. f_equal.
  destruct (is_dir d && keep_dir cfg root git name); [apply IHd|reflexivity].
Qed.

(** X19. The file limit is enforced through the counter only: without
    [options.counter], [maxFiles] has no effect whatever on a
    [processPath] call, not even when it is zero. *)
Theorem X19_limit_needs_counter cfg m p target st :
  has_counter cfg = false ->
  processPath (set_maxFiles m cfg) p target st = processPath cfg p target st.
Proof.
  intros Hc. destruct target as [[f|entries]|]; [reflexivity| |reflexivity].
  cbn [processPath]. by apply walkDir_no_counter.
Qed.

Lemma X19_limit_needs_counter_witness :
  processPath (set_maxFiles (Some 0) (extension_config [])) "src"
    (Some limit_tree) (initial_state []) =
  processPath (extension_config []) "src" (Some limit_tree) (initial_state []).
Proof. apply X19_limit_needs_counter. reflexivity. Defined.

Lemma emitted_paths_app l1 l2 :
  emitted_paths (l1 ++ l2) = emitted_paths l1 ++ emitted_paths l2.
Proof. unfold emitted_paths. apply omap_app. Qed.

Lemma isBinaryFile_quiet p f st :
  count (isBinaryFile p f st).2 = count st /\
  emitted_paths (log (isBinaryFile p f st).2) = emitted_paths (log st).
Proof.
  unfold isBinaryFile. destruct (negb _ && bool_decide _); [by split|].
  destruct (f_bytes f); cbn [snd]; simpl_state;
    by rewrite emitted_paths_app, app_nil_r.
Qed.

(** X20. A path that names a file is filtered by the rule sources only.
    If no rule source excludes it, the binary test passes, its size is
    within the limit and it can be read, [processPath] emits it and
    counts it, whatever the extensions, the hidden policy, the switches
    [ignoreFilesOnly] and [ignoreGitignore] and the file limit are: a
    hidden file, a file with another extension than asked for, a file
    named after the limit was reached. *)
Theorem X20_direct_file_skips_listing_filters cfg p f content st :
  ig_ignored cfg p = false ->
  shouldIgnore p false (gitignoreRules st) = false ->
  denied cfg p = false ->
  (isBinaryFile p f st).1 = false ->
  (forall limit size,
     maxSize cfg = Some limit -> f_size f = Some size -> size <= limit) ->
  f_read f = ReadOk content ->
  emitted_paths (log (processPath cfg p (Some (File f)) st)) =
    emitted_paths (log st) ++ [p] /\
  count (processPath cfg p (Some (File f)) st) =
    count st + (if has_counter cfg then 1 else 0) /\
  forall exts hiddenToo filesOnly noGitignore m,
    processPath (set_listing_filters exts hiddenToo filesOnly noGitignore m cfg)
      p (Some (File f)) st =
    processPath cfg p (Some (File f)) st.
Proof.
  intros Hig Hrules Hdenied Hbin Hsize Hread.
  split; [|split; [|reflexivity]].
  all: cbn [processPath]; fold (ig_ignored cfg p); fold (denied cfg p);
    rewrite Hig, Hrules, Hdenied; cbn [orb]; unfold process_file.
  all: destruct (isBinaryFile p f st) as [binary st1] eqn:Hb;
    cbn [fst] in Hbin; subst binary.
  all: pose proof (isBinaryFile_quiet p f st) as [Hc1 He1];
    rewrite Hb in Hc1, He1; cbn [snd] in Hc1, He1.
  all: destruct (maxSize cfg) as [limit|] eqn:Hmax;
    [destruct (f_size f) as [size|] eqn:Hsz;
     [specialize (Hsize limit size eq_refl eq_refl);
      apply Nat.ltb_ge in Hsize; rewrite Hsize|]|].
  all: rewrite Hread.
  all: rewrite ?log_emit, ?count_emit; simpl_state;
    rewrite ?emitted_paths_app, ?Hc1, ?He1; cbn;
    by rewrite ?app_nil_r.
Qed.

Lemma X20_direct_file_skips_listing_filters_witness :
  emitted_paths
    (log (processPath strict_config "dir/.notes" (Some (File (text_file "n")))
            (initial_state []))) = ["dir/.notes"].
Proof.
  by destruct (X20_direct_file_skips_listing_filters strict_config "dir/.notes"
                 (text_file "n") "n" (initial_state []))
    as (H & _); [reflexivity..|cbn; intros ? ? [=]|reflexivity|exact H].
Defined.

Example direct_file_example :
  let st := processPath strict_config "dir/.notes" (Some (File (text_file "n")))
              (initial_state []) in
  emitted_paths (log st) = ["dir/.notes"] /\ count st = 1 /\
  emitted_paths
    (log (walkDir strict_config "dir"
            (Dir [(".notes", File (text_file "n"))]) (initial_state []))) = [].
Proof. vm_compute. repeat split. Qed.

End Settings.

(** ** When rule files are left alone *)

Section RuleFilesInWalk.

(** X21. With a project-root matcher, or with [ignoreGitignore] set, a
    [processPath] call reads no rule file and leaves the shared rule
    array as it is, whatever [.gitignore] files the tree holds. *)
Theorem X21_no_rule_file_read cfg p target st :
  ig cfg <> None \/ ignoreGitignore cfg = true ->
  exists new,
    log (processPath cfg p target st) = log st ++ new /\
    Forall (fun e => is_rules_event e = false) new /\
    gitignoreRules (processPath cfg p target st) = gitignoreRules st.
Proof.
  intros Hoff.
  apply (processPath_frame cfg
           (fun s s' => exists new, log s' = log s ++ new /\
              Forall (fun e => is_rules_event e = false) new /\
              gitignoreRules s' = gitignoreRules s)).
  - intros s. exists []. by rewrite app_nil_r.
  - intros a b c (n1 & H1 & F1 & R1) (n2 & H2 & F2 & R2). exists (n1 ++ n2).
    split; [by rewrite H2, H1, app_assoc|].
    split; [by apply Forall_app|congruence].
  - intros d s. exists [EvReaddir d]. by repeat constructor.
  - intros Hig Hno. destruct Hoff; congruence.
  - intros Hig Hno. destruct Hoff; congruence.
  - intros filePath f s.
    destruct (process_file_log cfg filePath f s)
      as (new & Hl & Hr & _ & _ & Hall & _).
    exists new. split; [exact Hl|]. split; [|exact Hr].
    eapply Forall_impl; [exact Hall|]. intros e He. by destruct e.
Qed.

Lemma X21_no_rule_file_read_witness :
  gitignoreRules (processPath matcher_config "src" (Some sibling_tree)
                    (initial_state ["*.tmp"])) = ["*.tmp"].
Proof.
  destruct (X21_no_rule_file_read matcher_config "src" (Some sibling_tree)
              (initial_state ["*.tmp"])) as (new & _ & _ & Hr).
  - left. discriminate.
  - exact Hr.
Defined.

Example matcher_walk :
  emitted_paths (log (processPath matcher_config "src" (Some sibling_tree)
                        (initial_state [])))
  = ["src/b/note.txt"].
Proof. vm_compute. reflexivity. Qed.

End RuleFilesInWalk.

(** ** Sizes on the command line *)

Section Sizes.

Lemma take_drop_while p s : s = take_while p s +:+ drop_while p s.
Proof.
  induction s as [|c s IH]; [reflexivity|]. cbn [take_while drop_while].
  destruct (p c); [|reflexivity].
  change (String c s = String c (take_while p s +:+ drop_while p s)).
  by rewrite <- IH.
Qed.

Lemma take_while_all p s : all_chars p (take_while p s) = true.
Proof.
  induction s as [|c s IH]; [reflexivity|]. cbn [take_while].
  destruct (p c) eqn:Hc; [|reflexivity]. cbn [all_chars]. by rewrite Hc, IH.
Qed.

Lemma drop_while_empty p s :
  drop_while p s = EmptyString -> all_chars p s = true.
Proof.
  induction s as [|c s IH]; [reflexivity|]. cbn [drop_while all_chars].
  destruct (p c); [exact IH|discriminate].
Qed.

Lemma drop_while_app p a b :
  all_chars p a = true -> head_sat p b = false -> drop_while p (a +:+ b) = b.
Proof.
  intros Ha Hb. induction a as [|c a IH].
  - change (drop_while p b = b). destruct b as [|d b]; [reflexivity|].
    cbn in *. by rewrite Hb.
  - cbn [all_chars] in Ha. apply andb_true_iff in Ha as [Hc Ha].
    change (drop_while p (String c (a +:+ b)) = b). cbn [drop_while].
    rewrite Hc. by apply IH.
Qed.

Lemma take_while_app p a b :
  all_chars p a = true -> head_sat p b = false -> take_while p (a +:+ b) = a.
Proof.
  intros Ha Hb. induction a as [|c a IH].
  - change (take_while p b = EmptyString). destruct b as [|d b]; [reflexivity|].
    cbn in *. by rewrite Hb.
  - cbn [all_chars] in Ha. apply andb_true_iff in Ha as [Hc Ha].
    change (take_while p (String c (a +:+ b)) = String c a). cbn [take_while].
    rewrite Hc. by rewrite IH.
Qed.

Lemma drop_while_all p a :
  all_chars p a = true -> drop_while p a = EmptyString.
Proof.
  induction a as [|c a IH]; [reflexivity|]. cbn [all_chars drop_while].
  intros [Hc Ha]%andb_true_iff. rewrite Hc. by apply IH.
Qed.

(** The three classes of the expression exclude one another. *)
Lemma classes_disjoint c :
  (is_digit c = true -> Str.is_space c = false) /\
  (forall f, unit_factor c = Some f ->
     Str.is_space c = false /\ is_digit c = false) /\
  (Str.is_space c = true -> is_digit c = false).
Proof.
  destruct c as [[] [] [] [] [] [] [] []]; vm_compute;
    repeat split; intros; congruence.
Qed.

Lemma head_sat_app p a b :
  head_sat p (a +:+ b) = if Str.is_empty a then head_sat p b else head_sat p a.
Proof. by destruct a. Qed.

Lemma head_sat_all_other (p q : ascii -> bool) a :
  (forall c, q c = true -> p c = false) ->
  all_chars q a = true -> head_sat p a = false.
Proof.
  intros Hpq. destruct a as [|c a]; [reflexivity|]. cbn.
  intros [Hc _]%andb_true_iff. by apply Hpq.
Qed.

Lemma is_empty_eq s : Str.is_empty s = true <-> s = EmptyString.
Proof. by destruct s. Qed.

Lemma size_match_sound val digits factor :
  size_match val = Some (digits, factor) -> size_text val digits factor.
Proof.
  unfold size_match.
  set (s1 := drop_while Str.is_space val).
  set (ds := take_while is_digit s1).
  set (s2 := drop_while is_digit s1).
  set (s3 := drop_while Str.is_space s2).
  destruct (Str.is_empty ds) eqn:Hd; [discriminate|].
  assert (Hval : val = take_while Str.is_space val +:+ ds +:+
                       take_while Str.is_space s2 +:+ s3).
  { rewrite !StrFacts.app_assoc.
    rewrite <- !StrFacts.app_assoc.
    subst s3. rewrite <- (take_drop_while Str.is_space s2).
    subst ds s2. rewrite <- (take_drop_while is_digit s1).
    subst s1. apply take_drop_while. }
  assert (Hne : ds <> EmptyString) by (by destruct ds).
  assert (Hdig : all_chars is_digit ds = true) by apply take_while_all.
  destruct s3 as [|c rest] eqn:Hs3.
  - cbn. intros [= <- <-].
    exists (take_while Str.is_space val), (take_while Str.is_space s2),
      EmptyString, EmptyString.
    repeat split; auto using take_while_all.
  - destruct (unit_factor c) as [f|] eqn:Hu.
    + destruct (Str.is_empty (drop_while Str.is_space rest)) eqn:He;
        [|discriminate].
      intros [= <- <-].
      exists (take_while Str.is_space val), (take_while Str.is_space s2),
        (Str.single c), rest.
      repeat split; auto using take_while_all.
      * right. by exists c.
      * apply drop_while_empty. by apply is_empty_eq.
    + assert (Hc : Str.is_space c = false).
      { destruct (Str.is_space c) eqn:E; [|reflexivity].
        assert (H : head_sat Str.is_space (drop_while Str.is_space s2) = true)
          by (fold s3; rewrite Hs3; exact E).
        clear -H. induction s2 as [|d s2 IH]; [discriminate|].
        cbn [drop_while] in H. destruct (Str.is_space d) eqn:Ed; [auto|].
        cbn in H. congruence. }
      cbn [drop_while]. rewrite Hc. discriminate.
Qed.

Lemma size_match_complete val digits factor :
  size_text val digits factor -> size_match val = Some (digits, factor).
Proof.
  intros (ws1 & ws2 & unit & ws3 & -> & H1 & Hd & Hne & H2 & Hu & H3).
  assert (Hdig_sp : head_sat Str.is_space digits = false).
  { destruct digits as [|c d]; [done|]. cbn in *.
    apply andb_true_iff in Hd as [Hc _]. by apply classes_disjoint. }
  assert (Htail_dig : head_sat is_digit (ws2 +:+ unit +:+ ws3) = false).
  { rewrite head_sat_app. destruct (Str.is_empty ws2) eqn:E2.
    - rewrite head_sat_app. destruct Hu as [[-> ->]|(c & -> & Hc)]; cbn.
      + apply (head_sat_all_other _ Str.is_space); [|exact H3].
        intros c. apply classes_disjoint.
      + by apply (classes_disjoint c) in Hc as [_ Hc].
    - apply (head_sat_all_other _ Str.is_space); [|exact H2].
      intros c. apply classes_disjoint. }
  unfold size_match.
  rewrite drop_while_app
    by (auto; rewrite head_sat_app; by destruct digits).
  rewrite take_while_app, drop_while_app by auto.
  destruct (Str.is_empty digits) eqn:E; [by destruct digits|].
  destruct Hu as [[-> ->]|(c & -> & Hc)].
  - change (ws2 +:+ EmptyString +:+ ws3) with (ws2 +:+ ws3).
    assert (Hall : all_chars Str.is_space (ws2 +:+ ws3) = true).
    { clear -H2 H3. induction ws2 as [|c w IH]; [exact H3|].
      cbn [all_chars] in H2. apply andb_true_iff in H2 as [Hc Hw].
      change (all_chars Str.is_space (String c (w +:+ ws3)) = true).
      cbn [all_chars]. by rewrite Hc, IH. }
    rewrite (drop_while_all _ _ Hall). reflexivity.
  - rewrite drop_while_app; auto.
    + change (Str.single c +:+ ws3) with (String c ws3). cbv beta iota.
      rewrite Hc.
      by rewrite (drop_while_all _ _ H3).
    + cbn. by apply (classes_disjoint c) in Hc as [Hc _].
Qed.

(** X22. [parseSize] gives NaN exactly for the texts that are not made
    of digits and at most one of the unit letters k, m, g in either case,
    with white space allowed around and between them.  For such a text
    whose digits stand for a number of at most 2^53 it gives that number
    times 1, 1024, 1024^2 or 1024^3, exactly; beyond 2^53 the result is
    a rounded double, which the model leaves open. *)
Theorem X22_parseSize val v :
  (parseSize val = SizeNaN <->
   ~ exists digits factor, size_text val digits factor) /\
  (parseSize val = SizeExact v <->
   exists digits factor,
     size_text val digits factor /\ (parseInt digits <= max_exact)%N /\
     v = (parseInt digits * factor)%N) /\
  (parseSize val = SizeBeyond <->
   exists digits factor,
     size_text val digits factor /\ (max_exact < parseInt digits)%N).
Proof.
  assert (Hyes : forall digits factor, size_text val digits factor ->
                   parseSize val = size_of digits factor).
  { intros digits factor H. unfold parseSize.
    by rewrite (size_match_complete _ _ _ H). }
  assert (Hno : size_match val = None ->
                ~ exists digits factor, size_text val digits factor).
  { intros Hm (digits & factor & H). apply size_match_complete in H. congruence. }
  unfold parseSize in *. unfold size_of in *.
  destruct (size_match val) as [[ds f]|] eqn:Hm.
  - pose proof (size_match_sound _ _ _ Hm) as Htext.
    destruct (N.leb_spec (parseInt ds) max_exact) as [Hle|Hgt].
    + split; [|split]; split; try discriminate.
      * intros H. exfalso. apply H. eauto.
      * intros [= <-]. eauto 6.
      * intros (ds' & f' & H & Hle' & ->). rewrite (Hyes _ _ H).
        by destruct (N.leb_spec (parseInt ds') max_exact); [|lia].
      * intros (ds' & f' & H & Hgt'). specialize (Hyes _ _ H).
        destruct (N.leb_spec (parseInt ds') max_exact); [lia|discriminate].
    + split; [|split]; split; try discriminate; try done.
      * intros H. exfalso. apply H. eauto.
      * intros (ds' & f' & H & Hle' & ->). specialize (Hyes _ _ H).
        destruct (N.leb_spec (parseInt ds') max_exact); [discriminate|lia].
      * intros _. eauto.
  - split; [|split]; split; try discriminate; try done.
    + intros _. by apply Hno.
    + intros (ds' & f' & H & _). exfalso. apply (Hno eq_refl). eauto.
    + intros (ds' & f' & H & _). exfalso. apply (Hno eq_refl). eauto.
Qed.

Lemma X22_parseSize_witness :
  parseSize " 10 k " = SizeExact 10240 /\
  parseSize "9007199254740993" = SizeBeyond.
Proof.
  split.
  - apply (X22_parseSize " 10 k " 10240%N).
    exists "10", 1024%N. split; [|split; [vm_compute; discriminate|reflexivity]].
    exists " ", " ", "k", " ". repeat split; auto.
    right. by exists "k"%char.
  - apply (X22_parseSize "9007199254740993" 0%N).
    exists "9007199254740993", 1%N. split; [|reflexivity].
    exists EmptyString, EmptyString, EmptyString, EmptyString.
    repeat split; auto.
Defined.

Example parseSize_examples :
  parseSize "10kb" = SizeNaN /\ parseSize "1.5k" = SizeNaN /\
  parseSize "-1" = SizeNaN /\ parseSize "k" = SizeNaN /\
  parseSize EmptyString = SizeNaN /\ parseSize "1 0" = SizeNaN /\
  parseSize "2M" = SizeExact 2097152 /\
  parseSize "9007199254740992" = SizeExact 9007199254740992 /\
  parseSize "8388608g" = SizeExact 9007199254740992 /\
  parseSize "9007199254740992G" = SizeExact 9671406556917033397649408.
Proof. repeat split. Qed.

End Sizes.

(** ** The loop of [main] *)

Section Main.

Variable cfg : config.

Lemma forward_plain lines : forall first s,
  forward false lines (first, s) = (first, s ++ lines).
Proof.
  unfold forward.
  induction lines as [|l lines IH]; intros first s; cbn [fold_left].
  - by rewrite app_nil_r.
  - unfold walkerWriter at 2. cbn [fst snd]. rewrite IH. by rewrite <- app_assoc.
Qed.

Lemma forward_commas lines : forall s,
  forward true lines (false, s) = (false, s ++ with_commas lines).
Proof.
  unfold forward.
  induction lines as [|l lines IH]; intros s; cbn [fold_left].
  - by rewrite app_nil_r.
  - unfold walkerWriter at 2. cbn [fst snd]. rewrite IH.
    unfold with_commas. cbn [flat_map]. by rewrite <- !app_assoc.
Qed.

Lemma forward_json lines first s :
  forward true lines (first, s) =
  (first && is_nil lines,
   s ++ (if first then separated lines else with_commas lines)).
Proof.
  destruct first; [|by rewrite forward_commas].
  destruct lines as [|l lines]; [by rewrite app_nil_r|].
  unfold forward. cbn [fold_left]. unfold walkerWriter at 2. cbn [fst snd].
  fold (forward true lines (false, s ++ [l])). rewrite forward_commas.
  cbn. by rewrite <- app_assoc.
Qed.


(** Reading the parent's rule file before a path is processed. *)
Lemma parent_rules_effects (a : argument) st :
  effects cfg st
    (if ignoreGitignore cfg then st
     else match a_parent a with
          | Some entries =>
              let '(rules, st0) := readGitignore (a_dirname a) entries st in
              push_rules rules st0
          | None => st
          end) /\
  out (if ignoreGitignore cfg then st
       else match a_parent a with
            | Some entries =>
                let '(rules, st0) := readGitignore (a_dirname a) entries st in
                push_rules rules st0
            | None => st
            end) = out st.
Proof.
  destruct (ignoreGitignore cfg); [split; [apply effects_refl|reflexivity]|].
  destruct (a_parent a) as [entries|]; [|split; [apply effects_refl|reflexivity]].
  unfold readGitignore. destruct (lookup_entry _ entries).
  - split; [|reflexivity]. apply effects_silent; [reflexivity..|].
    by eexists [_].
  - split; [|reflexivity]. apply effects_silent; [reflexivity..|].
    exists []. by rewrite app_nil_r.
Qed.

Lemma counted_refl st : counted cfg st st.
Proof. exists []. rewrite app_nil_r. split; [reflexivity|solve_counts]. Qed.

Lemma counted_trans a b c :
  counted cfg a b -> counted cfg b c -> counted cfg a c.
Proof.
  intros (n1 & H1 & C1) (n2 & H2 & C2). exists (n1 ++ n2).
  rewrite H2, H1, C2, C1, emitted_app, app_assoc.
  split; [reflexivity|]. destruct (has_counter cfg); lia.
Qed.

Lemma counted_silent st st' :
  log st' = log st \/ (exists e, is_emit e = false /\ log st' = log st ++ [e]) ->
  count st' = count st -> counted cfg st st'.
Proof.
  intros [Hl|(e & He & Hl)] Hc.
  - exists []. rewrite app_nil_r. split; [exact Hl|]. rewrite Hc. solve_counts.
  - exists [e]. split; [exact Hl|]. rewrite Hc. unfold emitted. cbn.
    rewrite He. cbn. destruct (has_counter cfg); lia.
Qed.

Lemma processPath_counted p target st :
  counted cfg st (processPath cfg p target st).
Proof.
  apply processPath_frame.
  - apply counted_refl.
  - apply counted_trans.
  - intros d s. apply counted_silent; [|reflexivity]. right.
    by exists (EvReaddir d).
  - intros _ _ path rules s. apply counted_silent; [|reflexivity]. right.
    by exists (EvReadRules path rules).
  - intros _ _ rules s. apply counted_silent; [by left|reflexivity].
  - intros filePath f s.
    destruct (process_file_log cfg filePath f s) as (new & Hl & _ & Hc & _).
    by exists new.
Qed.

Lemma parent_rules_counted (a : argument) st :
  counted cfg st
    (if ignoreGitignore cfg then st
     else match a_parent a with
          | Some entries =>
              let '(rules, st0) := readGitignore (a_dirname a) entries st in
              push_rules rules st0
          | None => st
          end).
Proof.
  destruct (ignoreGitignore cfg); [apply counted_refl|].
  destruct (a_parent a) as [entries|]; [|apply counted_refl].
  unfold readGitignore. destruct (lookup_entry _ entries).
  - eapply counted_trans; [|apply counted_silent; [by left|reflexivity]].
    apply counted_silent; [|reflexivity]. right. eexists (EvReadRules _ _).
    by split.
  - apply counted_silent; [by left|reflexivity].
Qed.

(** One round of the loop, seen from the walker's lines. *)
Lemma main_loop_cons i a args r :
  sound cfg a = true ->
  exists st' lines,
    effects cfg (walker r) st' /\ counted cfg (walker r) st' /\
    out st' = out (walker r) ++ lines /\
    main_loop cfg i (a :: args) r =
    main_loop cfg (S i) args
      (mkRun st'
         (forward (json cfg) lines
            (JSON_FIRST r,
             if cxml cfg && (i =? 0)%nat then stream r ++ ["<documents>"]
             else stream r)).2
         (forward (json cfg) lines
            (JSON_FIRST r,
             if cxml cfg && (i =? 0)%nat then stream r ++ ["<documents>"]
             else stream r)).1).
Proof.
  unfold sound, present. intros [Hp Hesc]%andb_true_iff.
  apply negb_true_iff in Hesc. cbn [main_loop]. rewrite Hesc.
  destruct (a_target a) as [t|] eqn:Ht; [|discriminate].
  destruct (parent_rules_effects a (walker r)) as [Hpre Hout].
  pose proof (parent_rules_counted a (walker r)) as Hcpre.
  set (st1 := if ignoreGitignore cfg then walker r else _) in *.
  pose proof (processPath_effects cfg (a_path a) (Some t) st1) as Hrun.
  assert (Hall : effects cfg (walker r) (processPath cfg (a_path a) (Some t) st1))
    by (eapply effects_trans; eauto).
  assert (Hcount : counted cfg (walker r)
                     (processPath cfg (a_path a) (Some t) st1))
    by (eapply counted_trans; [exact Hcpre|apply processPath_counted]).
  destruct Hrun as (new & lines & warnings & _ & Ho & _).
  exists (processPath cfg (a_path a) (Some t) st1), lines.
  split; [exact Hall|]. split; [exact Hcount|]. split; [by rewrite Ho, Hout|].
  rewrite Ho, drop_app_length.
  by destruct (forward (json cfg) lines _).
Qed.

(** The loop over paths that exist and let no exception out. *)
Lemma main_loop_sound : forall args i r,
  forallb (sound cfg) args = true ->
  exists r',
    main_loop cfg i args r = (r', None) /\
    effects cfg (walker r) (walker r') /\ counted cfg (walker r) (walker r').
Proof.
  induction args as [|a args IH]; intros i r Hall.
  { exists r. split; [reflexivity|]. split; [apply effects_refl|apply counted_refl]. }
  cbn [forallb] in Hall. apply andb_true_iff in Hall as [Ha Hall].
  destruct (main_loop_cons i a args r Ha)
    as (st' & lines & Heff & Hcount & Hout & ->).
  match goal with
  | |- context [main_loop cfg (S i) args ?r1] =>
      destruct (IH (S i) r1 Hall) as (r' & Hloop & Heff' & Hcount')
  end.
  exists r'. cbn [walker] in *.
  split; [exact Hloop|]. split; [by eapply effects_trans|by eapply counted_trans].
Qed.


(** The loop without json: what the walker wrote, after the opening tag
    in xml format. *)
Lemma main_loop_plain : forall args i r,
  json cfg = false ->
  forallb (sound cfg) args = true ->
  stream (main_loop cfg i args r).1 =
  stream r ++
  (if cxml cfg && (i =? 0)%nat && negb (is_nil args) then ["<documents>"] else []) ++
  drop (length (out (walker r))) (out (walker (main_loop cfg i args r).1)).
Proof.
  induction args as [|a args IH]; intros i r Hjson Hall.
  { cbn [main_loop fst]. by rewrite andb_false_r, drop_all, app_nil_r. }
  cbn [forallb] in Hall. apply andb_true_iff in Hall as [Ha Hall].
  destruct (main_loop_cons i a args r Ha)
    as (st' & lines & Heff & _ & Hout & ->).
  rewrite Hjson, forward_plain. cbn [fst snd].
  destruct (main_loop_sound args (S i) (mkRun st'
              ((if cxml cfg && (i =? 0)%nat then stream r ++ ["<documents>"]
                else stream r) ++ lines) (JSON_FIRST r)) Hall)
    as (r' & Hloop & (new & more & _ & _ & Hmore & _) & _).
  rewrite IH by assumption. rewrite Hloop in *. cbn [fst walker stream] in *.
  rewrite andb_false_r. cbn [app negb is_nil]. rewrite andb_true_r.
  rewrite Hmore, Hout, !drop_app_length, <- (app_assoc (out (walker r))),
    drop_app_length.
  destruct (cxml cfg && (i =? 0)%nat); by rewrite <- !app_assoc.
Qed.

Lemma json_line_not_bracket l : json_line l -> l <> "]".
Proof. intros (i & s & c & ->). discriminate. Qed.

(** In json format the stream holds brackets, commas, the opening tag
    and documents only, wherever the loop stops. *)
Lemma main_loop_json_lines : forall args i r,
  json cfg = true ->
  Forall json_stream_line (stream r) ->
  Forall json_stream_line (stream (main_loop cfg i args r).1).
Proof.
  induction args as [|a args IH]; intros i r Hjson Hs; [exact Hs|].
  assert (Htag : Forall json_stream_line
                   (if cxml cfg && (i =? 0)%nat
                    then stream r ++ ["<documents>"] else stream r)).
  { destruct (cxml cfg && (i =? 0)%nat); [|exact Hs].
    apply Forall_app. split; [exact Hs|].
    constructor; [right; right; by left|constructor]. }
  destruct (sound cfg a) eqn:Ha.
  - destruct (main_loop_cons i a args r Ha)
      as (st' & lines & Heff & _ & Hout & ->).
    apply IH; [exact Hjson|]. cbn [stream]. rewrite Hjson, forward_json.
    cbn [snd].
    destruct Heff as (new & lines' & _ & _ & Ho & _ & _ & _ & _ & _ & _ & Hj).
    rewrite Ho in Hout. apply app_inv_head in Hout. subst lines'.
    destruct (Hj Hjson) as [_ Hdocs].
    assert (Hcommas : Forall json_stream_line (with_commas lines)).
    { clear -Hdocs. induction Hdocs as [|l ls Hl _ IHl]; [constructor|].
      unfold with_commas. cbn [flat_map app].
      constructor; [right; by left|].
      constructor; [by repeat right|exact IHl]. }
    apply Forall_app. split; [exact Htag|].
    destruct (JSON_FIRST r); [|exact Hcommas].
    destruct Hdocs as [|l ls Hl Hls]; [constructor|]. cbn [separated].
    constructor; [by repeat right|].
    clear -Hls. induction Hls as [|x xs Hx _ IHx]; [constructor|].
    unfold with_commas. cbn [flat_map app].
    constructor; [right; by left|].
    constructor; [by repeat right|exact IHx].
  - unfold sound, present in Ha. cbn [main_loop].
    destruct (a_target a); [|exact Hs]. cbn [andb negb] in Ha.
    apply negb_false_iff in Ha. rewrite Ha. exact Htag.
Qed.

(** The loop stops at the first path that does not exist or lets an
    exception out. *)
Lemma main_loop_stops : forall pre i r a post,
  forallb (sound cfg) pre = true -> sound cfg a = false ->
  main_loop cfg i (pre ++ a :: post) r = main_loop cfg i (pre ++ [a]) r /\
  (present a = false ->
   main_loop cfg i (pre ++ a :: post) r =
   (mkRun (console_error (missing_path_error (a_path a))
             (walker (main_loop cfg i pre r).1))
          (stream (main_loop cfg i pre r).1)
          (JSON_FIRST (main_loop cfg i pre r).1),
    Some (Exit 1))) /\
  (present a = true ->
   (main_loop cfg i (pre ++ a :: post) r).2 = Some Uncaught).
Proof.
  induction pre as [|x pre IH]; intros i r a post Hall Ha.
  - unfold sound, present in *. cbn [app main_loop fst].
    destruct (a_target a); [|by repeat split].
    cbn [andb negb] in Ha. apply negb_false_iff in Ha. rewrite Ha.
    by repeat split.
  - cbn [forallb] in Hall. apply andb_true_iff in Hall as [Hx Hall].
    change ((x :: pre) ++ a :: post) with (x :: (pre ++ a :: post)).
    change ((x :: pre) ++ [a]) with (x :: (pre ++ [a])).
    cbn [main_loop]. unfold sound, present in Hx.
    destruct (a_target x) as [t|]; [|discriminate].
    cbn [andb] in Hx. apply negb_true_iff in Hx. rewrite Hx.
    destruct (forward _ _ _) as [first lines]. by apply IH.
Qed.

End Main.

Section MainClaims.



Example json_run :
  exists r,
    main_run json_main_config [top_argument "src" (Some limit_tree)] =
      Ended r 0 /\
    stream r =
      [ "["; json_document 1 "src/a.txt" "A"; ",";
        json_document 2 "src/s1/b.txt" "B"; ",";
        json_document 3 "src/s2/inner/c.txt" "C"; "]" ].
Proof. eexists. split; vm_compute; reflexivity. Qed.

(** X24. The loop of [main] stops at the first path that does not exist
    or whose processing an exception leaves, and the process ends with
    code 1 whatever paths follow.  For a path that does not exist the
    paths before it were processed, the error line is written even in
    quiet mode, and the wrapper is not closed: in json format no closing
    bracket is written. *)
Theorem X24_missing_path cfg pre a post :
  forallb (sound cfg) pre = true -> sound cfg a = false ->
  exit_code (main_run cfg (pre ++ a :: post)) = 1 /\
  main_run cfg (pre ++ a :: post) = main_run cfg (pre ++ [a]) /\
  (present a = true -> main_run cfg (pre ++ a :: post) = Thrown) /\
  (present a = false ->
   exists r,
     main_run cfg (pre ++ a :: post) = Ended r 1 /\
     last (err (walker r)) = Some (missing_path_error (a_path a)) /\
     stream r =
       stream (main_loop cfg 0 pre
                 (mkRun (initial_state []) (if json cfg then ["["] else [])
                        true)).1 /\
     (json cfg = true -> Forall (fun l => l <> "]") (stream r))).
Proof.
  intros Hpre Ha. unfold main_run.
  destruct (main_loop_stops cfg pre 0
              (mkRun (initial_state []) (if json cfg then ["["] else []) true)
              a post Hpre Ha) as (Hsame & Hmiss & Hthrow).
  rewrite <- Hsame.
  destruct (present a) eqn:Hp.
  - specialize (Hthrow eq_refl).
    destruct (main_loop cfg 0 (pre ++ a :: post) _) as [r how].
    cbn [snd] in Hthrow. subst how. by repeat split.
  - rewrite (Hmiss eq_refl). repeat split; try done.
    intros _. eexists. split; [reflexivity|].
    cbn [walker stream err console_error]. split; [by rewrite last_snoc|].
    split; [reflexivity|]. intros Hjson. rewrite Hjson.
    pose proof (main_loop_json_lines cfg pre 0
                  (mkRun (initial_state []) ["["] true) Hjson) as Hlines.
    eapply Forall_impl; [apply Hlines|].
    + constructor; [by left|constructor].
    + intros l [->|[->|[->|Hl]]]; try discriminate.
      by apply json_line_not_bracket.
Qed.

Lemma X24_missing_path_witness :
  exit_code (main_run json_main_config broken_arguments) = 1 /\
  main_run json_matcher_config
    [ top_argument "src" (Some limit_tree);
      outside_argument "../lib" (Some limit_tree);
      top_argument "more" (Some limit_tree) ] = Thrown.
Proof.
  split.
  - by destruct (X24_missing_path json_main_config
                   [top_argument "src" (Some limit_tree)]
                   (top_argument "gone" None)
                   [top_argument "more" (Some limit_tree)])
      as (Hcode & _); [reflexivity..|exact Hcode].
  - by destruct (X24_missing_path json_matcher_config
                   [top_argument "src" (Some limit_tree)]
                   (outside_argument "../lib" (Some limit_tree))
                   [top_argument "more" (Some limit_tree)])
      as (_ & _ & Hthrown & _); [reflexivity..|apply Hthrown].
Defined.

Example broken_run :
  exists r,
    main_run json_main_config broken_arguments = Ended r 1 /\
    stream r = [ "["; json_document 1 "src/a.txt" "A"; ",";
                 json_document 2 "src/s1/b.txt" "B"; ",";
                 json_document 3 "src/s2/inner/c.txt" "C" ] /\
    err (walker r) = ["Error: Path does not exist: gone"].
Proof.
  eexists. split; [vm_compute; reflexivity|]. split; vm_compute; reflexivity.
Qed.

(** X25. When every path exists and no exception leaves its
    processing, [main] ends with code 2 if no document was emitted and
    with code 0 otherwise, the counter being the number of emitted
    documents; with code 2 the hint that nothing was processed is the
    last diagnostic line unless quiet mode is on, in which nothing at
    all is written to [console.error]. *)
Theorem X25_exit_code cfg args :
  has_counter cfg = true -> forallb (sound cfg) args = true ->
  exists r code,
    main_run cfg args = Ended r code /\
    count (walker r) = emitted (log (walker r)) /\
    code = (if (emitted (log (walker r)) =? 0)%nat then 2 else 0) /\
    (code = 2 -> quiet cfg = false ->
     last (err (walker r)) = Some nothing_processed) /\
    (code = 0 -> Forall (fun w => is_warning w = true) (err (walker r))) /\
    (quiet cfg = true -> err (walker r) = []).
Proof.
  intros Hcounter Hall. unfold main_run.
  destruct (main_loop_sound cfg args 0
              (mkRun (initial_state []) (if json cfg then ["["] else []) true)
              Hall) as (r' & -> & Heff & Hcount).
  destruct Heff as (new & lines & warnings & Hl & _ & He & Hq & Hw & _).
  destruct Hcount as (new' & Hl' & Hc). rewrite Hl in Hl'.
  apply app_inv_head in Hl'. subst new'. rewrite Hcounter in Hc.
  cbn [walker initial_state err count log app] in *.
  assert (Hcount : count (walker r') = emitted (log (walker r')))
    by (rewrite Hl; lia).
  destruct (count (walker r') =? 0)%nat eqn:Hz; eexists _, _;
    (split; [reflexivity|]); cbn [walker].
  - rewrite log_warn, count_warn, err_warn, <- Hcount, Hz, He.
    repeat split; auto.
    + intros _ ->. by rewrite last_snoc.
    + discriminate.
    + intros Hquiet. by rewrite Hquiet, (Hq Hquiet).
  - rewrite <- Hcount, Hz, He. repeat split; auto; discriminate.
Qed.

Lemma X25_exit_code_witness :
  exit_code (main_run json_main_config [top_argument "src" (Some limit_tree)])
    = 0 /\
  exit_code (main_run json_main_config [top_argument "empty" (Some (Dir []))])
    = 2.
Proof.
  split.
  - destruct (X25_exit_code json_main_config
                [top_argument "src" (Some limit_tree)] eq_refl eq_refl)
      as (r & code & Hrun & _ & Hcode & _).
    rewrite Hrun. cbn [exit_code]. rewrite Hcode.
    vm_compute in Hrun. by injection Hrun as <- _.
  - destruct (X25_exit_code json_main_config
                [top_argument "empty" (Some (Dir []))] eq_refl eq_refl)
      as (r & code & Hrun & _ & Hcode & _).
    rewrite Hrun. cbn [exit_code]. rewrite Hcode.
    vm_compute in Hrun. by injection Hrun as <- _.
Defined.

(** X26. Without json, when every path exists, no exception leaves its
    processing and there is at least one path, the output stream of
    [main] is what the walker wrote for all the paths, in order, and in
    xml format one opening tag before it and one closing tag after it,
    however many paths there are. *)
Theorem X26_stream_without_json cfg args :
  json cfg = false -> forallb (sound cfg) args = true -> args <> [] ->
  exists r code,
    main_run cfg args = Ended r code /\
    stream r =
      (if cxml cfg then ["<documents>"] else []) ++
      out (walker r) ++
      (if cxml cfg then ["</documents>"] else []).
Proof.
  intros Hjson Hall Hne. unfold main_run. rewrite Hjson.
  pose proof (main_loop_plain cfg args 0 (mkRun (initial_state []) [] true)
                Hjson Hall) as Hs.
  destruct (main_loop_sound cfg args 0 (mkRun (initial_state []) [] true) Hall)
    as (r' & Hloop & _). rewrite Hloop in *.
  cbn [fst walker stream initial_state out length drop app] in Hs.
  rewrite andb_true_r in Hs.
  replace (negb (is_nil args)) with true in Hs by (by destruct args).
  rewrite andb_true_r in Hs.
  destruct (count (walker r') =? 0)%nat; eexists _, _;
    (split; [reflexivity|]); cbn [walker stream];
    rewrite ?out_warn, Hs; destruct (cxml cfg); cbn [app];
    by rewrite ?app_nil_r, <- ?app_assoc.
Qed.

Lemma X26_stream_without_json_witness :
  exists r,
    main_run xml_main_config
      [top_argument "src" (Some limit_tree);
       top_argument "lib" (Some limit_tree)] = Ended r 0 /\
    stream r = ["<documents>"] ++ out (walker r) ++ ["</documents>"].
Proof.
  destruct (X26_stream_without_json xml_main_config
              [top_argument "src" (Some limit_tree);
               top_argument "lib" (Some limit_tree)])
    as (r & code & Hrun & Hs); [reflexivity..|discriminate|].
  exists r.
  assert (E : main_run xml_main_config
                [top_argument "src" (Some limit_tree);
                 top_argument "lib" (Some limit_tree)] = Ended r code)
    by exact Hrun.
  vm_compute in E. injection E as <- <-.
  split; [exact Hrun|exact Hs].
Defined.

Example json_and_xml_run :
  exists r,
    main_run
      (mkConfig [] false false false [] None true false false true false
                None None None true)
      [top_argument "src" (Some (Dir [("a.txt", File (text_file "A"))]))]
      = Ended r 0 /\
    stream r =
      [ "["; "<documents>"; json_document 1 "src/a.txt" "A"; "</documents>";
        "]" ].
Proof. eexists. split; vm_compute; reflexivity. Qed.

End MainClaims.

(** ** Read failures in a walk *)

Section Simulation.

Variable cfg : config.



Lemma sim_sym a b : sim a b -> sim b a.
Proof. intros (?&?&?&?). by repeat split. Qed.

Lemma sim_record e a b : sim a b -> sim (record e a) (record e b).
Proof. intros (?&?&?&?). by repeat split. Qed.


Lemma sim_warn msg a b : sim a b -> sim (warn cfg msg a) (warn cfg msg b).
Proof.
  intros (?&?&?&?). unfold warn. destruct (quiet cfg); by repeat split.
Qed.

Lemma sim_emit filePath content a b :
  sim a b -> sim (emit cfg filePath content a) (emit cfg filePath content b).
Proof.
  intros (Ho & Hc & Hi & Hr). unfold emit, printPath.
  destruct (json cfg); [|destruct (cxml cfg); [|destruct (markdown cfg)]];
    rewrite ?printAsJson_eq, ?printAsXml_eq, ?printAsMarkdown_eq,
      ?printDefault_eq;
    destruct (has_counter cfg); simpl_state; rewrite ?Ho, ?Hc, ?Hi, ?Hr;
    by repeat split.
Qed.

Lemma growth_none a a' b b' :
  err a' = err a -> err b' = err b -> same_growth a a' b b'.
Proof. intros Ha Hb. exists []. by rewrite !app_nil_r. Qed.

Lemma growth_warn msg a a' b b' :
  err a' = err a -> err b' = err b ->
  same_growth a (warn cfg msg a') b (warn cfg msg b').
Proof.
  intros Ha Hb. exists (if quiet cfg then [] else [msg]).
  by rewrite !err_warn, Ha, Hb.
Qed.

Lemma growth_trans a a' a'' b b' b'' :
  same_growth a a' b b' -> same_growth a' a'' b' b'' ->
  same_growth a a'' b b''.
Proof.
  intros (d1 & Ha1 & Hb1) (d2 & Ha2 & Hb2). exists (d1 ++ d2).
  by rewrite Ha2, Hb2, Ha1, Hb1, !app_assoc.
Qed.

(** One file, from two states that differ in diagnostics and log only. *)
Lemma process_file_sim filePath f a b :
  sim a b ->
  sim (process_file cfg filePath f a) (process_file cfg filePath f b) /\
  same_growth a (process_file cfg filePath f a) b (process_file cfg filePath f b).
Proof.
  intros Hsim. unfold process_file, isBinaryFile.
  destruct (negb _ && bool_decide _).
  { split; [exact Hsim|by apply growth_none]. }
  destruct (f_bytes f) as [buf|]; [destruct (isBinaryBuffer _)|];
    (destruct (maxSize cfg) as [limit|];
     [destruct (f_size f) as [size|]; [destruct (limit <? size)%nat|]|]);
    destruct (f_read f) as [content| |].
  all: split;
    [ repeat first [apply sim_emit | apply sim_warn | apply sim_record];
      exact Hsim
    | first [ apply growth_warn; reflexivity
            | apply growth_none; rewrite ?err_emit; reflexivity ] ].
Qed.

(** The file loop, likewise; the two runs leave it the same way. *)
Lemma walk_files_sim root files : forall a b,
  sim a b ->
  sim (walk_files cfg root files a).1 (walk_files cfg root files b).1 /\
  (walk_files cfg root files a).2 = (walk_files cfg root files b).2 /\
  same_growth a (walk_files cfg root files a).1 b (walk_files cfg root files b).1.
Proof.
  induction files as [|[name f] files IH]; intros a b Hsim; cbn [walk_files].
  { split; [exact Hsim|]. split; [reflexivity|by apply growth_none]. }
  assert (Hlim : limit_reached cfg a = limit_reached cfg b).
  { unfold limit_reached. by destruct Hsim as (_ & -> & _). }
  rewrite Hlim. destruct (limit_reached cfg b).
  { split; [exact Hsim|]. split; [reflexivity|by apply growth_none]. }
  destruct (process_file_sim (Path.join root name) f a b Hsim) as [Hs Hg].
  destruct (IH _ _ Hs) as (Hs' & Hr & Hg').
  split; [exact Hs'|]. split; [exact Hr|]. by eapply growth_trans.
Qed.










Lemma sim_agree a b : sim a b -> agree cfg a b.
Proof. intros (?&?&?&?). repeat split; auto. Qed.

Lemma agree_trans a b c : agree cfg a b -> agree cfg b c -> agree cfg a c.
Proof.
  intros (Ho&Hc&Hi&Hr) (Ho'&Hc'&Hi'&Hr'). repeat split; try congruence.
  destruct Hr as [Hr|Hr]; [|by right].
  destruct Hr' as [Hr'|Hr']; [left; congruence|].
  right. unfold limit_reached in *. by rewrite Hc.
Qed.



Lemma walk_files_agree root files a b :
  agree cfg a b ->
  agree cfg (walk_files cfg root files a).1 (walk_files cfg root files b).1 /\
  (walk_files cfg root files a).2 = (walk_files cfg root files b).2 /\
  same_growth a (walk_files cfg root files a).1 b (walk_files cfg root files b).1.
Proof.
  intros (Ho & Hc & Hi & [Hr|Hlim]).
  - destruct (walk_files_sim root files a b) as (Hs & Hret & Hg);
      [by repeat split|].
    split; [by apply sim_agree|by split].
  - assert (Hlimb : limit_reached cfg b = true)
      by (unfold limit_reached in *; by rewrite <- Hc).
    destruct files as [|[name f] files]; cbn [walk_files];
      rewrite ?Hlim, ?Hlimb; cbn [fst snd];
      (split; [by repeat split; auto|split; [reflexivity|by apply growth_none]]).
Qed.


End Simulation.

Section SortFacts.

Context {A : Type}.




End SortFacts.

Section FailedReads.

Variable cfg : config.
Variable name : string.
Variable bad : file.

Hypothesis name_valid : valid_name name = true.
Hypothesis name_not_rules : name <> ".gitignore".
Hypothesis read_fails : forall content, f_read bad <> ReadOk content.




Lemma lookup_entry_drop key pre (x : node) post :
  name <> key ->
  lookup_entry key (pre ++ (name, x) :: post) = lookup_entry key (pre ++ post).
Proof.
  intros Hne. induction pre as [|[n y] pre IH]; cbn [app lookup_entry].
  - by rewrite (proj2 (String.eqb_neq name key) Hne).
  - by rewrite IH.
Qed.


Lemma rules_in_force_drop root pre post st :
  rules_in_force cfg root (pre ++ post) st =
  rules_in_force cfg root (pre ++ (name, File bad) :: post) st.
Proof.
  unfold rules_in_force, readGitignore.
  by rewrite (lookup_entry_drop ".gitignore" pre (File bad) post name_not_rules).
Qed.
















End FailedReads.



(** The walk of the tree with the two failing files: the documents of
    the three readable files, in the order of the walk, and the one
    warning. *)
Example failing_walk :
  let st' := walkDir plain_config "/r" failing_tree (initial_state []) in
  emitted_paths (log st') = ["/r/a.txt"; "/r/z.txt"; "/r/sub/k.txt"] /\
  err st' = [encoding_warning "/r/m.txt"] /\
  out st' = out (walkDir plain_config "/r" failing_tree_less_both (initial_state [])) /\
  err (walkDir plain_config "/r" failing_tree_less_both (initial_state [])) = [].
Proof. cbv zeta. repeat split; vm_compute; reflexivity. Qed.

(** The file that is gone, two levels down. *)
Example vanished_below :
  drops_failed "gone.txt" vanished_file
    failing_tree_less_unreadable failing_tree_less_both.
Proof.
  exact (drop_below "gone.txt" vanished_file
           [("z.txt", File (text_file "Z"))] "sub" _ _
           [("a.txt", File (text_file "A"))]
           (drop_here "gone.txt" vanished_file [] [("k.txt", File (text_file "K"))])).
Qed.
